(** * A shallow embedding of the Lox bytecode compiler and stack VM

    Sources embedded: [include/opcode.hpp], [include/vm.hpp] and
    [include/compiler.hpp].  The headers [chunk.hpp] and [scanner.hpp] are
    not among the sources; what the embedded code needs from them is
    modelled below and marked as such. *)

From Stdlib Require Import ZArith String Ascii List Lia Bool.
From Stdlib Require Import SpecFloat DecimalString.
From stdpp Require Import base gmap list strings.

Local Open Scope Z_scope.

(** ** Doubles

    [double] is IEEE-754 binary64, through the Standard Library's executable
    specification of floating-point numbers. *)

Definition double_prec : Z := 53.
Definition double_emax : Z := 1024.

Definition double : Type := spec_float.

Definition double_of_Z (z : Z) : double :=
  binary_normalize double_prec double_emax z 0 false.

Definition dadd : double -> double -> double := SFadd double_prec double_emax.
Definition dsub : double -> double -> double := SFsub double_prec double_emax.
Definition dmul : double -> double -> double := SFmul double_prec double_emax.
Definition ddiv : double -> double -> double := SFdiv double_prec double_emax.
Definition dneg : double -> double := SFopp.
Definition deqb : double -> double -> bool := SFeqb.
Definition dltb : double -> double -> bool := SFltb.
(** C++ [a > b] on doubles. *)
Definition dgtb (a b : double) : bool := SFltb b a.

(** ** Values and chunks (chunk.hpp) *)

(** Modelled from the spec: [Value] of chunk.hpp, "a tagged variant over
    exactly four cases"; the code uses it as a [std::variant] holding
    [std::monostate], [bool], [double] and [std::string]. *)
Inductive Value : Type :=
| VNil
| VBool (b : bool)
| VNumber (d : double)
| VString (s : string).

(** [operator==] of [std::variant]: the same alternative and equal payloads. *)
Definition Value_eq (a b : Value) : bool :=
  match a, b with
  | VNil, VNil => true
  | VBool x, VBool y => Bool.eqb x y
  | VNumber x, VNumber y => deqb x y
  | VString x, VString y => String.eqb x y
  | _, _ => false
  end.

(** The alternative a [Value] holds ([std::variant::index]). *)
Definition Value_index (v : Value) : nat :=
  match v with
  | VNil => 0
  | VBool _ => 1
  | VNumber _ => 2
  | VString _ => 3
  end.

(** Modelled from the spec: [Chunk] of chunk.hpp, "an append-only byte
    vector, a parallel line-number vector (one entry per byte), and a
    constant pool". *)
Record Chunk : Type := mkChunk {
  code : list Z;
  lines : list Z;
  constants : list Value;
}.

Definition Chunk_empty : Chunk := mkChunk [] [] [].

(** Modelled from the spec: [Chunk::write], "append one byte with its source
    line". *)
Definition Chunk_write (byte line : Z) (c : Chunk) : Chunk :=
  mkChunk (code c ++ [byte]) (lines c ++ [line]) (constants c).

(** Modelled from the spec: [Chunk::addConstant], "append a Value to the
    constant pool and return its index". *)
Definition Chunk_addConstant (value : Value) (c : Chunk) : Z * Chunk :=
  (Z.of_nat (length (constants c)),
   mkChunk (code c) (lines c) (constants c ++ [value])).

Definition UINT8_MAX : Z := 255.
(** Modelled from the spec: [UINT8_COUNT], the "fixed-capacity (256)" of the
    locals table. *)
Definition UINT8_COUNT : Z := 256.

(** [static_cast<uint8_t>]. *)
Definition to_uint8 (z : Z) : Z := z mod 256.

(** ** opcode.hpp *)

Module OpCode.
Inductive t : Type :=
| CONSTANT
| NIL | TRUE | FALSE
| POP
| DEFINE_GLOBAL | GET_GLOBAL | SET_GLOBAL
| SET_LOCAL | GET_LOCAL
| EQUAL | GREATER | LESS
| ADD | SUBTRACT | MULTIPLY | DIVIDE
| NEGATE | NOT
| PRINT
| RETURN.

(** [static_cast<uint8_t>(op)]: the enumerators count from 0. *)
Definition to_byte (op : t) : Z :=
  match op with
  | CONSTANT => 0
  | NIL => 1 | TRUE => 2 | FALSE => 3
  | POP => 4
  | DEFINE_GLOBAL => 5 | GET_GLOBAL => 6 | SET_GLOBAL => 7
  | SET_LOCAL => 8 | GET_LOCAL => 9
  | EQUAL => 10 | GREATER => 11 | LESS => 12
  | ADD => 13 | SUBTRACT => 14 | MULTIPLY => 15 | DIVIDE => 16
  | NEGATE => 17 | NOT => 18
  | PRINT => 19
  | RETURN => 20
  end.

(** [static_cast<OpCode>(byte)]; [None] for a byte that names no
    enumerator. *)
Definition of_byte (b : Z) : option t :=
  match b with
  | 0 => Some CONSTANT
  | 1 => Some NIL | 2 => Some TRUE | 3 => Some FALSE
  | 4 => Some POP
  | 5 => Some DEFINE_GLOBAL | 6 => Some GET_GLOBAL | 7 => Some SET_GLOBAL
  | 8 => Some SET_LOCAL | 9 => Some GET_LOCAL
  | 10 => Some EQUAL | 11 => Some GREATER | 12 => Some LESS
  | 13 => Some ADD | 14 => Some SUBTRACT | 15 => Some MULTIPLY
  | 16 => Some DIVIDE
  | 17 => Some NEGATE | 18 => Some NOT
  | 19 => Some PRINT
  | 20 => Some RETURN
  | _ => None
  end.
End OpCode.

(** ** Outcomes of running C++ code

    A call either returns a value in a new state, or ends the process through
    [std::terminate] (an exception leaving a [noexcept] function), or leaves
    by an exception nobody in the embedded code catches, or has undefined
    behaviour.  [OutOfFuel] belongs to the model only: the loop bound given to
    a function with an unbounded loop or recursion was too small. *)
Inductive Outcome (S A : Type) : Type :=
| Returns (a : A) (s : S)
| Terminates (s : S)
| Throws (s : S)
| Undefined
| OutOfFuel.

Arguments Returns {S A} a s.
Arguments Terminates {S A} s.
Arguments Throws {S A} s.
Arguments Undefined {S A}.
Arguments OutOfFuel {S A}.

Definition M (S A : Type) : Type := S -> Outcome S A.

Definition ret {S A} (a : A) : M S A := fun s => Returns a s.

Definition bind {S A B} (m : M S A) (k : A -> M S B) : M S B :=
  fun s =>
    match m s with
    | Returns a s' => k a s'
    | Terminates s' => Terminates s'
    | Throws s' => Throws s'
    | Undefined => Undefined
    | OutOfFuel => OutOfFuel
    end.

Definition get {S} : M S S := fun s => Returns s s.
Definition modify {S} (f : S -> S) : M S unit := fun s => Returns tt (f s).
Definition terminate {S A} : M S A := fun s => Terminates s.
Definition throw {S A} : M S A := fun s => Throws s.
Definition undefined {S A} : M S A := fun _ => Undefined.

Declare Scope cpp_scope.
Delimit Scope cpp_scope with cpp.
Notation "x <- m ;; k" := (bind m (fun x => k))
  (at level 100, m at next level, right associativity) : cpp_scope.
Notation "m ;; k" := (bind m (fun _ => k))
  (at level 100, right associativity) : cpp_scope.
Local Open Scope cpp_scope.

(** [operator<<] of an integer on a stream. *)
Definition show_int (z : Z) : string := NilZero.string_of_int (Z.to_int z).

Definition ostream : Type := string.

(** The character ['\n']. *)
Definition endl : string := String "010"%char EmptyString.

(** A member function called through a reference or pointer to a part of the
    state: run [m] on the part [getp] selects and store the part back. *)
Definition zoom {S T A} (getp : T -> option S) (setp : S -> T -> T)
    (m : M S A) : M T A :=
  fun t =>
    match getp t with
    | None => Undefined
    | Some s =>
        match m s with
        | Returns a s' => Returns a (setp s' t)
        | Terminates s' => Terminates (setp s' t)
        | Throws s' => Throws (setp s' t)
        | Undefined => Undefined
        | OutOfFuel => OutOfFuel
        end
    end.

(** A function declared [noexcept]: an exception that would leave it calls
    [std::terminate]. *)
Definition noexcept {S A} (m : M S A) : M S A :=
  fun s =>
    match m s with
    | Throws s' => Terminates s'
    | o => o
    end.

(** ** The scanner interface (scanner.hpp) *)

Module TokenType.
(** Modelled from the spec: the token kinds of scanner.hpp, in the order in
    which [Compilation::getRule] lists its rows. *)
Inductive t : Type :=
| LeftParen | RightParen | LeftBrace | RightBrace
| Comma | Dot | Minus | Plus | Semicolon | Slash | Star
| Bang | BangEqual | Equal | EqualEqual
| Greater | GreaterEqual | Less | LessEqual
| Identifier | String | Number
| And | Class | Else | False | For | Fun | If | Nil | Or
| Print | Return | Super | This | True | Var | While
| Error | Eof.

#[global] Instance eq_dec : EqDecision t.
Proof. solve_decision. Defined.

(** [a == b] on token kinds. *)
Definition eqb (a b : t) : bool := bool_decide (a = b).
End TokenType.

(** Modelled from the spec: "Token = { kind, text, line }". *)
Record Token : Type := mkToken {
  type : TokenType.t;
  text : string;
  line : Z;
}.

(** A default-constructed [Token]; the compiler overwrites it before it reads
    it. *)
Definition Token_default : Token := mkToken TokenType.LeftParen "" 0.

(** Modelled from the spec: the scanner is "a lazy stream of tokens (token
    kind, lexeme slice, source line)" which "an Eof kind terminates": the
    tokens still to come, and the line the scanner has reached when they run
    out. *)
Record Scanner : Type := mkScanner {
  pending : list Token;
  atEnd : Z;
}.

Definition Scanner_scanToken (s : Scanner) : Token * Scanner :=
  match pending s with
  | [] => (mkToken TokenType.Eof "" (atEnd s), s)
  | tok :: rest => (tok, mkScanner rest (atEnd s))
  end.

(** ** compiler.hpp *)

Module Precedence.
(** [enum class Precedence : uint8_t]; the code compares its values with
    [<=] and computes [Precedence(p + 1)], so they are kept as bytes. *)
Definition t : Type := Z.
Definition None : t := 0.
Definition Assignment : t := 1.
Definition Or : t := 2.
Definition And : t := 3.
Definition Equality : t := 4.
Definition Comparison : t := 5.
Definition Term : t := 6.
Definition Factor : t := 7.
Definition Unary : t := 8.
Definition Call : t := 9.
Definition Primary : t := 10.
End Precedence.

(** The member functions [getRule] wraps into [ParseFn] closures. *)
Inductive ParseFn : Type :=
| Fn_grouping | Fn_unary | Fn_binary | Fn_number
| Fn_literal | Fn_string | Fn_variable.

(** [prefix] and [infix] are [None] where the table has [nullptr]. *)
Record ParseRule : Type := mkParseRule {
  prefix : option ParseFn;
  infix : option ParseFn;
  precedence : Precedence.t;
}.

Record Parser : Type := mkParser {
  current : Token;
  previous : Token;
  scanner : Scanner;
  hadError : bool;
  panicMode : bool;
}.

Definition set_current (tok : Token) (p : Parser) : Parser :=
  mkParser tok (previous p) (scanner p) (hadError p) (panicMode p).
Definition set_previous (tok : Token) (p : Parser) : Parser :=
  mkParser (current p) tok (scanner p) (hadError p) (panicMode p).
Definition set_scanner (s : Scanner) (p : Parser) : Parser :=
  mkParser (current p) (previous p) s (hadError p) (panicMode p).
Definition set_hadError (b : bool) (p : Parser) : Parser :=
  mkParser (current p) (previous p) (scanner p) b (panicMode p).
Definition set_panicMode (b : bool) (p : Parser) : Parser :=
  mkParser (current p) (previous p) (scanner p) (hadError p) b.

(** Code that works on a [Parser&] and writes to [std::cerr]. *)
Definition P (A : Type) : Type := M (Parser * ostream) A.

Definition cerr_write {S} (s : string) : M (S * ostream) unit :=
  modify (fun st => (fst st, snd st +:+ s)).

Definition errorAt (token : Token) (message : string) : P unit :=
  noexcept (
    st <- get ;;
    if panicMode (fst st) then ret tt
    else
      modify (fun st => (set_panicMode true (fst st), snd st)) ;;
      cerr_write ("[line " +:+ show_int (line token) +:+ "] Error") ;;
      (if TokenType.eqb (type token) TokenType.Eof then
         cerr_write " at end"
       else if TokenType.eqb (type token) TokenType.Error then
         ret tt
       else
         cerr_write (" at " +:+ text token)) ;;
      cerr_write (": " +:+ message +:+ endl) ;;
      modify (fun st => (set_hadError true (fst st), snd st))).

Definition errorAtCurrent (message : string) : P unit :=
  noexcept (st <- get ;; errorAt (current (fst st)) message).

Definition error (message : string) : P unit :=
  noexcept (st <- get ;; errorAt (previous (fst st)) message).

(** [current = scanner.scanToken()]. *)
Definition Parser_scan : P unit :=
  modify (fun st =>
    let (tok, s) := Scanner_scanToken (scanner (fst st)) in
    (set_current tok (set_scanner s (fst st)), snd st)).

(** The [while(true)] of [Parser::advance]; every turn takes a token off the
    scanner. *)
Fixpoint Parser_advance_loop (fuel : nat) : P unit :=
  match fuel with
  | O => fun _ => OutOfFuel
  | S fuel =>
      Parser_scan ;;
      st <- get ;;
      if negb (TokenType.eqb (type (current (fst st))) TokenType.Error)
      then ret tt
      else
        errorAtCurrent (text (current (fst st))) ;;
        Parser_advance_loop fuel
  end.

Definition Parser_advance : P unit :=
  noexcept (
    modify (fun st => (set_previous (current (fst st)) (fst st), snd st)) ;;
    st <- get ;;
    Parser_advance_loop (S (length (pending (scanner (fst st)))))).

Definition Parser_consume (ty : TokenType.t) (message : string) : P unit :=
  noexcept (
    st <- get ;;
    if TokenType.eqb (type (current (fst st))) ty then Parser_advance
    else errorAtCurrent message).

Definition Parser_check (ty : TokenType.t) (p : Parser) : bool :=
  TokenType.eqb (type (current p)) ty.

Record Local : Type := mkLocal {
  name : string;
  depth : Z;
}.

Record Compiler : Type := mkCompiler {
  locals : list Local;
  localCount : Z;
  scopeDepth : Z;
}.

(** The implicitly default-constructed [Compiler]: the array has
    [UINT8_COUNT] entries, which the code writes before it reads them. *)
Definition Compiler_new : Compiler :=
  mkCompiler (replicate (Z.to_nat UINT8_COUNT) (mkLocal "" 0)) 0 0.

(** [compilingChunk] and [parser] are pointers: [None] is [nullptr], and
    [Some x] a pointer to an object whose present contents are [x]. *)
Record Compilation : Type := mkCompilation {
  compilingChunk : option Chunk;
  compiler : Compiler;
  parser : option Parser;
}.

Definition Compilation_new : Compilation :=
  mkCompilation None Compiler_new None.

Definition set_compilingChunk (c : option Chunk) (cu : Compilation) :=
  mkCompilation c (compiler cu) (parser cu).
Definition set_compiler (c : Compiler) (cu : Compilation) :=
  mkCompilation (compilingChunk cu) c (parser cu).
Definition set_parser (p : option Parser) (cu : Compilation) :=
  mkCompilation (compilingChunk cu) (compiler cu) p.

(** The member functions of [Compilation], which also write to
    [std::cerr]. *)
Definition C (A : Type) : Type := M (Compilation * ostream) A.

(** A call through the [parser] pointer. *)
Definition on_parser {A} (m : P A) : C A :=
  zoom (fun st => match parser (fst st) with
                  | Some p => Some (p, snd st)
                  | None => None
                  end)
       (fun ps st => (set_parser (Some (fst ps)) (fst st), snd ps))
       m.

Definition the_parser : C Parser :=
  on_parser (st <- get ;; ret (fst st)).

Definition the_compiler : C Compiler :=
  st <- get ;; ret (compiler (fst st)).

Definition modify_compiler (f : Compiler -> Compiler) : C unit :=
  modify (fun st => (set_compiler (f (compiler (fst st))) (fst st), snd st)).

(** Conversion to [size_t] (64 bits) and [static_cast<int>] (32 bits). *)
Definition to_size_t (z : Z) : Z := z mod 2 ^ 64.
Definition to_int (z : Z) : Z := (z + 2 ^ 31) mod 2 ^ 32 - 2 ^ 31.

(** [compiler.locals[i]]; an index outside the array is undefined
    behaviour. *)
Definition locals_at (i : Z) : C Local :=
  cmp <- the_compiler ;;
  if (i <? 0) then undefined
  else match locals cmp !! Z.to_nat i with
       | Some l => ret l
       | None => undefined
       end.

Definition currentChunk : C Chunk :=
  noexcept (
    st <- get ;;
    match compilingChunk (fst st) with
    | Some c => ret c
    | None => undefined
    end).

Definition set_currentChunk (c : Chunk) : C unit :=
  modify (fun st => (set_compilingChunk (Some c) (fst st), snd st)).

Definition emitByte (byte : Z) : C unit :=
  c <- currentChunk ;;
  p <- the_parser ;;
  set_currentChunk (Chunk_write byte (line (previous p)) c).

Definition emitOp (op : OpCode.t) : C unit := emitByte (OpCode.to_byte op).

Definition emitReturn : C unit := emitOp OpCode.RETURN.

Definition emitBytes (byte1 byte2 : Z) : C unit :=
  emitByte byte1 ;; emitByte byte2.

Definition emitOps (byte1 byte2 : OpCode.t) : C unit :=
  emitOp byte1 ;; emitOp byte2.

Definition endCompiler : C unit := noexcept emitReturn.

Definition match_ (ty : TokenType.t) : C bool :=
  noexcept (
    p <- the_parser ;;
    if negb (Parser_check ty p) then ret false
    else on_parser Parser_advance ;; ret true).

Definition makeConstant (value : Value) : C Z :=
  noexcept (
    c <- currentChunk ;;
    let (index, c') := Chunk_addConstant value c in
    set_currentChunk c' ;;
    let constant := to_uint8 index in
    if constant >? UINT8_MAX then
      on_parser (error "Too many constants in one chunk") ;;
      ret 0
    else ret constant).

Definition emitConstant (value : Value) : C unit :=
  noexcept (
    constant <- makeConstant value ;;
    emitBytes (to_uint8 (OpCode.to_byte OpCode.CONSTANT)) constant).

Definition literal (_ : bool) : C unit :=
  p <- the_parser ;;
  match type (previous p) with
  | TokenType.False => emitOp OpCode.FALSE
  | TokenType.Nil => emitOp OpCode.NIL
  | TokenType.True => emitOp OpCode.TRUE
  | _ => ret tt
  end.

Definition string_ (_ : bool) : C unit :=
  p <- the_parser ;;
  let str := text (previous p) in
  if (String.length str <? 2)%nat then undefined
  else emitConstant (VString (substring 1 (String.length str - 2) str)).

Definition identifiersEqual (str1 str2 : string) : bool := String.eqb str1 str2.

(** The [for] loop of [resolveLocal], from index [k - 1] down to 0. *)
Fixpoint resolveLocal_from (k : nat) : C Z :=
  match k with
  | O => ret (-1)
  | S i =>
      cmp <- the_compiler ;;
      match locals cmp !! i with
      | None => throw
      | Some local =>
          p <- the_parser ;;
          if identifiersEqual (text (previous p)) (name local) then
            (if depth local =? -1 then
               on_parser
                 (error "Can't read local variable in its own initializer.")
             else ret tt) ;;
            ret (Z.of_nat i)
          else resolveLocal_from i
      end
  end.

Definition resolveLocal : C Z :=
  cmp <- the_compiler ;;
  resolveLocal_from (Z.to_nat (localCount cmp)).

Definition identifierConstant : C Z :=
  noexcept (p <- the_parser ;; makeConstant (VString (text (previous p)))).

Definition addLocal (nm : string) : C unit :=
  cmp <- the_compiler ;;
  if localCount cmp =? UINT8_COUNT then
    on_parser (error "Too many local variables declared in function.")
  else
    let i := localCount cmp in
    _ <- locals_at i ;;
    modify_compiler (fun cmp =>
      mkCompiler (<[Z.to_nat i := mkLocal nm (-1)]> (locals cmp))
                 (localCount cmp + 1) (scopeDepth cmp)).

(** The [for] loop of [declareVariable], from index [k - 1] down to 0. *)
Fixpoint declareVariable_from (nm : string) (k : nat) : C unit :=
  match k with
  | O => ret tt
  | S i =>
      local <- locals_at (Z.of_nat i) ;;
      cmp <- the_compiler ;;
      if negb (depth local =? -1)
         && (to_size_t (depth local) <? scopeDepth cmp)
      then ret tt
      else
        (if identifiersEqual nm (name local) then
           on_parser
             (error "Re-definition of an existing variable in this scope.")
         else ret tt) ;;
        declareVariable_from nm i
  end.

Definition declareVariable : C unit :=
  cmp <- the_compiler ;;
  if scopeDepth cmp =? 0 then ret tt
  else
    p <- the_parser ;;
    let nm := text (previous p) in
    declareVariable_from nm (Z.to_nat (localCount cmp)) ;;
    addLocal nm.

Definition parseVariable (message : string) : C Z :=
  noexcept (
    on_parser (Parser_consume TokenType.Identifier message) ;;
    declareVariable ;;
    cmp <- the_compiler ;;
    if scopeDepth cmp >? 0 then ret 0
    else identifierConstant).

Definition markInitialized : C unit :=
  cmp <- the_compiler ;;
  let i := localCount cmp - 1 in
  local <- locals_at i ;;
  modify_compiler (fun cmp =>
    mkCompiler
      (<[Z.to_nat i := mkLocal (name local) (to_int (scopeDepth cmp))]>
         (locals cmp))
      (localCount cmp) (scopeDepth cmp)).

Definition defineVariable (global : Z) : C unit :=
  cmp <- the_compiler ;;
  if scopeDepth cmp >? 0 then markInitialized
  else emitBytes (to_uint8 (OpCode.to_byte OpCode.DEFINE_GLOBAL)) global.

Definition beginScope : C unit :=
  noexcept (
    modify_compiler (fun cmp =>
      mkCompiler (locals cmp) (localCount cmp)
                 (to_size_t (scopeDepth cmp + 1)))).

(** The [while] loop of [endScope]; every turn lowers [localCount]. *)
Fixpoint endScope_loop (fuel : nat) : C unit :=
  match fuel with
  | O => fun _ => OutOfFuel
  | S fuel =>
      cmp <- the_compiler ;;
      if localCount cmp >? 0 then
        local <- locals_at (localCount cmp - 1) ;;
        if to_size_t (depth local) >? scopeDepth cmp then
          emitOp OpCode.POP ;;
          modify_compiler (fun cmp =>
            mkCompiler (locals cmp) (localCount cmp - 1) (scopeDepth cmp)) ;;
          endScope_loop fuel
        else ret tt
      else ret tt
  end.

Definition endScope : C unit :=
  noexcept (
    modify_compiler (fun cmp =>
      mkCompiler (locals cmp) (localCount cmp)
                 (to_size_t (scopeDepth cmp - 1))) ;;
    cmp <- the_compiler ;;
    endScope_loop (S (Z.to_nat (localCount cmp)))).

Definition getRule (ty : TokenType.t) : ParseRule :=
  match ty with
  | TokenType.LeftParen => mkParseRule (Some Fn_grouping) None Precedence.None
  | TokenType.Minus =>
      mkParseRule (Some Fn_unary) (Some Fn_binary) Precedence.Term
  | TokenType.Plus => mkParseRule None (Some Fn_binary) Precedence.Term
  | TokenType.Slash => mkParseRule None (Some Fn_binary) Precedence.Factor
  | TokenType.Star => mkParseRule None (Some Fn_binary) Precedence.Factor
  | TokenType.Bang => mkParseRule (Some Fn_unary) None Precedence.None
  | TokenType.BangEqual =>
      mkParseRule None (Some Fn_binary) Precedence.Equality
  | TokenType.EqualEqual =>
      mkParseRule None (Some Fn_binary) Precedence.Equality
  | TokenType.Greater =>
      mkParseRule None (Some Fn_binary) Precedence.Comparison
  | TokenType.GreaterEqual =>
      mkParseRule None (Some Fn_binary) Precedence.Comparison
  | TokenType.Less => mkParseRule None (Some Fn_binary) Precedence.Comparison
  | TokenType.LessEqual =>
      mkParseRule None (Some Fn_binary) Precedence.Comparison
  | TokenType.Identifier =>
      mkParseRule (Some Fn_variable) None Precedence.None
  | TokenType.String => mkParseRule (Some Fn_string) None Precedence.None
  | TokenType.Number => mkParseRule (Some Fn_number) None Precedence.None
  | TokenType.False => mkParseRule (Some Fn_literal) None Precedence.None
  | TokenType.Nil => mkParseRule (Some Fn_literal) None Precedence.None
  | TokenType.True => mkParseRule (Some Fn_literal) None Precedence.None
  | _ => mkParseRule None None Precedence.None
  end.

(** The [while] loop of [synchronize]; every turn takes a token off the
    scanner or reaches [Eof]. *)
Fixpoint synchronize_loop (fuel : nat) : C unit :=
  match fuel with
  | O => fun _ => OutOfFuel
  | S fuel =>
      p <- the_parser ;;
      if negb (TokenType.eqb (type (current p)) TokenType.Eof) then
        if TokenType.eqb (type (previous p)) TokenType.Semicolon then ret tt
        else
          match type (current p) with
          | TokenType.Class | TokenType.Fun | TokenType.Var | TokenType.For
          | TokenType.If | TokenType.While | TokenType.Print
          | TokenType.Return => ret tt
          | _ => on_parser Parser_advance ;; synchronize_loop fuel
          end
      else ret tt
  end.

Definition synchronize : C unit :=
  on_parser
    (modify (fun st => (set_panicMode false (fst st), snd st))) ;;
  p <- the_parser ;;
  synchronize_loop (S (S (length (pending (scanner p))))).

Section Compile.

(** [std::stod] on the lexeme of a number token; [None] when it throws. *)
Variable stod : string -> option double.

(** The scanner of a source text ([Scanner]'s constructor). *)
Variable Scanner_new : string -> Scanner.

Definition Parser_new (source : string) : Parser :=
  mkParser Token_default Token_default (Scanner_new source) false false.

Definition number (_ : bool) : C unit :=
  noexcept (
    p <- the_parser ;;
    match stod (text (previous p)) with
    | None => throw
    | Some value => emitConstant (VNumber value)
    end).

(** The expression parser.  [fuel] bounds the depth of the calls. *)
Fixpoint parsePrecedence (fuel : nat) (prec : Precedence.t) : C unit :=
  match fuel with
  | O => fun _ => OutOfFuel
  | S fuel =>
      on_parser Parser_advance ;;
      p <- the_parser ;;
      let ty := type (previous p) in
      match prefix (getRule ty) with
      | None => on_parser (error "Expected expression.")
      | Some prefixRule =>
          let canAssign := prec <=? Precedence.Assignment in
          invoke fuel prefixRule canAssign ;;
          parsePrecedence_loop fuel prec canAssign ;;
          assign <- (if canAssign then match_ TokenType.Equal
                     else ret false) ;;
          if assign then on_parser (error "Invalid assignment target.")
          else ret tt
      end
  end

(** The [while] loop of [parsePrecedence]. *)
with parsePrecedence_loop (fuel : nat) (prec : Precedence.t)
    (canAssign : bool) : C unit :=
  match fuel with
  | O => fun _ => OutOfFuel
  | S fuel =>
      p <- the_parser ;;
      if prec <=? precedence (getRule (type (current p))) then
        on_parser Parser_advance ;;
        p <- the_parser ;;
        match infix (getRule (type (previous p))) with
        | None => throw
        | Some infixRule => invoke fuel infixRule canAssign
        end ;;
        parsePrecedence_loop fuel prec canAssign
      else ret tt
  end

(** A call of a [ParseFn]. *)
with invoke (fuel : nat) (fn : ParseFn) (canAssign : bool) : C unit :=
  match fuel with
  | O => fun _ => OutOfFuel
  | S fuel =>
      match fn with
      | Fn_grouping => grouping fuel canAssign
      | Fn_unary => unary fuel canAssign
      | Fn_binary => binary fuel canAssign
      | Fn_number => number canAssign
      | Fn_literal => literal canAssign
      | Fn_string => string_ canAssign
      | Fn_variable => variable fuel canAssign
      end
  end

with expression (fuel : nat) : C unit :=
  match fuel with
  | O => fun _ => OutOfFuel
  | S fuel => parsePrecedence fuel Precedence.Assignment
  end

with grouping (fuel : nat) (_ : bool) : C unit :=
  match fuel with
  | O => fun _ => OutOfFuel
  | S fuel =>
      noexcept (
        expression fuel ;;
        on_parser (Parser_consume TokenType.RightParen
                     "Expect ')' after expression."))
  end

with unary (fuel : nat) (_ : bool) : C unit :=
  match fuel with
  | O => fun _ => OutOfFuel
  | S fuel =>
      p <- the_parser ;;
      let operatorType := type (previous p) in
      parsePrecedence fuel Precedence.Unary ;;
      match operatorType with
      | TokenType.Minus => emitOp OpCode.NEGATE
      | TokenType.Bang => emitOp OpCode.NOT
      | _ => ret tt
      end
  end

with binary (fuel : nat) (_ : bool) : C unit :=
  match fuel with
  | O => fun _ => OutOfFuel
  | S fuel =>
      p <- the_parser ;;
      let operatorType := type (previous p) in
      let rule := getRule operatorType in
      parsePrecedence fuel (to_uint8 (precedence rule + 1)) ;;
      match operatorType with
      | TokenType.BangEqual => emitOps OpCode.EQUAL OpCode.NOT
      | TokenType.EqualEqual => emitOp OpCode.EQUAL
      | TokenType.Greater => emitOp OpCode.GREATER
      | TokenType.GreaterEqual => emitOps OpCode.LESS OpCode.NOT
      | TokenType.Less => emitOp OpCode.LESS
      | TokenType.LessEqual => emitOps OpCode.GREATER OpCode.NOT
      | TokenType.Plus => emitOp OpCode.ADD
      | TokenType.Minus => emitOp OpCode.SUBTRACT
      | TokenType.Star => emitOp OpCode.MULTIPLY
      | TokenType.Slash => emitOp OpCode.DIVIDE
      | _ => ret tt
      end
  end

with variable (fuel : nat) (canAssign : bool) : C unit :=
  match fuel with
  | O => fun _ => OutOfFuel
  | S fuel => namedVariable fuel canAssign
  end

with namedVariable (fuel : nat) (canAssign : bool) : C unit :=
  match fuel with
  | O => fun _ => OutOfFuel
  | S fuel =>
      arg <- resolveLocal ;;
      ops <- (if negb (arg =? -1) then
                ret (OpCode.GET_LOCAL, OpCode.SET_LOCAL, arg)
              else
                arg <- identifierConstant ;;
                ret (OpCode.GET_GLOBAL, OpCode.SET_GLOBAL, arg)) ;;
      let '(getOp, setOp, arg) := ops in
      assign <- (if canAssign then match_ TokenType.Equal
                 else ret false) ;;
      if assign then
        expression fuel ;;
        emitBytes (to_uint8 (OpCode.to_byte setOp)) (to_uint8 arg)
      else
        emitBytes (to_uint8 (OpCode.to_byte getOp)) (to_uint8 arg)
  end.

Definition printStatement (fuel : nat) : C unit :=
  noexcept (
    expression fuel ;;
    on_parser (Parser_consume TokenType.Semicolon
                 "Expected ';' after value.") ;;
    emitOp OpCode.PRINT).

Definition expressionStatement (fuel : nat) : C unit :=
  expression fuel ;;
  on_parser (Parser_consume TokenType.Semicolon
               "Expect ';' after expression.") ;;
  emitOp OpCode.POP.

Definition varDeclaration (fuel : nat) : C unit :=
  global <- parseVariable "Expect variable name." ;;
  assign <- match_ TokenType.Equal ;;
  (if assign then expression fuel else emitOp OpCode.NIL) ;;
  on_parser (Parser_consume TokenType.Semicolon
               "Expect ';' after variable declaration.") ;;
  defineVariable global.

(** The statement parser.  [fuel] bounds the depth of the calls and the
    turns of the loop of [block]. *)
Fixpoint declaration (fuel : nat) : C unit :=
  match fuel with
  | O => fun _ => OutOfFuel
  | S fuel =>
      isVar <- match_ TokenType.Var ;;
      (if isVar then varDeclaration fuel else statement fuel) ;;
      p <- the_parser ;;
      if panicMode p then synchronize else ret tt
  end

with statement (fuel : nat) : C unit :=
  match fuel with
  | O => fun _ => OutOfFuel
  | S fuel =>
      isPrint <- match_ TokenType.Print ;;
      if isPrint then printStatement fuel
      else
        isBlock <- match_ TokenType.LeftBrace ;;
        if isBlock then beginScope ;; block fuel ;; endScope
        else expressionStatement fuel
  end

with block (fuel : nat) : C unit :=
  match fuel with
  | O => fun _ => OutOfFuel
  | S fuel =>
      block_loop fuel ;;
      on_parser (Parser_consume TokenType.RightBrace
                   "Expect '}': no matching token found.")
  end

(** The [while] loop of [block]. *)
with block_loop (fuel : nat) : C unit :=
  match fuel with
  | O => fun _ => OutOfFuel
  | S fuel =>
      p <- the_parser ;;
      if negb (Parser_check TokenType.RightBrace p)
         && negb (Parser_check TokenType.Eof p)
      then declaration fuel ;; block_loop fuel
      else ret tt
  end.

(** The [while] loop of [compile]. *)
Fixpoint compile_loop (fuel : nat) : C unit :=
  match fuel with
  | O => fun _ => OutOfFuel
  | S fuel =>
      atEof <- match_ TokenType.Eof ;;
      if negb atEof then declaration fuel ;; compile_loop fuel
      else ret tt
  end.

(** [compile(code, chunk)]; [chunk] is passed by reference: the compiler
    keeps a pointer to it and the caller reads it back through
    [compilingChunk]. *)
Definition compile (fuel : nat) (code : string) (chunk : Chunk) : C bool :=
  modify (fun st =>
    (set_compilingChunk (Some chunk)
       (set_parser (Some (Parser_new code)) (fst st)), snd st)) ;;
  on_parser Parser_advance ;;
  compile_loop fuel ;;
  endCompiler ;;
  p <- the_parser ;;
  ret (negb (hadError p)).

End Compile.

(** ** vm.hpp *)

Definition STACK_MAX : nat := 256.

Module InterpretResult.
Inductive t : Type := OK | COMPILE_ERROR | RUNTIME_ERROR.
End InterpretResult.

(** The members of [VM], and with them the two streams of the process.
    [mChunk] is a pointer like those of [Compilation]; [ip] always points to
    [mChunk->code].  [stack] is the array and [stackTop] the index
    [stackTop - stack.data()].  [cout] keeps the values written by
    [std::cout << value << '\n'], one entry each ([operator<<] of [Value]
    is in chunk.hpp). *)
Record VM : Type := mkVM {
  mChunk : option Chunk;
  pos : nat;
  stack : list Value;
  stackTop : nat;
  cu : Compilation;
  globals : gmap string Value;
  cout : list Value;
  cerr : ostream;
}.

Definition set_mChunk (c : option Chunk) (vm : VM) : VM :=
  mkVM c (pos vm) (stack vm) (stackTop vm) (cu vm) (globals vm)
       (cout vm) (cerr vm).
Definition set_pos (n : nat) (vm : VM) : VM :=
  mkVM (mChunk vm) n (stack vm) (stackTop vm) (cu vm) (globals vm)
       (cout vm) (cerr vm).
Definition set_stack (s : list Value) (vm : VM) : VM :=
  mkVM (mChunk vm) (pos vm) s (stackTop vm) (cu vm) (globals vm)
       (cout vm) (cerr vm).
Definition set_stackTop (n : nat) (vm : VM) : VM :=
  mkVM (mChunk vm) (pos vm) (stack vm) n (cu vm) (globals vm)
       (cout vm) (cerr vm).
Definition set_cu (c : Compilation) (vm : VM) : VM :=
  mkVM (mChunk vm) (pos vm) (stack vm) (stackTop vm) c (globals vm)
       (cout vm) (cerr vm).
Definition set_globals (g : gmap string Value) (vm : VM) : VM :=
  mkVM (mChunk vm) (pos vm) (stack vm) (stackTop vm) (cu vm) g
       (cout vm) (cerr vm).
Definition set_cout (o : list Value) (vm : VM) : VM :=
  mkVM (mChunk vm) (pos vm) (stack vm) (stackTop vm) (cu vm) (globals vm)
       o (cerr vm).
Definition set_cerr (e : ostream) (vm : VM) : VM :=
  mkVM (mChunk vm) (pos vm) (stack vm) (stackTop vm) (cu vm) (globals vm)
       (cout vm) e.

Definition the_chunk : M VM Chunk :=
  vm <- get ;;
  match mChunk vm with
  | Some c => ret c
  | None => undefined
  end.

Definition readByte : M VM Z :=
  noexcept (
    chunk <- the_chunk ;;
    vm <- get ;;
    modify (set_pos (S (pos vm))) ;;
    match code chunk !! pos vm with
    | Some byte => ret byte
    | None => throw
    end).

Definition readConstant : M VM Value :=
  noexcept (
    byte <- readByte ;;
    chunk <- the_chunk ;;
    match constants chunk !! Z.to_nat byte with
    | Some value => ret value
    | None => throw
    end).

Definition readString : M VM string :=
  noexcept (
    value <- readConstant ;;
    match value with
    | VString s => ret s
    | _ => throw
    end).

Definition resetStack : M VM unit :=
  noexcept (modify (set_stackTop 0%nat)).

Definition push (value : Value) : M VM unit :=
  noexcept (
    vm <- get ;;
    if (stackTop vm <? STACK_MAX)%nat then
      modify (fun vm =>
        set_stackTop (S (stackTop vm))
          (set_stack (<[stackTop vm := value]> (stack vm)) vm))
    else undefined).

Definition pop : M VM Value :=
  noexcept (
    vm <- get ;;
    match stackTop vm with
    | O => undefined
    | S top =>
        modify (set_stackTop top) ;;
        match stack vm !! top with
        | Some value => ret value
        | None => undefined
        end
    end).

Definition peek (offset : nat) : M VM Value :=
  vm <- get ;;
  if (offset <? stackTop vm)%nat then
    match stack vm !! (stackTop vm - 1 - offset)%nat with
    | Some value => ret value
    | None => undefined
    end
  else undefined.

Definition isFalsey (value : Value) : bool :=
  match value with
  | VBool b => negb b
  | VNil => true
  | _ => true
  end.

(** [name.c_str()] written to a stream: the characters before the first
    NUL. *)
Fixpoint c_str (s : string) : string :=
  match s with
  | EmptyString => EmptyString
  | String c rest =>
      if Ascii.eqb c "000"%char then EmptyString else String c (c_str rest)
  end.

Definition VM_cerr_write (s : string) : M VM unit :=
  modify (fun vm => set_cerr (cerr vm +:+ s) vm).

(** [args] are the arguments of the call, already in their printed form. *)
Definition runTimeError (args : list string) : M VM unit :=
  VM_cerr_write (String.concat "" args) ;;
  VM_cerr_write endl ;;
  chunk <- the_chunk ;;
  vm <- get ;;
  match pos vm with
  | O => throw
  | S before =>
      match code chunk !! before with
      | None => throw
      | Some instruction =>
          match lines chunk !! Z.to_nat instruction with
          | None => throw
          | Some line =>
              VM_cerr_write ("[line " +:+ show_int line +:+ "] in script"
                             +:+ endl) ;;
              resetStack
          end
      end
  end.

(** [op] is the lambda [[](double b, double a) -> Value { return (a op b); }],
    parameters in the lambda's order. *)
Definition binaryOp (op : double -> double -> Value) : M VM bool :=
  top <- peek 0 ;;
  match top with
  | VNumber a =>
      below <- peek 1 ;;
      match below with
      | VNumber b =>
          pop ;; pop ;; push (op a b) ;; ret true
      | _ => runTimeError ["Operands must be numbers."] ;; ret false
      end
  | _ => runTimeError ["Operands must be numbers."] ;; ret false
  end.

(** The macro [BINARY_OP]; [f a b] is [a op b].  The result is what the
    loop of [VM::run] does next: [None] to go on, [Some r] to return [r]. *)
Definition BINARY_OP (f : double -> double -> Value)
    : M VM (option InterpretResult.t) :=
  ok <- binaryOp (fun b a => f a b) ;;
  if negb ok then ret (Some InterpretResult.COMPILE_ERROR)
  else ret None.

(** The [switch (instruction)] of [VM::run]; [instruction] is [None] for a
    byte that names no enumerator.  The result is what the loop does next:
    [None] to go on, [Some r] to return [r]. *)
Definition execute (instruction : option OpCode.t)
    : M VM (option InterpretResult.t) :=
  match instruction with
  | Some OpCode.ADD =>
      v1 <- peek 1 ;;
      v2 <- peek 0 ;;
      match v1, v2 with
      | VNumber d1, VNumber d2 =>
          pop ;; pop ;; push (VNumber (dadd d1 d2)) ;; ret None
      | VString s1, VString s2 =>
          pop ;; pop ;; push (VString (s1 +:+ s2)) ;; ret None
      | _, _ =>
          runTimeError ["Operands must be two numbers or two strings."] ;;
          ret (Some InterpretResult.RUNTIME_ERROR)
      end
  | Some OpCode.SUBTRACT => BINARY_OP (fun a b => VNumber (dsub a b))
  | Some OpCode.DIVIDE => BINARY_OP (fun a b => VNumber (ddiv a b))
  | Some OpCode.MULTIPLY => BINARY_OP (fun a b => VNumber (dmul a b))
  | Some OpCode.NOT =>
      value <- pop ;;
      push (VBool (isFalsey value)) ;;
      ret None
  | Some OpCode.NEGATE =>
      value <- peek 0 ;;
      match value with
      | VNumber d => pop ;; push (VNumber (dneg d)) ;; ret None
      | _ =>
          runTimeError ["Operand must be a number."] ;;
          ret (Some InterpretResult.RUNTIME_ERROR)
      end
  | Some OpCode.PRINT =>
      value <- pop ;;
      modify (fun vm => set_cout (cout vm ++ [value]) vm) ;;
      ret None
  | Some OpCode.CONSTANT =>
      constant <- readConstant ;;
      push constant ;;
      ret None
  | Some OpCode.NIL => push VNil ;; ret None
  | Some OpCode.TRUE => push (VBool true) ;; ret None
  | Some OpCode.FALSE => push (VBool false) ;; ret None
  | Some OpCode.POP => pop ;; ret None
  | Some OpCode.GET_GLOBAL =>
      name <- readString ;;
      vm <- get ;;
      match globals vm !! name with
      | None =>
          runTimeError ["Undefined variable '"; c_str name; "'."] ;;
          ret (Some InterpretResult.RUNTIME_ERROR)
      | Some found => push found ;; ret None
      end
  | Some OpCode.DEFINE_GLOBAL =>
      name <- readString ;;
      value <- peek 0 ;;
      modify (fun vm => set_globals (<[name := value]> (globals vm)) vm) ;;
      pop ;;
      ret None
  | Some OpCode.SET_GLOBAL =>
      name <- readString ;;
      vm <- get ;;
      match globals vm !! name with
      | None =>
          runTimeError ["Undefined variable '"; c_str name; "'."] ;;
          ret (Some InterpretResult.RUNTIME_ERROR)
      | Some _ =>
          value <- peek 0 ;;
          modify (fun vm => set_globals (<[name := value]> (globals vm)) vm) ;;
          ret None
      end
  | Some OpCode.EQUAL =>
      a <- pop ;;
      b <- pop ;;
      push (VBool (Value_eq a b)) ;;
      ret None
  | Some OpCode.GREATER => BINARY_OP (fun a b => VBool (dgtb a b))
  | Some OpCode.LESS => BINARY_OP (fun a b => VBool (dltb a b))
  | Some OpCode.RETURN => ret (Some InterpretResult.OK)
  (* The switch has no case for SET_LOCAL or GET_LOCAL and no default. *)
  | Some OpCode.SET_LOCAL => ret None
  | Some OpCode.GET_LOCAL => ret None
  | None => ret None
  end.

(** One turn of the [while(true)] of [VM::run]. *)
Definition step : M VM (option InterpretResult.t) :=
  byte <- readByte ;;
  let instruction := OpCode.of_byte byte in
  execute instruction.

(** [VM::run]; [fuel] bounds the turns of the loop. *)
Fixpoint run (fuel : nat) : M VM InterpretResult.t :=
  match fuel with
  | O => fun _ => OutOfFuel
  | S fuel =>
      next <- step ;;
      match next with
      | Some result => ret result
      | None => run fuel
      end
  end.

(** [interpret(Chunk* chunk)]. *)
Definition interpret_chunk (fuel : nat) (chunk : Chunk)
    : M VM InterpretResult.t :=
  modify (set_mChunk (Some chunk)) ;;
  modify (set_pos 0%nat) ;;
  run fuel.

(** A freshly constructed [VM]. *)
Definition VM_new : VM :=
  mkVM None 0 (replicate STACK_MAX VNil) 0 Compilation_new ∅ [] "".

(** A call of a member function of [cu]. *)
Definition on_cu {A} (m : C A) : M VM A :=
  zoom (fun vm => Some (cu vm, cerr vm))
       (fun st vm => set_cerr (snd st) (set_cu (fst st) vm))
       m.

Section Interpret.

Variable stod : string -> option double.
Variable Scanner_new : string -> Scanner.

(** [interpret(std::string_view code)]; [fuel] bounds the compiler's
    recursion and then the turns of [run]. *)
Definition interpret (fuel : nat) (code : string)
    : M VM InterpretResult.t :=
  let chunk := Chunk_empty in
  ok <- on_cu (compile stod Scanner_new fuel code chunk) ;;
  if negb ok then ret InterpretResult.COMPILE_ERROR
  else
    vm <- get ;;
    match compilingChunk (cu vm) with
    | Some chunk => interpret_chunk fuel chunk
    | None => undefined
    end.

End Interpret.

(** ** What the claims speak of *)

(** A runtime error with message [msg], raised in state [vm]: the message and
    a newline go to [std::cerr]; then either the line annotation follows, the
    stack is reset and [result] is returned, or the look-up of the line
    throws, with the stack as it was. *)
Definition raised (msg : string) (result : InterpretResult.t) (vm : VM)
    (o : Outcome VM (option InterpretResult.t)) : Prop :=
  (exists ln vm',
     o = Returns (Some result) vm'
     /\ cerr vm' = cerr vm +:+ msg +:+ endl
                   +:+ "[line " +:+ show_int ln +:+ "] in script" +:+ endl
     /\ stackTop vm' = 0%nat)
  \/ (exists vm',
        o = Throws vm'
        /\ cerr vm' = cerr vm +:+ msg +:+ endl
        /\ stackTop vm' = stackTop vm /\ stack vm' = stack vm).

(** ** Inputs for the examples *)

(** [std::stod] on a lexeme of decimal digits: the double nearest to the
    integer, and an exception when that is out of range. *)
Fixpoint digits_value (s : string) (acc : Z) : option Z :=
  match s with
  | EmptyString => Some acc
  | String c rest =>
      let n := Z.of_nat (nat_of_ascii c) - 48 in
      if (0 <=? n) && (n <=? 9) then digits_value rest (10 * acc + n)
      else None
  end.

Definition stod_digits (s : string) : option double :=
  match s with
  | EmptyString => None
  | _ =>
      match digits_value s 0 with
      | Some z =>
          match double_of_Z z with
          | S754_infinity _ => None
          | d => Some d
          end
      | None => None
      end
  end.

(** A scanner that yields the tokens [toks] and then [Eof] on line
    [last]. *)
Definition scanned (toks : list Token) (last : Z) : string -> Scanner :=
  fun _ => mkScanner toks last.

Definition tok (ty : TokenType.t) (lexeme : string) (ln : Z) : Token :=
  mkToken ty lexeme ln.

(** [{ var a = 1; print a; }] *)
Definition local_source : string := "{ var a = 1; print a; }".
Definition local_tokens : list Token :=
  [tok TokenType.LeftBrace "{" 1; tok TokenType.Var "var" 1;
   tok TokenType.Identifier "a" 1; tok TokenType.Equal "=" 1;
   tok TokenType.Number "1" 1; tok TokenType.Semicolon ";" 1;
   tok TokenType.Print "print" 1; tok TokenType.Identifier "a" 1;
   tok TokenType.Semicolon ";" 1; tok TokenType.RightBrace "}" 1].

(** [print !0;] *)
Definition not_zero_source : string := "print !0;".
Definition not_zero_tokens : list Token :=
  [tok TokenType.Print "print" 1; tok TokenType.Bang "!" 1;
   tok TokenType.Number "0" 1; tok TokenType.Semicolon ";" 1].

Definition print_one : list Token :=
  [tok TokenType.Print "print" 1; tok TokenType.Number "1" 1;
   tok TokenType.Semicolon ";" 1].

(** [print 1 - true; print 1; print 1; print 1;] *)
Definition subtract_source : string :=
  "print 1 - true; print 1; print 1; print 1;".
Definition subtract_tokens : list Token :=
  [tok TokenType.Print "print" 1; tok TokenType.Number "1" 1;
   tok TokenType.Minus "-" 1; tok TokenType.True "true" 1;
   tok TokenType.Semicolon ";" 1]
  ++ print_one ++ print_one ++ print_one.

(** [print 1 - true;] *)
Definition subtract_short_source : string := "print 1 - true;".
Definition subtract_short_tokens : list Token :=
  [tok TokenType.Print "print" 1; tok TokenType.Number "1" 1;
   tok TokenType.Minus "-" 1; tok TokenType.True "true" 1;
   tok TokenType.Semicolon ";" 1].

(** [0; 1; ...; 255; print 256;]: 257 numeric constants in one chunk. *)
Definition constant_statement (k : nat) : list Token :=
  [tok TokenType.Number (show_int (Z.of_nat k)) 1;
   tok TokenType.Semicolon ";" 1].
Definition many_constants_tokens : list Token :=
  flat_map constant_statement (seq 0 256)
  ++ [tok TokenType.Print "print" 1; tok TokenType.Number "256" 1;
      tok TokenType.Semicolon ";" 1].
Definition many_constants_source : string :=
  String.concat "" (map (fun k => show_int (Z.of_nat k) +:+ "; ") (seq 0 256))
  +:+ "print 256;".

(** [print -true;] on line 1, then [1; 1; 1; 1; 1; 1; 1; 1;] on line 2. *)
Definition negate_source : string :=
  "print -true;" +:+ endl +:+ "1; 1; 1; 1; 1; 1; 1; 1;".
Definition one_statement : list Token :=
  [tok TokenType.Number "1" 2; tok TokenType.Semicolon ";" 2].
Definition negate_tokens : list Token :=
  [tok TokenType.Print "print" 1; tok TokenType.Minus "-" 1;
   tok TokenType.True "true" 1; tok TokenType.Semicolon ";" 1]
  ++ flat_map (fun _ => one_statement) (seq 0 8).

(** [print -true;] *)
Definition negate_short_source : string := "print -true;".
Definition negate_short_tokens : list Token :=
  [tok TokenType.Print "print" 1; tok TokenType.Minus "-" 1;
   tok TokenType.True "true" 1; tok TokenType.Semicolon ";" 1].

(** [var a = ;] *)
Definition no_initializer_source : string := "var a = ;".
Definition no_initializer_tokens : list Token :=
  [tok TokenType.Var "var" 1; tok TokenType.Identifier "a" 1;
   tok TokenType.Equal "=" 1; tok TokenType.Semicolon ";" 1].

(** A VM about to run the one instruction [op], with [below] and [above] as
    the two values on top of its stack. *)
Definition binary_chunk (op : OpCode.t) : Chunk :=
  mkChunk [OpCode.to_byte op; OpCode.to_byte OpCode.RETURN] [1; 1] [].
Definition binary_vm (op : OpCode.t) (below above : Value) : VM :=
  set_stackTop 2
    (set_stack (<[1%nat := above]> (<[0%nat := below]> (stack VM_new)))
       (set_mChunk (Some (binary_chunk op)) VM_new)).

(** The diagnostic of the compiler as the specification words it:
    "[line N] Error<loc>: <message>\n", where <loc> is " at end" at EOF, empty
    for error tokens, or " at '<lexeme>'" otherwise. *)
Definition diagnostic_as_specified (token : Token) (message : string)
    : string :=
  "[line " +:+ show_int (line token) +:+ "] Error"
  +:+ match type token with
      | TokenType.Eof => " at end"
      | TokenType.Error => ""
      | _ => " at '" +:+ text token +:+ "'"
      end
  +:+ ": " +:+ message +:+ endl.

(** A parser that has just read the [;] of [var a = ;]. *)
Definition semicolon_parser : Parser :=
  mkParser (tok TokenType.Semicolon ";" 1) (tok TokenType.Equal "=" 1)
           (mkScanner [] 1) false false.

(** The state in which the compiler leaves [var a = ;]. *)
Definition no_initializer_compiled : Compilation * ostream :=
  match compile stod_digits (scanned no_initializer_tokens 1) 100
          no_initializer_source Chunk_empty (Compilation_new, "") with
  | Returns _ st => st
  | _ => (Compilation_new, "")
  end.

Definition one : double := double_of_Z 1.
Definition two : double := double_of_Z 2.

(** ** Invariants and outcomes of the compiler and the VM *)

(** [m] keeps the relation [R] between the state it starts in and every
    state it can leave behind. *)
Definition preserves {S A} (R : S -> S -> Prop) (m : M S A) : Prop :=
  forall s,
    match m s with
    | Returns _ s' | Terminates s' | Throws s' => R s s'
    | Undefined | OutOfFuel => Logic.True
    end.

(** When [m] starts in a state with [P] and returns, [Q] holds of the value
    and the state it returns. *)
Definition hoare {S A} (P : S -> Prop) (m : M S A) (Q : A -> S -> Prop)
    : Prop :=
  forall s a s', P s -> m s = Returns a s' -> Q a s'.

(** What running bytecode leaves alone: the chunk, the compiler and the
    size of the stack array. *)
Definition VM_frame (vm vm' : VM) : Prop :=
  mChunk vm' = mChunk vm
  /\ cu vm' = cu vm
  /\ length (stack vm') = length (stack vm).

(** What running bytecode only ever adds to: the names of the globals and
    the two streams. *)
Definition VM_grows (vm vm' : VM) : Prop :=
  dom (globals vm) ⊆ dom (globals vm')
  /\ (exists written, cout vm' = cout vm ++ written)
  /\ (exists written, cerr vm' = cerr vm +:+ written).

Definition VM_kept (vm vm' : VM) : Prop := VM_frame vm vm' /\ VM_grows vm vm'.

(** A status other than [OK] comes with an empty stack. *)
Definition reset_unless_OK (next : option InterpretResult.t) (vm : VM)
    : Prop :=
  forall r, next = Some r -> r <> InterpretResult.OK -> stackTop vm = 0%nat.

(** The token the scanner yields after [rest]'s predecessors are gone. *)
Definition next_token (s : Scanner) (rest : list Token) : Token :=
  match rest with
  | t :: _ => t
  | [] => mkToken TokenType.Eof "" (atEnd s)
  end.

(** The parser and [std::cerr] after a run [errs] of [Error] tokens has
    been skipped: only the first of them is reported, and only outside
    panic mode. *)
Definition skipped (p : Parser) (err : ostream) (errs rest : list Token)
    : Parser * ostream :=
  (mkParser (next_token (scanner p) rest) (previous p)
     (mkScanner (tl rest) (atEnd (scanner p)))
     (match errs with
      | [] => hadError p
      | _ :: _ => hadError p || negb (panicMode p)
      end)
     (match errs with
      | [] => panicMode p
      | _ :: _ => true
      end),
   match errs with
   | [] => err
   | e :: _ =>
       if panicMode p then err
       else err +:+ "[line " +:+ show_int (line e) +:+ "] Error: "
            +:+ text e +:+ endl
   end).

(** A VM about to run [chunk] from its first byte, with [values] on its
    stack, the last of them on top. *)
Definition loaded (chunk : Chunk) (values : list Value) : VM :=
  set_stackTop (length values)
    (set_stack (values ++ replicate (STACK_MAX - length values) VNil)
       (set_mChunk (Some chunk) VM_new)).

(** [GET_GLOBAL 0; RETURN], the constant 0 being the name [x]. *)
Definition get_x_chunk : Chunk :=
  mkChunk [OpCode.to_byte OpCode.GET_GLOBAL; 0;
           OpCode.to_byte OpCode.RETURN]
          [1; 1; 1] [VString "x"].

(** [SET_GLOBAL 0; RETURN], the constant 0 being the name [x]. *)
Definition set_x_chunk : Chunk :=
  mkChunk [OpCode.to_byte OpCode.SET_GLOBAL; 0;
           OpCode.to_byte OpCode.RETURN]
          [1; 1; 1] [VString "x"].

(** [DEFINE_GLOBAL 0; GET_GLOBAL 0; RETURN], the constant 0 being the name
    [x]. *)
Definition define_get_x_chunk : Chunk :=
  mkChunk [OpCode.to_byte OpCode.DEFINE_GLOBAL; 0;
           OpCode.to_byte OpCode.GET_GLOBAL; 0;
           OpCode.to_byte OpCode.RETURN]
          [1; 1; 1; 1; 1] [VString "x"].

(** The diagnostics flags of a parser and what the process has written to
    [std::cerr]: from one state to a later one, [hadError] is never cleared,
    [std::cerr] is only appended to, and, as long as panic mode is only
    entered together with an error, [hadError] is newly set exactly when
    something has been written. *)
Definition reportedP (ps ps' : Parser * ostream) : Prop :=
  (panicMode (fst ps) = true -> hadError (fst ps) = true) ->
  (panicMode (fst ps') = true -> hadError (fst ps') = true)
  /\ (hadError (fst ps) = true -> hadError (fst ps') = true)
  /\ exists diagnostics,
       snd ps' = snd ps +:+ diagnostics
       /\ (hadError (fst ps) = false ->
           (hadError (fst ps') = false <-> diagnostics = "")).

(** [reportedP] for the parser a [Compilation] points to; without a parser
    nothing is reported. *)
Definition reported (s s' : Compilation * ostream) : Prop :=
  match parser (fst s) with
  | None => parser (fst s') = None /\ snd s' = snd s
  | Some p =>
      exists p', parser (fst s') = Some p'
                 /\ reportedP (p, snd s) (p', snd s')
  end.

(** The locals table is within its bounds. *)
Definition locals_in_bounds (cmp : Compiler) : Prop :=
  0 <= localCount cmp <= UINT8_COUNT
  /\ length (locals cmp) = Z.to_nat UINT8_COUNT.

Definition keeps_locals_in_bounds (s s' : Compilation * ostream) : Prop :=
  locals_in_bounds (compiler (fst s)) ->
  locals_in_bounds (compiler (fst s')).

(** The compiler's own state is the same in both states. *)
Definition same_compiler (s s' : Compilation * ostream) : Prop :=
  compiler (fst s') = compiler (fst s).

(** Where [synchronize] stops: at the end of the input, after a [;], or
    before a token that starts a statement. *)
Definition statement_boundary (p : Parser) : Prop :=
  type (current p) = TokenType.Eof
  \/ type (previous p) = TokenType.Semicolon
  \/ In (type (current p))
       [TokenType.Class; TokenType.Fun; TokenType.Var; TokenType.For;
        TokenType.If; TokenType.While; TokenType.Print; TokenType.Return].

(** A number lexeme of 401 digits, beyond the range of a double. *)
Definition huge_number : string :=
  String "1"%char (string_of_list_ascii (repeat "0"%char 400)).

(** A local that the scan of [declareVariable] does not stop at: it is not
    yet initialized, or not shallower than the scope of depth [sd]. *)
Definition in_scope (sd : Z) (local : Local) : Prop :=
  depth local = -1 \/ sd <= to_size_t (depth local).

(** A parser whose previous token is the identifier [a]. *)
Definition identifier_parser : Parser :=
  mkParser (tok TokenType.Equal "=" 1) (tok TokenType.Identifier "a" 1)
           (mkScanner [] 1) false false.

(** The locals [a] and [b] of depth 1 and a second [a] of depth 2, seen
    from the scope of depth 2. *)
Definition nested_locals : Compiler :=
  mkCompiler
    (<[2%nat := mkLocal "a" 2]>
       (<[1%nat := mkLocal "b" 1]>
          (<[0%nat := mkLocal "a" 1]> (locals Compiler_new))))
    3 2.

Definition nested_cu : Compilation :=
  mkCompilation (Some Chunk_empty) nested_locals (Some identifier_parser).

(** The local [a] of depth 1 and the local [b] of depth 2, seen from the
    scope of depth 2. *)
Definition shadow_locals : Compiler :=
  mkCompiler
    (<[1%nat := mkLocal "b" 2]>
       (<[0%nat := mkLocal "a" 1]> (locals Compiler_new)))
    2 2.

(** A parser whose previous token is the string literal [hi] in its
    quotes. *)
Definition quoted_parser : Parser :=
  mkParser (tok TokenType.Semicolon ";" 1)
           (tok TokenType.String
              (String "034"%char ("hi" +:+ String "034"%char "")) 1)
           (mkScanner [] 1) false false.

(** A parser whose previous token is the number [huge_number]. *)
Definition huge_parser : Parser :=
  mkParser (tok TokenType.Semicolon ";" 1)
           (tok TokenType.Number huge_number 1)
           (mkScanner [] 1) false false.

(** A parser whose scanner has an [Error] token and a [;] to come. *)
Definition error_parser : Parser :=
  mkParser (tok TokenType.Print "print" 1) Token_default
           (mkScanner [tok TokenType.Error "Unexpected character." 1;
                       tok TokenType.Semicolon ";" 1] 1)
           false false.

(** A parser whose previous token is the literal [true]. *)
Definition true_parser : Parser :=
  mkParser (tok TokenType.Semicolon ";" 1) (tok TokenType.True "true" 1)
           (mkScanner [] 1) false false.

(** * Properties *)

(** ** Running the monadic code *)

Lemma bind_Returns {S A B} (m : M S A) (k : A -> M S B) s a s' :
  m s = Returns a s' -> bind m k s = k a s'.
Proof. intros H. unfold bind. now rewrite H. Qed.

(** ** The stack and the instruction stream *)

Lemma readByte_Returns vm chunk byte :
  mChunk vm = Some chunk ->
  code chunk !! pos vm = Some byte ->
  readByte vm = Returns byte (set_pos (S (pos vm)) vm).
Proof.
  intros Hc Hb. cbv [readByte noexcept bind the_chunk get modify ret].
  rewrite Hc. cbn [pos set_pos mChunk]. rewrite Hb. reflexivity.
Qed.

Lemma peek_Returns vm offset value :
  (offset < stackTop vm)%nat ->
  stack vm !! (stackTop vm - 1 - offset)%nat = Some value ->
  peek offset vm = Returns value vm.
Proof.
  intros Hlt Hv. cbv [peek bind get ret].
  apply Nat.ltb_lt in Hlt. rewrite Hlt, Hv. reflexivity.
Qed.

Lemma pop_Returns vm top value :
  stackTop vm = S top ->
  stack vm !! top = Some value ->
  pop vm = Returns value (set_stackTop top vm).
Proof.
  intros Ht Hv. cbv [pop noexcept bind get modify ret].
  rewrite Ht, Hv. reflexivity.
Qed.

Lemma push_Returns vm value :
  (stackTop vm < STACK_MAX)%nat ->
  push value vm =
    Returns tt (set_stackTop (S (stackTop vm))
                  (set_stack (<[stackTop vm := value]> (stack vm)) vm)).
Proof.
  intros Hlt. cbv [push noexcept bind get modify].
  apply Nat.ltb_lt in Hlt. rewrite Hlt. reflexivity.
Qed.

(** What every successful binary instruction does to the stack. *)
Lemma pop_pop_push vm top below above result :
  stackTop vm = S (S top) ->
  stack vm !! top = Some below ->
  stack vm !! S top = Some above ->
  length (stack vm) = STACK_MAX ->
  (pop ;; pop ;; push result ;; ret (@None InterpretResult.t)) vm
  = Returns None
      (set_stackTop (S top)
         (set_stack (<[top := result]> (stack vm))
            (set_stackTop top (set_stackTop (S top) vm)))).
Proof.
  intros Ht Hb Ha Hlen.
  assert (top < STACK_MAX)%nat.
  { apply lookup_lt_Some in Hb. lia. }
  erewrite bind_Returns by (eapply pop_Returns; eauto).
  erewrite bind_Returns by (eapply pop_Returns; cbn; eauto).
  erewrite bind_Returns by (eapply push_Returns; cbn; eauto).
  reflexivity.
Qed.

(** ** Runtime errors *)

Lemma append_assoc (a b c : string) : (a +:+ b) +:+ c = a +:+ (b +:+ c).
Proof.
  induction a as [|ch a IH]; [reflexivity|].
  change (String ch ((a +:+ b) +:+ c) = String ch (a +:+ (b +:+ c))).
  now rewrite IH.
Qed.

(** What [runTimeError] does once the message is out. *)
Lemma runTimeError_unfold args vm chunk :
  mChunk vm = Some chunk ->
  let said := set_cerr (cerr vm +:+ String.concat "" args +:+ endl) vm in
  runTimeError args vm =
    match pos vm with
    | O => Throws said
    | S before =>
        match code chunk !! before with
        | None => Throws said
        | Some instruction =>
            match lines chunk !! Z.to_nat instruction with
            | None => Throws said
            | Some line =>
                Returns tt
                  (set_stackTop 0
                     (set_cerr (cerr said +:+ "[line " +:+ show_int line
                                +:+ "] in script" +:+ endl) said))
            end
        end
    end.
Proof.
  intros Hc said. subst said.
  destruct vm as [mc ps st tp c g o e]. cbn [mChunk] in Hc. subst mc.
  cbv [runTimeError VM_cerr_write bind modify the_chunk get ret throw
       resetStack noexcept set_cerr set_stackTop
       mChunk pos stack stackTop cu globals cout cerr].
  rewrite <- append_assoc.
  destruct ps as [|before]; [reflexivity|].
  destruct (code chunk !! before) as [instruction|]; [|reflexivity].
  destruct (lines chunk !! Z.to_nat instruction) as [line|]; reflexivity.
Qed.

(** Every call of [runTimeError] on an installed chunk raises the error in
    the sense of [raised]. *)
Lemma runTimeError_raised msg result vm chunk :
  mChunk vm = Some chunk ->
  raised msg result vm
    ((runTimeError [msg] ;; ret (Some result)) vm).
Proof.
  intros Hc. unfold bind. rewrite (runTimeError_unfold _ _ _ Hc).
  assert (Hmsg : String.concat "" [msg] = msg) by reflexivity.
  rewrite Hmsg.
  destruct (pos vm) as [|before].
  { right. eexists. repeat split. }
  destruct (code chunk !! before) as [instruction|].
  2: { right. eexists. repeat split. }
  destruct (lines chunk !! Z.to_nat instruction) as [ln|].
  2: { right. eexists. repeat split. }
  left. exists ln. eexists. split; [reflexivity|]. split; [|reflexivity].
  cbn [cerr set_cerr set_stackTop]. now rewrite !append_assoc.
Qed.

(** C5: [print -true;] on line 1, followed by eight statements on line 2:
    the error is raised by the byte at index 1, which is on line 1, and
    the VM reports line 2, the entry of the line table at index 17 (the
    opcode [NEGATE]).  With [print -true;] alone the table has no entry 17:
    no line is reported and no status returned. *)
Theorem C5_line_looked_up_by_opcode :
  (exists vm chunk,
     interpret stod_digits (scanned negate_tokens 2) 100 negate_source VM_new
     = Returns InterpretResult.RUNTIME_ERROR vm
     /\ cerr vm = "Operand must be a number." +:+ endl
                  +:+ "[line 2] in script" +:+ endl
     /\ mChunk vm = Some chunk
     /\ lines chunk !! (pos vm - 1)%nat = Some 1
     /\ code chunk !! (pos vm - 1)%nat = Some (OpCode.to_byte OpCode.NEGATE)
     /\ lines chunk !! Z.to_nat (OpCode.to_byte OpCode.NEGATE) = Some 2)
  /\ (exists vm,
        interpret stod_digits (scanned negate_short_tokens 1) 100
          negate_short_source VM_new = Throws vm
        /\ cerr vm = "Operand must be a number." +:+ endl).
Proof.
  split.
  - eexists; eexists; (split; [vm_compute; reflexivity|]).
    repeat split.
  - eexists; (split; [vm_compute; reflexivity|]); reflexivity.
Qed.

(** ** The dispatch loop *)

(** A turn of the loop fetches one byte and runs the [switch] on it. *)
Lemma step_fetch vm chunk byte :
  mChunk vm = Some chunk ->
  code chunk !! pos vm = Some byte ->
  step vm = execute (OpCode.of_byte byte) (set_pos (S (pos vm)) vm).
Proof.
  intros Hc Hb. unfold step.
  erewrite bind_Returns by (eapply readByte_Returns; eauto).
  reflexivity.
Qed.

(** The [switch] of [VM::run] skips [GET_LOCAL] and [SET_LOCAL]: the stack
    stays as it is, and the operand byte is the next to be fetched. *)
Lemma step_local_skipped vm chunk op :
  mChunk vm = Some chunk ->
  op = OpCode.GET_LOCAL \/ op = OpCode.SET_LOCAL ->
  code chunk !! pos vm = Some (OpCode.to_byte op) ->
  step vm = Returns None (set_pos (S (pos vm)) vm).
Proof.
  intros Hc Hop Hb. rewrite (step_fetch _ _ _ Hc Hb).
  destruct Hop; subst op; reflexivity.
Qed.

(** C1: on [{ var a = 1; print a; }] the compiler emits [GET_LOCAL 0] for
    the use of [a], and the VM, which has no case for [GET_LOCAL], skips the
    opcode, decodes the slot byte as [CONSTANT] and ends in
    [std::terminate] with nothing printed. *)
Theorem C1_get_local_not_executed :
  (exists st,
     compile stod_digits (scanned local_tokens 1) 100 local_source
       Chunk_empty (Compilation_new, "") = Returns true st
     /\ (code <$> compilingChunk (fst st))
        = Some [OpCode.to_byte OpCode.CONSTANT; 0;
                OpCode.to_byte OpCode.GET_LOCAL; 0;
                OpCode.to_byte OpCode.PRINT;
                OpCode.to_byte OpCode.POP;
                OpCode.to_byte OpCode.RETURN])
  /\ (exists vm,
        interpret stod_digits (scanned local_tokens 1) 100 local_source VM_new
        = Terminates vm
        /\ cout vm = []
        /\ pos vm = 5%nat).
Proof.
  split; eexists; (split; [vm_compute; reflexivity|]); repeat split.
Qed.

(** [NOT] replaces the top of the stack by [isFalsey] of it. *)
Lemma step_not vm chunk top value :
  mChunk vm = Some chunk ->
  code chunk !! pos vm = Some (OpCode.to_byte OpCode.NOT) ->
  stackTop vm = S top ->
  stack vm !! top = Some value ->
  length (stack vm) = STACK_MAX ->
  step vm =
    Returns None
      (set_stackTop (S top)
         (set_stack (<[top := VBool (isFalsey value)]> (stack vm))
            (set_stackTop top (set_pos (S (pos vm)) vm)))).
Proof.
  intros Hc Hb Ht Hv Hlen. rewrite (step_fetch _ _ _ Hc Hb).
  change (OpCode.of_byte (OpCode.to_byte OpCode.NOT)) with (Some OpCode.NOT).
  cbn [execute].
  assert (top < STACK_MAX)%nat by (apply lookup_lt_Some in Hv; lia).
  erewrite bind_Returns by (eapply pop_Returns; cbn; eauto).
  erewrite bind_Returns by (eapply push_Returns; cbn; eauto).
  reflexivity.
Qed.

(** C2: [print !0;] prints [true]: [isFalsey] answers [true] for every
    number and every string, so [NOT] pushes [true] for them. *)
Theorem C2_not_number_pushes_true :
  (exists vm,
     interpret stod_digits (scanned not_zero_tokens 1) 100 not_zero_source
       VM_new = Returns InterpretResult.OK vm
     /\ cout vm = [VBool true])
  /\ (forall d, isFalsey (VNumber d) = true)
  /\ (forall s, isFalsey (VString s) = true).
Proof.
  split; [|split; reflexivity].
  eexists; (split; [vm_compute; reflexivity|]); reflexivity.
Qed.

(** ** Binary instructions *)

(** [BINARY_OP] on two numbers: [right] on top of the stack, [left] below
    it. *)
Lemma BINARY_OP_numbers f vm top left right :
  stackTop vm = S (S top) ->
  stack vm !! top = Some (VNumber left) ->
  stack vm !! S top = Some (VNumber right) ->
  length (stack vm) = STACK_MAX ->
  BINARY_OP f vm =
    Returns None
      (set_stackTop (S top)
         (set_stack (<[top := f left right]> (stack vm))
            (set_stackTop top (set_stackTop (S top) vm)))).
Proof.
  intros Ht Hl Hr Hlen.
  assert (top < STACK_MAX)%nat by (apply lookup_lt_Some in Hl; lia).
  unfold BINARY_OP, binaryOp.
  erewrite bind_Returns.
  2: { erewrite bind_Returns
         by (eapply peek_Returns; rewrite Ht; [lia|];
             replace (S (S top) - 1 - 0)%nat with (S top) by lia; eauto).
       cbn beta iota.
       erewrite bind_Returns
         by (eapply peek_Returns; rewrite Ht; [lia|];
             replace (S (S top) - 1 - 1)%nat with top by lia; eauto).
       cbn beta iota.
       erewrite bind_Returns by (eapply pop_Returns; eauto).
       erewrite bind_Returns by (eapply pop_Returns; cbn; eauto).
       erewrite bind_Returns by (eapply push_Returns; cbn; eauto).
       reflexivity. }
  reflexivity.
Qed.

(** [BINARY_OP] when the two values on top of the stack are not both
    numbers. *)
Lemma BINARY_OP_not_numbers f vm chunk top below above :
  mChunk vm = Some chunk ->
  stackTop vm = S (S top) ->
  stack vm !! top = Some below ->
  stack vm !! S top = Some above ->
  (forall a b, (below, above) <> (VNumber a, VNumber b)) ->
  BINARY_OP f vm =
    (runTimeError ["Operands must be numbers."] ;;
     ret (Some InterpretResult.COMPILE_ERROR)) vm.
Proof.
  intros Hc Ht Hl Hr Hne.
  unfold BINARY_OP, binaryOp.
  assert (Hp0 : peek 0 vm = Returns above vm).
  { eapply peek_Returns; rewrite Ht; [lia|].
    replace (S (S top) - 1 - 0)%nat with (S top) by lia. eauto. }
  assert (Hp1 : peek 1 vm = Returns below vm).
  { eapply peek_Returns; rewrite Ht; [lia|].
    replace (S (S top) - 1 - 1)%nat with top by lia. eauto. }
  unfold bind at 1 2. rewrite Hp0.
  destruct above as [|b|a|s].
  1,2,4: unfold bind at 1 2;
    destruct (runTimeError ["Operands must be numbers."] vm); reflexivity.
  unfold bind at 1. rewrite Hp1.
  destruct below as [|b'|b'|s'].
  3: { exfalso. eapply Hne. reflexivity. }
  all: unfold bind at 1 2;
    destruct (runTimeError ["Operands must be numbers."] vm); reflexivity.
Qed.

(** On a type error, [SUBTRACT], [MULTIPLY], [DIVIDE], [GREATER] and [LESS]
    raise "Operands must be numbers." and return [COMPILE_ERROR]. *)
Lemma step_binary_type_error vm chunk op top below above :
  mChunk vm = Some chunk ->
  In op [OpCode.SUBTRACT; OpCode.MULTIPLY; OpCode.DIVIDE;
         OpCode.GREATER; OpCode.LESS] ->
  code chunk !! pos vm = Some (OpCode.to_byte op) ->
  stackTop vm = S (S top) ->
  stack vm !! top = Some below ->
  stack vm !! S top = Some above ->
  (forall a b, (below, above) <> (VNumber a, VNumber b)) ->
  raised "Operands must be numbers." InterpretResult.COMPILE_ERROR
    (set_pos (S (pos vm)) vm) (step vm).
Proof.
  intros Hc Hop Hb Ht Hl Hr Hne.
  rewrite (step_fetch _ _ _ Hc Hb).
  assert (Hex : exists f,
    execute (OpCode.of_byte (OpCode.to_byte op)) = BINARY_OP f).
  { cbn in Hop.
    destruct Hop as [<-|[<-|[<-|[<-|[<-|[]]]]]]; eexists; reflexivity. }
  destruct Hex as [f ->].
  erewrite BINARY_OP_not_numbers; cbn; eauto.
  now apply runTimeError_raised with (chunk := chunk).
Qed.

(** C3: [print 1 - true; print 1; print 1; print 1;] ends with the status
    [COMPILE_ERROR], after the runtime error message. *)
Theorem C3_binary_op_returns_compile_error :
  exists vm,
    interpret stod_digits (scanned subtract_tokens 1) 100 subtract_source
      VM_new = Returns InterpretResult.COMPILE_ERROR vm
    /\ cerr vm = "Operands must be numbers." +:+ endl
                 +:+ "[line 1] in script" +:+ endl
    /\ stackTop vm = 0%nat.
Proof.
  eexists; (split; [vm_compute; reflexivity|]); split; reflexivity.
Qed.

(** C6: [ADD] on two numbers pops both and pushes their sum, the binary64
    sum [SFadd] of the Standard Library; on two strings it pops both and
    pushes the concatenation, the deeper operand first; on anything else it
    raises the runtime error "Operands must be two numbers or two strings."
    with both operands still on the stack. *)
Theorem C6_add vm chunk top left right :
  mChunk vm = Some chunk ->
  code chunk !! pos vm = Some (OpCode.to_byte OpCode.ADD) ->
  stackTop vm = S (S top) ->
  stack vm !! top = Some left ->
  stack vm !! S top = Some right ->
  length (stack vm) = STACK_MAX ->
  let fetched := set_pos (S (pos vm)) vm in
  let pushed result :=
    Returns None
      (set_stackTop (S top)
         (set_stack (<[top := result]> (stack vm))
            (set_stackTop top (set_stackTop (S top) fetched)))) in
  match left, right with
  | VNumber d1, VNumber d2 =>
      step vm = pushed (VNumber (SFadd double_prec double_emax d1 d2))
  | VString s1, VString s2 => step vm = pushed (VString (s1 +:+ s2))
  | _, _ =>
      step vm =
        (runTimeError ["Operands must be two numbers or two strings."] ;;
         ret (Some InterpretResult.RUNTIME_ERROR)) fetched
      /\ raised "Operands must be two numbers or two strings."
           InterpretResult.RUNTIME_ERROR fetched (step vm)
  end.
Proof.
  intros Hc Hb Ht Hl Hr Hlen fetched pushed.
  rewrite (step_fetch _ _ _ Hc Hb). fold fetched.
  change (OpCode.of_byte (OpCode.to_byte OpCode.ADD)) with (Some OpCode.ADD).
  cbn [execute].
  assert (Hp1 : peek 1 fetched = Returns left fetched).
  { eapply peek_Returns; cbn; rewrite Ht; [lia|].
    replace (S (S top) - 1 - 1)%nat with top by lia. exact Hl. }
  assert (Hp0 : peek 0 fetched = Returns right fetched).
  { eapply peek_Returns; cbn; rewrite Ht; [lia|].
    replace (S (S top) - 1 - 0)%nat with (S top) by lia. exact Hr. }
  rewrite (bind_Returns _ _ _ _ _ Hp1), (bind_Returns _ _ _ _ _ Hp0).
  assert (Hpp : forall result,
    (pop ;; pop ;; push result ;; ret (@None InterpretResult.t)) fetched
    = pushed result).
  { intros result.
    exact (pop_pop_push fetched top left right result Ht Hl Hr Hlen). }
  assert (Herr :
    raised "Operands must be two numbers or two strings."
      InterpretResult.RUNTIME_ERROR fetched
      ((runTimeError ["Operands must be two numbers or two strings."] ;;
        ret (Some InterpretResult.RUNTIME_ERROR)) fetched)).
  { eapply runTimeError_raised. exact Hc. }
  destruct left, right; try (split; [reflexivity | exact Herr]); apply Hpp.
Qed.

(** C6 on [1 + 2], which pushes the double 3, and on the strings [ab] and
    [cd]. *)
Lemma C6_add_witness :
  step (binary_vm OpCode.ADD (VNumber one) (VNumber two))
  = Returns None
      (set_stackTop 1
         (set_stack
            (<[0%nat := VNumber (S754_finite false 6755399441055744 (-51))]>
               (stack (binary_vm OpCode.ADD (VNumber one) (VNumber two))))
            (set_stackTop 0
               (set_stackTop 1
                  (set_pos 1
                     (binary_vm OpCode.ADD (VNumber one) (VNumber two)))))))
  /\ step (binary_vm OpCode.ADD (VString "ab") (VString "cd"))
     = Returns None
         (set_stackTop 1
            (set_stack
               (<[0%nat := VString "abcd"]>
                  (stack (binary_vm OpCode.ADD (VString "ab") (VString "cd"))))
               (set_stackTop 0
                  (set_stackTop 1
                     (set_pos 1
                        (binary_vm OpCode.ADD (VString "ab")
                           (VString "cd"))))))).
Proof.
  split.
  - exact (C6_add (binary_vm OpCode.ADD (VNumber one) (VNumber two))
             (binary_chunk OpCode.ADD) 0 (VNumber one) (VNumber two)
             eq_refl eq_refl eq_refl eq_refl eq_refl eq_refl).
  - exact (C6_add (binary_vm OpCode.ADD (VString "ab") (VString "cd"))
             (binary_chunk OpCode.ADD) 0 (VString "ab") (VString "cd")
             eq_refl eq_refl eq_refl eq_refl eq_refl eq_refl).
Defined.

(** C8: [EQUAL] pops both operands and pushes a [Bool], without writing to
    [std::cerr] and without ending the loop; the [Bool] is false for values of
    different cases, and the equality of the payloads for values of one
    case. *)
Theorem C8_equal vm chunk top a b :
  mChunk vm = Some chunk ->
  code chunk !! pos vm = Some (OpCode.to_byte OpCode.EQUAL) ->
  stackTop vm = S (S top) ->
  stack vm !! S top = Some a ->
  stack vm !! top = Some b ->
  length (stack vm) = STACK_MAX ->
  (exists r : bool,
     step vm =
       Returns None
         (set_stackTop (S top)
            (set_stack (<[top := VBool r]> (stack vm))
               (set_stackTop top
                  (set_stackTop (S top) (set_pos (S (pos vm)) vm)))))
     /\ r = Value_eq a b
     /\ (Value_index a <> Value_index b -> r = false)
     /\ match a, b with
        | VNil, VNil => r = true
        | VBool x, VBool y => r = Bool.eqb x y
        | VNumber x, VNumber y => r = SFeqb x y
        | VString x, VString y => r = true <-> x = y
        | _, _ => r = false
        end).
Proof.
  intros Hc Hb Ht Ha Hbl Hlen.
  exists (Value_eq a b).
  rewrite (step_fetch _ _ _ Hc Hb).
  change (OpCode.of_byte (OpCode.to_byte OpCode.EQUAL))
    with (Some OpCode.EQUAL).
  cbn [execute].
  assert (top < STACK_MAX)%nat by (apply lookup_lt_Some in Hbl; lia).
  split.
  { erewrite bind_Returns by (eapply pop_Returns; cbn; eauto).
    erewrite bind_Returns by (eapply pop_Returns; cbn; eauto).
    erewrite bind_Returns by (eapply push_Returns; cbn; eauto).
    reflexivity. }
  split; [reflexivity|]. split.
  - destruct a, b; cbn; intros Hne; try reflexivity; now elim Hne.
  - destruct a, b; cbn; try reflexivity. apply String.eqb_eq.
Qed.

(** C8 on the number 1 and the string [1]. *)
Lemma C8_equal_witness :
  exists r : bool,
    step (binary_vm OpCode.EQUAL (VNumber one) (VString "1"))
    = Returns None
        (set_stackTop 1
           (set_stack
              (<[0%nat := VBool r]>
                 (stack (binary_vm OpCode.EQUAL (VNumber one) (VString "1"))))
              (set_stackTop 0
                 (set_stackTop 1
                    (set_pos 1
                       (binary_vm OpCode.EQUAL (VNumber one)
                          (VString "1")))))))
    /\ r = false.
Proof.
  destruct (C8_equal (binary_vm OpCode.EQUAL (VNumber one) (VString "1"))
              (binary_chunk OpCode.EQUAL) 0 (VString "1") (VNumber one)
              eq_refl eq_refl eq_refl eq_refl eq_refl eq_refl)
    as [r [Hstep [_ [_ Hr]]]].
  exists r. split; [exact Hstep | exact Hr].
Defined.

(** C9: on two numbers, [left] pushed before [right], [SUBTRACT] pushes
    [left - right], [DIVIDE] [left / right], [GREATER] [left > right] and
    [LESS] [left < right]. *)
Theorem C9_operand_order vm chunk top left right :
  mChunk vm = Some chunk ->
  stackTop vm = S (S top) ->
  stack vm !! top = Some (VNumber left) ->
  stack vm !! S top = Some (VNumber right) ->
  length (stack vm) = STACK_MAX ->
  let pushed result :=
    Returns None
      (set_stackTop (S top)
         (set_stack (<[top := result]> (stack vm))
            (set_stackTop top
               (set_stackTop (S top) (set_pos (S (pos vm)) vm))))) in
  (code chunk !! pos vm = Some (OpCode.to_byte OpCode.SUBTRACT) ->
   step vm = pushed (VNumber (SFsub double_prec double_emax left right)))
  /\ (code chunk !! pos vm = Some (OpCode.to_byte OpCode.DIVIDE) ->
      step vm = pushed (VNumber (SFdiv double_prec double_emax left right)))
  /\ (code chunk !! pos vm = Some (OpCode.to_byte OpCode.GREATER) ->
      step vm = pushed (VBool (SFltb right left)))
  /\ (code chunk !! pos vm = Some (OpCode.to_byte OpCode.LESS) ->
      step vm = pushed (VBool (SFltb left right))).
Proof.
  intros Hc Ht Hl Hr Hlen pushed.
  repeat split; intros Hb; rewrite (step_fetch _ _ _ Hc Hb);
    match goal with
    | |- context [OpCode.of_byte (OpCode.to_byte ?op)] =>
        change (OpCode.of_byte (OpCode.to_byte op)) with (Some op)
    end;
    cbn [execute];
    erewrite BINARY_OP_numbers by (cbn; eauto); reflexivity.
Qed.

(** C9 on [2 - 1]. *)
Lemma C9_operand_order_witness :
  step (binary_vm OpCode.SUBTRACT (VNumber two) (VNumber one))
  = Returns None
      (set_stackTop 1
         (set_stack
            (<[0%nat := VNumber one]>
               (stack (binary_vm OpCode.SUBTRACT (VNumber two) (VNumber one))))
            (set_stackTop 0
               (set_stackTop 1
                  (set_pos 1
                     (binary_vm OpCode.SUBTRACT (VNumber two)
                        (VNumber one))))))).
Proof.
  exact (proj1 (C9_operand_order
                  (binary_vm OpCode.SUBTRACT (VNumber two) (VNumber one))
                  (binary_chunk OpCode.SUBTRACT) 0 two one
                  eq_refl eq_refl eq_refl eq_refl eq_refl) eq_refl).
Defined.

(** ** The constant pool *)

(** [makeConstant] never reports an error: the index is cut to a byte
    before it is compared with [UINT8_MAX]. *)
Lemma makeConstant_no_error value cu chunk err :
  compilingChunk cu = Some chunk ->
  makeConstant value (cu, err) =
    Returns (Z.of_nat (length (constants chunk)) mod 256)
      (set_compilingChunk
         (Some (mkChunk (code chunk) (lines chunk)
                  (constants chunk ++ [value]))) cu, err).
Proof.
  intros Hc.
  cbv [makeConstant noexcept bind currentChunk get ret Chunk_addConstant
       set_currentChunk modify fst snd].
  rewrite Hc.
  assert (Hle : (to_uint8 (Z.of_nat (length (constants chunk)))
                 >? UINT8_MAX) = false).
  { unfold to_uint8, UINT8_MAX.
    pose proof (Z.mod_pos_bound (Z.of_nat (length (constants chunk))) 256).
    rewrite Z.gtb_ltb. apply Z.ltb_ge. lia. }
  rewrite Hle. reflexivity.
Qed.

(** C4: a program with 257 numeric constants compiles without any
    diagnostic; the 257th constant gets the index 0, so that
    [print 256;] prints the first constant. *)
Theorem C4_too_many_constants_not_reported :
  (exists st chunk,
     compile stod_digits (scanned many_constants_tokens 1) 1000
       many_constants_source Chunk_empty (Compilation_new, "")
     = Returns true st
     /\ snd st = ""
     /\ compilingChunk (fst st) = Some chunk
     /\ length (constants chunk) = 257%nat)
  /\ (exists vm,
        interpret stod_digits (scanned many_constants_tokens 1) 1000
          many_constants_source VM_new = Returns InterpretResult.OK vm
        /\ cout vm = [VNumber (double_of_Z 0)]
        /\ cerr vm = "").
Proof.
  split.
  - eexists; eexists; (split; [vm_compute; reflexivity|]); repeat split.
  - eexists; (split; [vm_compute; reflexivity|]); repeat split.
Qed.

(** ** Compile diagnostics *)

(** While [panicMode] is set, [errorAt] does nothing. *)
Lemma errorAt_suppressed p err token message :
  panicMode p = true ->
  errorAt token message (p, err) = Returns tt (p, err).
Proof.
  intros Hp. cbv [errorAt noexcept bind get ret fst]. now rewrite Hp.
Qed.

(** C7 (as amended): outside panic mode, [errorAt] writes
    [[line N] Error<loc>: <message>] and a newline to [std::cerr], where
    [<loc>] is [ at end] for an [Eof] token, empty for an [Error] token, and
    [ at <lexeme>], the lexeme as it is, for any other token; it sets
    [panicMode] and [hadError]. *)
Theorem C7_errorAt_format p err token message :
  panicMode p = false ->
  errorAt token message (p, err) =
    Returns tt
      (set_hadError true (set_panicMode true p),
       err +:+ "[line " +:+ show_int (line token) +:+ "] Error"
       +:+ match type token with
           | TokenType.Eof => " at end"
           | TokenType.Error => ""
           | _ => " at " +:+ text token
           end
       +:+ ": " +:+ message +:+ endl).
Proof.
  intros Hp.
  cbv [errorAt noexcept bind get ret modify cerr_write fst snd].
  rewrite Hp.
  destruct (type token);
    repeat match goal with
      | |- context [TokenType.eqb ?a ?b] =>
          let r := eval vm_compute in (TokenType.eqb a b) in
          change (TokenType.eqb a b) with r
      end;
    cbv beta iota; rewrite !append_assoc; reflexivity.
Qed.

(** C7 (as amended) on the [;] of [var a = ;]. *)
Lemma C7_errorAt_format_witness :
  errorAt (tok TokenType.Semicolon ";" 1) "Expected expression."
    (semicolon_parser, "")
  = Returns tt
      (set_hadError true (set_panicMode true semicolon_parser),
       "[line 1] Error at ;: Expected expression." +:+ endl).
Proof.
  exact (C7_errorAt_format semicolon_parser ""
           (tok TokenType.Semicolon ";" 1) "Expected expression." eq_refl).
Defined.

(** C7, the claim as it stands, fails: the [;] of [var a = ;] is reported as
    [ at ;], without quotes. *)
Lemma C7_lexeme_not_quoted :
  exists st,
    errorAt (tok TokenType.Semicolon ";" 1) "Expected expression."
      (semicolon_parser, "") = Returns tt st
    /\ snd st = "[line 1] Error at ;: Expected expression." +:+ endl
    /\ snd st <> diagnostic_as_specified (tok TokenType.Semicolon ";" 1)
                   "Expected expression.".
Proof.
  eexists. split; [vm_compute; reflexivity|]. split; [reflexivity|].
  vm_compute. discriminate.
Qed.

(** ** Interpreting a source text *)

(** Whatever the compiler does, it leaves the VM's own members and
    [std::cout] alone. *)
Lemma on_cu_frame {A} (m : C A) vm :
  match on_cu m vm with
  | Returns _ vm' | Terminates vm' | Throws vm' =>
      globals vm' = globals vm /\ cout vm' = cout vm
      /\ mChunk vm' = mChunk vm /\ pos vm' = pos vm
      /\ stack vm' = stack vm /\ stackTop vm' = stackTop vm
  | Undefined | OutOfFuel => Logic.True
  end.
Proof.
  unfold on_cu, zoom. destruct (m (cu vm, cerr vm)); cbn; auto 10.
Qed.

(** C10: when compilation fails, [interpret] returns [COMPILE_ERROR] and
    runs no bytecode: the globals, [std::cout], the stack, the position and
    the chunk of the VM are as before the call. *)
Theorem C10_compile_error_runs_nothing stod Scanner_new fuel code vm st :
  compile stod Scanner_new fuel code Chunk_empty (cu vm, cerr vm)
    = Returns false st ->
  exists vm',
    interpret stod Scanner_new fuel code vm
      = Returns InterpretResult.COMPILE_ERROR vm'
    /\ globals vm' = globals vm
    /\ cout vm' = cout vm
    /\ mChunk vm' = mChunk vm
    /\ pos vm' = pos vm
    /\ stack vm' = stack vm
    /\ stackTop vm' = stackTop vm
    /\ cu vm' = fst st
    /\ cerr vm' = snd st.
Proof.
  intros Hfail.
  exists (set_cerr (snd st) (set_cu (fst st) vm)).
  split; [|repeat split].
  unfold interpret. erewrite bind_Returns.
  2: { unfold on_cu, zoom. rewrite Hfail. reflexivity. }
  reflexivity.
Qed.

(** C10 on [var a = ;], whose compilation fails with one diagnostic. *)
Lemma C10_compile_error_runs_nothing_witness :
  snd no_initializer_compiled
    = "[line 1] Error at ;: Expected expression." +:+ endl
  /\ exists vm',
    interpret stod_digits (scanned no_initializer_tokens 1) 100
      no_initializer_source VM_new
      = Returns InterpretResult.COMPILE_ERROR vm'
    /\ globals vm' = globals VM_new
    /\ cout vm' = cout VM_new
    /\ mChunk vm' = mChunk VM_new
    /\ pos vm' = pos VM_new
    /\ stack vm' = stack VM_new
    /\ stackTop vm' = stackTop VM_new
    /\ cu vm' = fst no_initializer_compiled
    /\ cerr vm' = snd no_initializer_compiled.
Proof.
  split; [vm_compute; reflexivity|].
  apply (C10_compile_error_runs_nothing stod_digits
           (scanned no_initializer_tokens 1) 100 no_initializer_source
           VM_new no_initializer_compiled).
  vm_compute. reflexivity.
Defined.

(** * Invariants and further properties *)

(** ** Reasoning about outcomes *)

Section Preserves.
Context {S : Type} (R : S -> S -> Prop) `{!PreOrder R}.

Lemma preserves_ret {A} (a : A) : preserves R (ret a).
Proof. intros s. cbn. reflexivity. Qed.

Lemma preserves_get : preserves R get.
Proof. intros s. cbn. reflexivity. Qed.

Lemma preserves_throw {A} : preserves R (@throw S A).
Proof. intros s. cbn. reflexivity. Qed.

Lemma preserves_undefined {A} : preserves R (@undefined S A).
Proof. intros s. exact I. Qed.

Lemma preserves_out_of_fuel {A} : preserves R (fun _ => @OutOfFuel S A).
Proof. intros s. exact I. Qed.

Lemma preserves_modify (f : S -> S) :
  (forall s, R s (f s)) -> preserves R (modify f).
Proof. intros H s. cbn. apply H. Qed.

Lemma preserves_bind {A B} (m : M S A) (k : A -> M S B) :
  preserves R m -> (forall a, preserves R (k a)) -> preserves R (bind m k).
Proof.
  intros Hm Hk s. unfold bind. specialize (Hm s).
  destruct (m s) as [a s'| | | |]; try exact Hm.
  specialize (Hk a s').
  destruct (k a s'); try exact I; etrans; eauto.
Qed.

Lemma preserves_noexcept {A} (m : M S A) :
  preserves R m -> preserves R (noexcept m).
Proof.
  intros Hm s. unfold noexcept. specialize (Hm s).
  destruct (m s); exact Hm.
Qed.
End Preserves.

Lemma preserves_zoom {S T A} (R : S -> S -> Prop) (R' : T -> T -> Prop)
  (getp : T -> option S) (setp : S -> T -> T) (m : M S A) :
  (forall t s s', getp t = Some s -> R s s' -> R' t (setp s' t)) ->
  preserves R m -> preserves R' (zoom getp setp m).
Proof.
  intros Hz Hm t. unfold zoom. destruct (getp t) as [s|] eqn:E; [|exact I].
  specialize (Hm s). destruct (m s); try exact I; eapply Hz; eauto.
Qed.

Lemma hoare_bind {S A B} (P : S -> Prop) (Q1 : A -> S -> Prop)
  (Q2 : B -> S -> Prop) (m : M S A) (k : A -> M S B) :
  hoare P m Q1 -> (forall a, hoare (Q1 a) (k a) Q2) -> hoare P (bind m k) Q2.
Proof.
  intros Hm Hk s b s' HP. unfold bind.
  destruct (m s) as [a s1| | | |] eqn:E; try discriminate.
  intros Hr. eapply Hk; [|exact Hr]. eapply Hm; eauto.
Qed.

Lemma hoare_weaken {S A} (P P' : S -> Prop) (Q Q' : A -> S -> Prop)
  (m : M S A) :
  hoare P' m Q' -> (forall s, P s -> P' s) ->
  (forall a s, Q' a s -> Q a s) -> hoare P m Q.
Proof. intros H HP HQ s a s' Hs Hr. apply HQ. eapply H; eauto. Qed.

Lemma hoare_ret {S A} (P : S -> Prop) (Q : A -> S -> Prop) (a : A) :
  (forall s, P s -> Q a s) -> hoare P (ret a) Q.
Proof. intros H s a' s' HP [= <- <-]. auto. Qed.

Lemma hoare_noexcept {S A} (P : S -> Prop) (Q : A -> S -> Prop) (m : M S A) :
  hoare P m Q -> hoare P (noexcept m) Q.
Proof.
  intros H s a s' HP. unfold noexcept.
  destruct (m s) eqn:E; try discriminate. intros [= <- <-]. eauto.
Qed.

Lemma append_empty_r (a : string) : a +:+ "" = a.
Proof.
  induction a as [|ch a IH]; [reflexivity|].
  change (String ch (a +:+ "") = String ch a). now rewrite IH.
Qed.

Lemma VM_kept_refl vm : VM_kept vm vm.
Proof.
  repeat split; try reflexivity.
  - exists []. now rewrite app_nil_r.
  - exists "". now rewrite append_empty_r.
Qed.

(** States that differ only in the position or the stack are related. *)
Lemma VM_kept_same vm vm' :
  mChunk vm' = mChunk vm -> cu vm' = cu vm ->
  length (stack vm') = length (stack vm) ->
  globals vm' = globals vm -> cout vm' = cout vm -> cerr vm' = cerr vm ->
  VM_kept vm vm'.
Proof.
  intros H1 H2 H3 H4 H5 H6. repeat split; try assumption.
  - now rewrite H4.
  - exists []. now rewrite app_nil_r.
  - exists "". now rewrite append_empty_r.
Qed.

Global Instance VM_kept_preorder : PreOrder VM_kept.
Proof.
  split.
  - intros vm. apply VM_kept_refl.
  - intros a b c [[H1 [H2 H3]] [H4 [[o1 H5] [e1 H6]]]]
                 [[H1' [H2' H3']] [H4' [[o2 H5'] [e2 H6']]]].
    repeat split; try congruence.
    + etrans; eauto.
    + exists (o1 ++ o2). rewrite H5', H5. now rewrite app_assoc.
    + exists (e1 +:+ e2). rewrite H6', H6. now rewrite append_assoc.
Qed.

Create HintDb pres.

(** One step of a proof that a program keeps a relation: take the program
    apart along its binds and case distinctions. *)
Ltac pres_step :=
  match goal with
  | |- preserves _ (bind _ _) => apply preserves_bind; [exact _ | | intros]
  | |- preserves _ (ret _) => apply preserves_ret; exact _
  | |- preserves _ get => apply preserves_get; exact _
  | |- preserves _ throw => apply preserves_throw; exact _
  | |- preserves _ undefined => apply preserves_undefined
  | |- preserves _ (fun _ => OutOfFuel) => apply preserves_out_of_fuel
  | |- preserves _ (noexcept _) => apply preserves_noexcept
  | |- preserves _ (match ?x with _ => _ end) => destruct x
  | |- preserves _ _ => solve [eauto with pres]
  end.

Ltac pres := repeat pres_step.

Lemma VM_kept_modify (f : VM -> VM) :
  (forall vm, VM_kept vm (f vm)) -> preserves VM_kept (modify f).
Proof. apply preserves_modify. Qed.

Lemma VM_kept_set_pos n : preserves VM_kept (modify (set_pos n)).
Proof. apply VM_kept_modify. intros vm. now apply VM_kept_same. Qed.

Lemma VM_kept_set_stackTop n : preserves VM_kept (modify (set_stackTop n)).
Proof. apply VM_kept_modify. intros vm. now apply VM_kept_same. Qed.

#[local] Hint Resolve VM_kept_set_pos VM_kept_set_stackTop : pres.

Lemma VM_kept_the_chunk : preserves VM_kept the_chunk.
Proof. unfold the_chunk. pres. Qed.
#[local] Hint Resolve VM_kept_the_chunk : pres.

Lemma VM_kept_readByte : preserves VM_kept readByte.
Proof. unfold readByte. pres. Qed.
#[local] Hint Resolve VM_kept_readByte : pres.

Lemma VM_kept_readConstant : preserves VM_kept readConstant.
Proof. unfold readConstant. pres. Qed.
#[local] Hint Resolve VM_kept_readConstant : pres.

Lemma VM_kept_readString : preserves VM_kept readString.
Proof. unfold readString. pres. Qed.
#[local] Hint Resolve VM_kept_readString : pres.

Lemma VM_kept_resetStack : preserves VM_kept resetStack.
Proof. unfold resetStack. pres. Qed.
#[local] Hint Resolve VM_kept_resetStack : pres.

Lemma VM_kept_push value : preserves VM_kept (push value).
Proof.
  unfold push. pres. apply VM_kept_modify. intros vm.
  apply VM_kept_same; try reflexivity. apply length_insert.
Qed.
#[local] Hint Resolve VM_kept_push : pres.

Lemma VM_kept_pop : preserves VM_kept pop.
Proof. unfold pop. pres. Qed.
#[local] Hint Resolve VM_kept_pop : pres.

Lemma VM_kept_peek offset : preserves VM_kept (peek offset).
Proof. unfold peek. pres. Qed.
#[local] Hint Resolve VM_kept_peek : pres.

Lemma VM_kept_cerr_write s : preserves VM_kept (VM_cerr_write s).
Proof.
  unfold VM_cerr_write. apply VM_kept_modify. intros vm.
  repeat split; cbn; try reflexivity.
  - exists []. now rewrite app_nil_r.
  - now exists s.
Qed.
#[local] Hint Resolve VM_kept_cerr_write : pres.

Lemma VM_kept_runTimeError args : preserves VM_kept (runTimeError args).
Proof. unfold runTimeError. pres. Qed.
#[local] Hint Resolve VM_kept_runTimeError : pres.

Lemma VM_kept_binaryOp op : preserves VM_kept (binaryOp op).
Proof. unfold binaryOp. pres. Qed.
#[local] Hint Resolve VM_kept_binaryOp : pres.

Lemma VM_kept_BINARY_OP f : preserves VM_kept (BINARY_OP f).
Proof. unfold BINARY_OP. pres. Qed.
#[local] Hint Resolve VM_kept_BINARY_OP : pres.

Lemma VM_kept_set_globals name value :
  preserves VM_kept
    (modify (fun vm => set_globals (<[name := value]> (globals vm)) vm)).
Proof.
  apply VM_kept_modify. intros vm. repeat split; cbn; try reflexivity.
  - rewrite dom_insert_L. set_solver.
  - exists []. now rewrite app_nil_r.
  - exists "". now rewrite append_empty_r.
Qed.
#[local] Hint Resolve VM_kept_set_globals : pres.

Lemma VM_kept_print value :
  preserves VM_kept (modify (fun vm => set_cout (cout vm ++ [value]) vm)).
Proof.
  apply VM_kept_modify. intros vm. repeat split; cbn; try reflexivity.
  - now exists [value].
  - exists "". now rewrite append_empty_r.
Qed.
#[local] Hint Resolve VM_kept_print : pres.

Lemma VM_kept_execute instruction : preserves VM_kept (execute instruction).
Proof. unfold execute. pres. Qed.
#[local] Hint Resolve VM_kept_execute : pres.

Lemma VM_kept_step : preserves VM_kept step.
Proof. unfold step. pres. Qed.
#[local] Hint Resolve VM_kept_step : pres.

Lemma VM_kept_run fuel : preserves VM_kept (run fuel).
Proof. induction fuel as [|fuel IH]; cbn [run]; pres. Qed.

(** X1: [run] leaves the chunk it executes, the compiler and the size of the
    stack array as they are, however it ends. *)
Theorem run_keeps_chunk fuel vm :
  match run fuel vm with
  | Returns _ vm' | Terminates vm' | Throws vm' => VM_frame vm vm'
  | Undefined | OutOfFuel => Logic.True
  end.
Proof.
  pose proof (VM_kept_run fuel vm) as H.
  destruct (run fuel vm); try exact I; apply H.
Qed.

(** [run] never removes a global, and it only appends to [std::cout] and
    [std::cerr], however it ends. *)
Lemma run_only_adds fuel vm :
  match run fuel vm with
  | Returns _ vm' | Terminates vm' | Throws vm' => VM_grows vm vm'
  | Undefined | OutOfFuel => Logic.True
  end.
Proof.
  pose proof (VM_kept_run fuel vm) as H.
  destruct (run fuel vm); try exact I; apply H.
Qed.

(** The last action decides what holds at the end. *)
Lemma hoare_bind_last {S A B} (P : S -> Prop) (Q : B -> S -> Prop)
    (m : M S A) (k : A -> M S B) :
  (forall a, hoare (fun _ => Logic.True) (k a) Q) -> hoare P (bind m k) Q.
Proof.
  intros Hk. eapply hoare_bind with (Q1 := fun _ _ => Logic.True); [|exact Hk].
  intros s a s' _ _. exact I.
Qed.

Lemma hoare_runTimeError args :
  hoare (fun _ => Logic.True) (runTimeError args)
    (fun _ vm => stackTop vm = 0%nat).
Proof.
  intros vm [] vm' _.
  cbv [runTimeError bind VM_cerr_write modify the_chunk get ret throw
       resetStack noexcept].
  repeat match goal with
    | |- context [match ?x with _ => _ end] =>
        destruct x eqn:?; try discriminate
    end.
  intros [= <-]. reflexivity.
Qed.

Lemma hoare_error_return {A} args (a : A) :
  hoare (fun _ => Logic.True) (runTimeError args ;; ret a)
    (fun a' vm => a' = a /\ stackTop vm = 0%nat).
Proof.
  eapply hoare_bind; [apply hoare_runTimeError|].
  intros []. apply hoare_ret. auto.
Qed.

Ltac ens_step :=
  match goal with
  | |- hoare _ (bind (runTimeError _) (fun _ => ret _)) _ =>
      eapply hoare_weaken;
      [apply hoare_error_return | auto | cbv beta; intros ? ? [-> ?]]
  | |- hoare _ (bind _ _) _ => apply hoare_bind_last; intros
  | |- hoare _ (ret _) _ => apply hoare_ret; intros
  | |- hoare _ (match ?x with _ => _ end) _ => destruct x
  end.

Lemma hoare_binaryOp op :
  hoare (fun _ => Logic.True) (binaryOp op)
    (fun ok vm => ok = false -> stackTop vm = 0%nat).
Proof.
  unfold binaryOp. repeat ens_step; try discriminate; auto.
Qed.

Lemma hoare_BINARY_OP f :
  hoare (fun _ => Logic.True) (BINARY_OP f) reset_unless_OK.
Proof.
  unfold BINARY_OP. eapply hoare_bind; [apply hoare_binaryOp|].
  intros [|]; cbn [negb]; apply hoare_ret; intros vm H r [= <-];
    auto; discriminate.
Qed.

Lemma hoare_execute_reset instruction :
  hoare (fun _ => Logic.True) (execute instruction) reset_unless_OK.
Proof.
  unfold execute.
  repeat first [ apply hoare_BINARY_OP | ens_step ];
    intros r [= <-]; auto; try discriminate; congruence.
Qed.

Lemma step_reset vm next vm' :
  step vm = Returns next vm' -> reset_unless_OK next vm'.
Proof.
  intros H. eapply (hoare_bind_last (fun _ => Logic.True)); [|exact I|exact H].
  intros byte. apply hoare_execute_reset.
Qed.

(** X3: when [run] returns a status other than [OK], the stack is empty. *)
Theorem run_error_resets_stack fuel vm result vm' :
  run fuel vm = Returns result vm' ->
  result <> InterpretResult.OK ->
  stackTop vm' = 0%nat.
Proof.
  revert vm. induction fuel as [|fuel IH]; intros vm; [discriminate|].
  cbn [run]. unfold bind at 1.
  destruct (step vm) as [next vm1| | | |] eqn:E; try discriminate.
  destruct next as [r|].
  - intros [= <- <-] Hne. eapply step_reset; eauto.
  - apply IH.
Qed.

Lemma OpCode_of_byte_inv byte op :
  OpCode.of_byte byte = Some op -> byte = OpCode.to_byte op.
Proof.
  intros H. destruct byte as [|p|p]; cbn in H; try discriminate.
  - now injection H as <-.
  - do 5 (try destruct p as [p|p|]; cbn in H; try discriminate);
      injection H as <-; reflexivity.
Qed.

Lemma OpCode_of_byte_None byte :
  byte < 0 \/ 20 < byte -> OpCode.of_byte byte = None.
Proof.
  intros H. destruct (OpCode.of_byte byte) as [op|] eqn:E; [|reflexivity].
  apply OpCode_of_byte_inv in E. subst byte. destruct op; cbn in H; lia.
Qed.

Lemma readByte_inv vm byte vm' :
  readByte vm = Returns byte vm' ->
  exists chunk,
    mChunk vm = Some chunk /\ code chunk !! pos vm = Some byte
    /\ vm' = set_pos (S (pos vm)) vm.
Proof.
  cbv [readByte noexcept bind the_chunk get modify ret throw undefined].
  destruct (mChunk vm) as [chunk|]; [|discriminate].
  destruct (code chunk !! pos vm) as [b|] eqn:E; [|discriminate].
  intros [= <- <-]. eauto.
Qed.

(** Only the case of [RETURN] makes the [switch] return [OK], and it leaves
    the state as it is. *)
Lemma execute_OK instruction vm vm' :
  execute instruction vm = Returns (Some InterpretResult.OK) vm' ->
  instruction = Some OpCode.RETURN /\ vm' = vm.
Proof.
  intros H.
  assert (Hn : forall m : M VM (option InterpretResult.t),
             hoare (fun _ => Logic.True) m
               (fun a _ => a <> Some InterpretResult.OK) ->
             m vm <> Returns (Some InterpretResult.OK) vm').
  { intros m Hm E. now apply (Hm vm _ vm' I E). }
  assert (Hb : forall f,
             hoare (fun _ => Logic.True) (BINARY_OP f)
               (fun a _ => a <> Some InterpretResult.OK)).
  { intros f. unfold BINARY_OP. repeat ens_step; discriminate. }
  destruct instruction as [[]|]; cbn [execute] in H;
    try (exfalso; revert H; apply Hn;
         first [ apply Hb | repeat ens_step; discriminate ]).
  injection H as <-. auto.
Qed.

(** X4: when [run] returns [OK], the byte fetched last is [RETURN]. *)
Theorem run_OK_by_RETURN fuel vm vm' :
  run fuel vm = Returns InterpretResult.OK vm' ->
  exists chunk before,
    mChunk vm' = Some chunk /\ pos vm' = S before
    /\ code chunk !! before = Some (OpCode.to_byte OpCode.RETURN).
Proof.
  revert vm. induction fuel as [|fuel IH]; intros vm; [discriminate|].
  cbn [run]. unfold bind at 1.
  destruct (step vm) as [next vm1| | | |] eqn:E; try discriminate.
  destruct next as [r|]; [|apply IH].
  intros [= -> <-]. unfold step, bind in E.
  destruct (readByte vm) as [byte vm0| | | |] eqn:Er; try discriminate.
  apply readByte_inv in Er as (chunk & Hc & Hb & ->).
  apply execute_OK in E as [Hop ->].
  apply OpCode_of_byte_inv in Hop. subst byte.
  exists chunk, (pos vm). auto.
Qed.

(** X5: a byte that names no opcode is skipped: the [switch] has no default,
    so the loop goes on with the next byte and the same stack. *)
Theorem step_unknown_opcode_skipped vm chunk byte :
  mChunk vm = Some chunk ->
  code chunk !! pos vm = Some byte ->
  byte < 0 \/ 20 < byte ->
  step vm = Returns None (set_pos (S (pos vm)) vm).
Proof.
  intros Hc Hb Hr. rewrite (step_fetch _ _ _ Hc Hb).
  now rewrite OpCode_of_byte_None.
Qed.

(** X6: running past the last byte of the code ends in [std::terminate]:
    nothing but [RETURN] or an error stops the loop. *)
Theorem run_off_the_end fuel vm chunk :
  mChunk vm = Some chunk ->
  (length (code chunk) <= pos vm)%nat ->
  run (S fuel) vm = Terminates (set_pos (S (pos vm)) vm).
Proof.
  intros Hc Hlen. apply lookup_ge_None in Hlen.
  cbv [run step bind readByte noexcept the_chunk get modify ret throw].
  cbn [mChunk set_pos pos]. rewrite Hc, Hlen. reflexivity.
Qed.

Lemma readConstant_Returns vm chunk byte value :
  mChunk vm = Some chunk ->
  code chunk !! pos vm = Some byte ->
  constants chunk !! Z.to_nat byte = Some value ->
  readConstant vm = Returns value (set_pos (S (pos vm)) vm).
Proof.
  intros Hc Hb Hv. unfold readConstant, noexcept.
  erewrite bind_Returns by (eapply readByte_Returns; eauto).
  cbv [bind the_chunk get ret]. cbn [mChunk set_pos]. rewrite Hc, Hv.
  reflexivity.
Qed.

Lemma readString_Returns vm chunk byte s :
  mChunk vm = Some chunk ->
  code chunk !! pos vm = Some byte ->
  constants chunk !! Z.to_nat byte = Some (VString s) ->
  readString vm = Returns s (set_pos (S (pos vm)) vm).
Proof.
  intros Hc Hb Hv. unfold readString, noexcept.
  erewrite bind_Returns by (eapply readConstant_Returns; eauto).
  reflexivity.
Qed.

(** X7: [NEGATE] replaces a number on top of the stack by its negation.
    On any other value it writes "Operand must be a number." and then looks
    up the line in the line table at index 17, the value of the opcode.
    With that entry, "[line N] in script" is written, the stack is reset
    and [RUNTIME_ERROR] is returned; without it, the [std::out_of_range] of
    the look-up leaves [run]: the operand is still on the stack and no
    status is returned. *)
Theorem step_negate vm chunk top value :
  mChunk vm = Some chunk ->
  code chunk !! pos vm = Some (OpCode.to_byte OpCode.NEGATE) ->
  stackTop vm = S top ->
  stack vm !! top = Some value ->
  length (stack vm) = STACK_MAX ->
  let fetched := set_pos (S (pos vm)) vm in
  let said :=
    set_cerr (cerr vm +:+ "Operand must be a number." +:+ endl) fetched in
  match value with
  | VNumber d =>
      step vm =
        Returns None
          (set_stackTop (S top)
             (set_stack (<[top := VNumber (SFopp d)]> (stack vm))
                (set_stackTop top fetched)))
  | _ =>
      step vm =
        match lines chunk !! Z.to_nat (OpCode.to_byte OpCode.NEGATE) with
        | Some line =>
            Returns (Some InterpretResult.RUNTIME_ERROR)
              (set_stackTop 0
                 (set_cerr (cerr said +:+ "[line " +:+ show_int line
                            +:+ "] in script" +:+ endl) said))
        | None => Throws said
        end
  end.
Proof.
  intros Hc Hb Ht Hv Hlen fetched said.
  rewrite (step_fetch _ _ _ Hc Hb). fold fetched.
  change (OpCode.of_byte (OpCode.to_byte OpCode.NEGATE))
    with (Some OpCode.NEGATE).
  cbn [execute].
  assert (top < STACK_MAX)%nat by (apply lookup_lt_Some in Hv; lia).
  assert (Hp : peek 0 fetched = Returns value fetched).
  { eapply peek_Returns; cbn; rewrite Ht; [lia|].
    replace (S top - 1 - 0)%nat with top by lia. exact Hv. }
  rewrite (bind_Returns _ _ _ _ _ Hp).
  assert (Herr :
    (runTimeError ["Operand must be a number."] ;;
     ret (Some InterpretResult.RUNTIME_ERROR)) fetched
    = match lines chunk !! Z.to_nat (OpCode.to_byte OpCode.NEGATE) with
      | Some line =>
          Returns (Some InterpretResult.RUNTIME_ERROR)
            (set_stackTop 0
               (set_cerr (cerr said +:+ "[line " +:+ show_int line
                          +:+ "] in script" +:+ endl) said))
      | None => Throws said
      end).
  { unfold bind. rewrite (runTimeError_unfold _ fetched chunk Hc).
    cbn [pos set_pos fetched]. rewrite Hb.
    destruct (lines chunk !! Z.to_nat (OpCode.to_byte OpCode.NEGATE));
      reflexivity. }
  destruct value; try exact Herr.
  erewrite bind_Returns by (eapply pop_Returns; cbn; eauto).
  erewrite bind_Returns by (eapply push_Returns; cbn; eauto).
  reflexivity.
Qed.

(** [DEFINE_GLOBAL] binds the name to the value on top of the stack and
    pops it. *)
Lemma step_define_global vm chunk index name top value :
  mChunk vm = Some chunk ->
  code chunk !! pos vm = Some (OpCode.to_byte OpCode.DEFINE_GLOBAL) ->
  code chunk !! S (pos vm) = Some index ->
  constants chunk !! Z.to_nat index = Some (VString name) ->
  stackTop vm = S top ->
  stack vm !! top = Some value ->
  step vm =
    Returns None
      (set_stackTop top
         (set_globals (<[name := value]> (globals vm))
            (set_pos (S (S (pos vm))) vm))).
Proof.
  intros Hc Hb Hi Hn Ht Hv.
  rewrite (step_fetch _ _ _ Hc Hb).
  change (OpCode.of_byte (OpCode.to_byte OpCode.DEFINE_GLOBAL))
    with (Some OpCode.DEFINE_GLOBAL).
  cbn [execute].
  erewrite bind_Returns by (eapply readString_Returns; cbn; eauto).
  erewrite bind_Returns.
  2: { eapply peek_Returns; cbn; rewrite Ht; [lia|].
       replace (S top - 1 - 0)%nat with top by lia. exact Hv. }
  unfold bind at 1, modify at 1.
  erewrite bind_Returns by (eapply pop_Returns; cbn; eauto).
  reflexivity.
Qed.

(** [GET_GLOBAL] of a defined name pushes its value. *)
Lemma step_get_global vm chunk index name value :
  mChunk vm = Some chunk ->
  code chunk !! pos vm = Some (OpCode.to_byte OpCode.GET_GLOBAL) ->
  code chunk !! S (pos vm) = Some index ->
  constants chunk !! Z.to_nat index = Some (VString name) ->
  globals vm !! name = Some value ->
  (stackTop vm < STACK_MAX)%nat ->
  step vm =
    Returns None
      (set_stackTop (S (stackTop vm))
         (set_stack (<[stackTop vm := value]> (stack vm))
            (set_pos (S (S (pos vm))) vm))).
Proof.
  intros Hc Hb Hi Hn Hg Ht.
  rewrite (step_fetch _ _ _ Hc Hb).
  change (OpCode.of_byte (OpCode.to_byte OpCode.GET_GLOBAL))
    with (Some OpCode.GET_GLOBAL).
  cbn [execute].
  erewrite bind_Returns by (eapply readString_Returns; cbn; eauto).
  unfold bind at 1, get at 1. cbn [globals set_pos]. rewrite Hg.
  erewrite bind_Returns by (eapply push_Returns; cbn; eauto).
  reflexivity.
Qed.


(** X9: [GET_GLOBAL] and [SET_GLOBAL] of a name that is not defined write
    "Undefined variable '<name>'." and then look up the line in the line
    table at the index that is the operand byte.  With that entry,
    "[line N] in script" is written, the stack is reset and
    [RUNTIME_ERROR] is returned; without it, the [std::out_of_range] of the
    look-up leaves [run] with no status.  Either way the globals are as
    they were: assignment does not create a global. *)
Theorem step_undefined_global vm chunk op index name :
  mChunk vm = Some chunk ->
  op = OpCode.GET_GLOBAL \/ op = OpCode.SET_GLOBAL ->
  code chunk !! pos vm = Some (OpCode.to_byte op) ->
  code chunk !! S (pos vm) = Some index ->
  constants chunk !! Z.to_nat index = Some (VString name) ->
  globals vm !! name = None ->
  let read := set_pos (S (S (pos vm))) vm in
  let said :=
    set_cerr (cerr vm +:+ "Undefined variable '" +:+ c_str name +:+ "'."
              +:+ endl) read in
  step vm =
    match lines chunk !! Z.to_nat index with
    | Some line =>
        Returns (Some InterpretResult.RUNTIME_ERROR)
          (set_stackTop 0
             (set_cerr (cerr said +:+ "[line " +:+ show_int line
                        +:+ "] in script" +:+ endl) said))
    | None => Throws said
    end
  /\ match step vm with
     | Returns _ vm' | Terminates vm' | Throws vm' =>
         globals vm' = globals vm
     | Undefined | OutOfFuel => Logic.False
     end.
Proof.
  intros Hc Hop Hb Hi Hn Hg read said.
  assert (Hstep : step vm =
    (runTimeError ["Undefined variable '"; c_str name; "'."] ;;
     ret (Some InterpretResult.RUNTIME_ERROR)) read).
  { rewrite (step_fetch _ _ _ Hc Hb).
    destruct Hop; subst op;
      match goal with
      | |- context [OpCode.of_byte (OpCode.to_byte ?o)] =>
          change (OpCode.of_byte (OpCode.to_byte o)) with (Some o)
      end;
      cbn [execute];
      erewrite bind_Returns by (eapply readString_Returns; cbn; eauto);
      unfold bind at 1, get at 1; cbn [globals set_pos]; rewrite Hg;
      reflexivity. }
  assert (Hsaid :
    set_cerr (cerr read
              +:+ String.concat "" ["Undefined variable '"; c_str name; "'."]
              +:+ endl) read = said).
  { unfold said. f_equal. cbn [read cerr set_pos].
    change (String.concat "" ["Undefined variable '"; c_str name; "'."])
      with ("Undefined variable '" +:+ c_str name +:+ "'.").
    now rewrite !append_assoc. }
  assert (Hexact : step vm =
    match lines chunk !! Z.to_nat index with
    | Some line =>
        Returns (Some InterpretResult.RUNTIME_ERROR)
          (set_stackTop 0
             (set_cerr (cerr said +:+ "[line " +:+ show_int line
                        +:+ "] in script" +:+ endl) said))
    | None => Throws said
    end).
  { rewrite Hstep. unfold bind. rewrite (runTimeError_unfold _ read chunk Hc).
    cbv zeta. rewrite Hsaid. cbn [pos set_pos read]. rewrite Hi.
    destruct (lines chunk !! Z.to_nat index); reflexivity. }
  split; [exact Hexact|].
  rewrite Hexact.
  destruct (lines chunk !! Z.to_nat index); reflexivity.
Qed.

(** X10: [SET_GLOBAL] of a defined name binds it to the value on top of the
    stack and does not pop that value. *)
Theorem step_set_global vm chunk index name old top value :
  mChunk vm = Some chunk ->
  code chunk !! pos vm = Some (OpCode.to_byte OpCode.SET_GLOBAL) ->
  code chunk !! S (pos vm) = Some index ->
  constants chunk !! Z.to_nat index = Some (VString name) ->
  globals vm !! name = Some old ->
  stackTop vm = S top ->
  stack vm !! top = Some value ->
  step vm =
    Returns None
      (set_globals (<[name := value]> (globals vm))
         (set_pos (S (S (pos vm))) vm)).
Proof.
  intros Hc Hb Hi Hn Hg Ht Hv.
  rewrite (step_fetch _ _ _ Hc Hb).
  change (OpCode.of_byte (OpCode.to_byte OpCode.SET_GLOBAL))
    with (Some OpCode.SET_GLOBAL).
  cbn [execute].
  erewrite bind_Returns by (eapply readString_Returns; cbn; eauto).
  unfold bind at 1, get at 1. cbn [globals set_pos]. rewrite Hg.
  erewrite bind_Returns.
  2: { eapply peek_Returns; cbn; rewrite Ht; [lia|].
       replace (S top - 1 - 0)%nat with top by lia. exact Hv. }
  reflexivity.
Qed.

(** What [CONSTANT] does, by its operand. *)
Lemma step_CONSTANT vm chunk index :
  mChunk vm = Some chunk ->
  code chunk !! pos vm = Some (OpCode.to_byte OpCode.CONSTANT) ->
  code chunk !! S (pos vm) = Some index ->
  (stackTop vm < STACK_MAX)%nat ->
  step vm =
    match constants chunk !! Z.to_nat index with
    | Some value =>
        Returns None
          (set_stackTop (S (stackTop vm))
             (set_stack (<[stackTop vm := value]> (stack vm))
                (set_pos (S (S (pos vm))) vm)))
    | None => Terminates (set_pos (S (S (pos vm))) vm)
    end.
Proof.
  intros Hc Hb Hi Ht.
  rewrite (step_fetch _ _ _ Hc Hb).
  change (OpCode.of_byte (OpCode.to_byte OpCode.CONSTANT))
    with (Some OpCode.CONSTANT).
  cbn [execute].
  destruct (constants chunk !! Z.to_nat index) as [value|] eqn:E.
  - erewrite bind_Returns by (eapply readConstant_Returns; cbn; eauto).
    erewrite bind_Returns by (eapply push_Returns; cbn; eauto).
    reflexivity.
  - unfold bind at 1, readConstant, noexcept.
    erewrite bind_Returns by (eapply readByte_Returns; cbn; eauto).
    cbv [bind the_chunk get ret throw]. cbn [mChunk set_pos].
    rewrite Hc, E. reflexivity.
Qed.

(** X11: [CONSTANT] pushes the constant its operand byte indexes; an operand
    that is no index of the constant pool ends the process in
    [std::terminate], the stack untouched. *)
Theorem step_constant vm chunk index :
  mChunk vm = Some chunk ->
  code chunk !! pos vm = Some (OpCode.to_byte OpCode.CONSTANT) ->
  code chunk !! S (pos vm) = Some index ->
  (stackTop vm < STACK_MAX)%nat ->
  step vm =
    match constants chunk !! Z.to_nat index with
    | Some value =>
        Returns None
          (set_stackTop (S (stackTop vm))
             (set_stack (<[stackTop vm := value]> (stack vm))
                (set_pos (S (S (pos vm))) vm)))
    | None => Terminates (set_pos (S (S (pos vm))) vm)
    end.
Proof. apply step_CONSTANT. Qed.

(** ** Invariants of the compiler

    A relation on the compiler's state that the parser's primitives and the
    four functions that change the locals table keep is kept by every
    function of the compiler. *)
Section CompilerInvariant.

Variable stod : string -> option double.
Variable R : Compilation * ostream -> Compilation * ostream -> Prop.
Context `{!PreOrder R}.

Hypothesis R_set_currentChunk : forall c, preserves R (set_currentChunk c).
Hypothesis R_the_parser : preserves R the_parser.
Hypothesis R_advance : preserves R (on_parser Parser_advance).
Hypothesis R_consume :
  forall ty message, preserves R (on_parser (Parser_consume ty message)).
Hypothesis R_error : forall message, preserves R (on_parser (error message)).
Hypothesis R_unpanic :
  preserves R
    (on_parser (modify (fun st => (set_panicMode false (fst st), snd st)))).
Hypothesis R_addLocal : forall nm, preserves R (addLocal nm).
Hypothesis R_markInitialized : preserves R markInitialized.
Hypothesis R_beginScope : preserves R beginScope.
Hypothesis R_endScope :
  preserves R (emitOp OpCode.POP) -> preserves R endScope.

#[local] Hint Resolve R_set_currentChunk R_the_parser R_advance R_consume
  R_error R_unpanic R_addLocal R_markInitialized R_beginScope : pres.

Lemma R_the_compiler : preserves R the_compiler.
Proof. unfold the_compiler. pres. Qed.
#[local] Hint Resolve R_the_compiler : pres.

Lemma R_locals_at i : preserves R (locals_at i).
Proof. unfold locals_at. pres. Qed.
#[local] Hint Resolve R_locals_at : pres.

Lemma R_currentChunk : preserves R currentChunk.
Proof. unfold currentChunk. pres. Qed.
#[local] Hint Resolve R_currentChunk : pres.

Lemma R_emitByte byte : preserves R (emitByte byte).
Proof. unfold emitByte. pres. Qed.
#[local] Hint Resolve R_emitByte : pres.

Lemma R_emitOp op : preserves R (emitOp op).
Proof. unfold emitOp. pres. Qed.
#[local] Hint Resolve R_emitOp : pres.

Lemma R_endScope' : preserves R endScope.
Proof. apply R_endScope. apply R_emitOp. Qed.
#[local] Hint Resolve R_endScope' : pres.

Lemma R_emitBytes byte1 byte2 : preserves R (emitBytes byte1 byte2).
Proof. unfold emitBytes. pres. Qed.
#[local] Hint Resolve R_emitBytes : pres.

Lemma R_emitOps op1 op2 : preserves R (emitOps op1 op2).
Proof. unfold emitOps. pres. Qed.
#[local] Hint Resolve R_emitOps : pres.

Lemma R_endCompiler : preserves R endCompiler.
Proof. unfold endCompiler, emitReturn. pres. Qed.
#[local] Hint Resolve R_endCompiler : pres.

Lemma R_match ty : preserves R (match_ ty).
Proof. unfold match_. pres. Qed.
#[local] Hint Resolve R_match : pres.

Lemma R_makeConstant value : preserves R (makeConstant value).
Proof. unfold makeConstant. pres. Qed.
#[local] Hint Resolve R_makeConstant : pres.

Lemma R_emitConstant value : preserves R (emitConstant value).
Proof. unfold emitConstant. pres. Qed.
#[local] Hint Resolve R_emitConstant : pres.

Lemma R_literal b : preserves R (literal b).
Proof. unfold literal. pres. Qed.
#[local] Hint Resolve R_literal : pres.

Lemma R_string b : preserves R (string_ b).
Proof. unfold string_. pres. Qed.
#[local] Hint Resolve R_string : pres.

Lemma R_number b : preserves R (number stod b).
Proof. unfold number. pres. Qed.
#[local] Hint Resolve R_number : pres.

Lemma R_resolveLocal_from k : preserves R (resolveLocal_from k).
Proof. induction k as [|i IH]; cbn [resolveLocal_from]; pres. Qed.
#[local] Hint Resolve R_resolveLocal_from : pres.

Lemma R_resolveLocal : preserves R resolveLocal.
Proof. unfold resolveLocal. pres. Qed.
#[local] Hint Resolve R_resolveLocal : pres.

Lemma R_identifierConstant : preserves R identifierConstant.
Proof. unfold identifierConstant. pres. Qed.
#[local] Hint Resolve R_identifierConstant : pres.

Lemma R_declareVariable_from nm k : preserves R (declareVariable_from nm k).
Proof. induction k as [|i IH]; cbn [declareVariable_from]; pres. Qed.
#[local] Hint Resolve R_declareVariable_from : pres.

Lemma R_declareVariable : preserves R declareVariable.
Proof. unfold declareVariable. pres. Qed.
#[local] Hint Resolve R_declareVariable : pres.

Lemma R_parseVariable message : preserves R (parseVariable message).
Proof. unfold parseVariable. pres. Qed.
#[local] Hint Resolve R_parseVariable : pres.

Lemma R_defineVariable global : preserves R (defineVariable global).
Proof. unfold defineVariable. pres. Qed.
#[local] Hint Resolve R_defineVariable : pres.

Lemma R_synchronize_loop fuel : preserves R (synchronize_loop fuel).
Proof. induction fuel as [|fuel IH]; cbn [synchronize_loop]; pres. Qed.
#[local] Hint Resolve R_synchronize_loop : pres.

Lemma R_synchronize : preserves R synchronize.
Proof. unfold synchronize. pres. Qed.
#[local] Hint Resolve R_synchronize : pres.

Lemma R_expressions fuel :
  (forall prec, preserves R (parsePrecedence stod fuel prec))
  /\ (forall prec canAssign,
        preserves R (parsePrecedence_loop stod fuel prec canAssign))
  /\ (forall fn canAssign, preserves R (invoke stod fuel fn canAssign))
  /\ preserves R (expression stod fuel)
  /\ (forall b, preserves R (grouping stod fuel b))
  /\ (forall b, preserves R (unary stod fuel b))
  /\ (forall b, preserves R (binary stod fuel b))
  /\ (forall canAssign, preserves R (variable stod fuel canAssign))
  /\ (forall canAssign, preserves R (namedVariable stod fuel canAssign)).
Proof.
  induction fuel as [|fuel (IH1 & IH2 & IH3 & IH4 & IH5 & IH6 & IH7 & IH8 & IH9)].
  - repeat split; intros; apply preserves_out_of_fuel.
  - repeat split; intros.
    + cbn [parsePrecedence]. pres.
    + cbn [parsePrecedence_loop]. pres.
    + cbn [invoke]. pres.
    + cbn [expression]. pres.
    + cbn [grouping]. pres.
    + cbn [unary]. pres.
    + cbn [binary]. pres.
    + cbn [variable]. pres.
    + cbn [namedVariable]. pres.
Qed.

Lemma R_expression fuel : preserves R (expression stod fuel).
Proof. apply R_expressions. Qed.
#[local] Hint Resolve R_expression : pres.

Lemma R_printStatement fuel : preserves R (printStatement stod fuel).
Proof. unfold printStatement. pres. Qed.
#[local] Hint Resolve R_printStatement : pres.

Lemma R_expressionStatement fuel :
  preserves R (expressionStatement stod fuel).
Proof. unfold expressionStatement. pres. Qed.
#[local] Hint Resolve R_expressionStatement : pres.

Lemma R_varDeclaration fuel : preserves R (varDeclaration stod fuel).
Proof. unfold varDeclaration. pres. Qed.
#[local] Hint Resolve R_varDeclaration : pres.

Lemma R_statements fuel :
  preserves R (declaration stod fuel)
  /\ preserves R (statement stod fuel)
  /\ preserves R (block stod fuel)
  /\ preserves R (block_loop stod fuel).
Proof.
  induction fuel as [|fuel (IH1 & IH2 & IH3 & IH4)].
  - repeat split; apply preserves_out_of_fuel.
  - repeat split.
    + cbn [declaration]. pres.
    + cbn [statement]. pres.
    + cbn [block]. pres.
    + cbn [block_loop]. pres.
Qed.

Lemma R_declaration fuel : preserves R (declaration stod fuel).
Proof. apply R_statements. Qed.
#[local] Hint Resolve R_declaration : pres.

Lemma R_compile_loop fuel : preserves R (compile_loop stod fuel).
Proof. induction fuel as [|fuel IH]; cbn [compile_loop]; pres. Qed.

End CompilerInvariant.

(** ** Diagnostics and the result of [compile] *)

Lemma append_eq_empty (a b : string) : a +:+ b = "" -> a = "".
Proof. destruct a; [reflexivity|discriminate]. Qed.

Lemma append_inv_empty (a b : string) : a +:+ b = a -> b = "".
Proof.
  induction a as [|ch a IH]; [auto|].
  change (String ch (a +:+ b) = String ch a -> b = "").
  intros [= H]. auto.
Qed.

Lemma reportedP_same ps ps' :
  hadError (fst ps') = hadError (fst ps) ->
  (panicMode (fst ps') = true -> panicMode (fst ps) = true) ->
  snd ps' = snd ps ->
  reportedP ps ps'.
Proof.
  intros Hh Hp He Hinv. rewrite Hh. repeat split; auto.
  exists "". rewrite He, append_empty_r. split; [reflexivity|].
  intros H. split; auto.
Qed.

Global Instance reportedP_preorder : PreOrder reportedP.
Proof.
  split.
  - intros ps. now apply reportedP_same.
  - intros a b c Hab Hbc Hinv.
    destruct (Hab Hinv) as (Hinvb & Hs1 & d1 & He1 & Hd1).
    destruct (Hbc Hinvb) as (Hinvc & Hs2 & d2 & He2 & Hd2).
    repeat split; auto.
    exists (d1 +:+ d2). rewrite He2, He1, append_assoc.
    split; [reflexivity|]. intros Ha.
    destruct (hadError (fst b)) eqn:Eb.
    + rewrite (Hs2 eq_refl). split; [discriminate|].
      intros Hd. apply append_eq_empty in Hd.
      pose proof (proj2 (Hd1 Ha) Hd). discriminate.
    + pose proof (proj1 (Hd1 Ha) eq_refl) as Hd. subst d1. cbn.
      now apply Hd2.
Qed.

Global Instance reported_preorder : PreOrder reported.
Proof.
  split.
  - intros s. unfold reported. destruct (parser (fst s)) as [p|]; [|auto].
    exists p. split; [reflexivity|]. reflexivity.
  - intros a b c. unfold reported.
    destruct (parser (fst a)) as [pa|].
    + intros (pb & -> & Hab) (pc & -> & Hbc). exists pc. split; [reflexivity|].
      etrans; eauto.
    + intros [-> ->] [-> ->]. auto.
Qed.

(** Outside panic mode, [errorAt] sets both flags and writes a line that
    starts with [[line]. *)
Lemma errorAt_reports p err token message :
  panicMode p = false ->
  exists rest,
    errorAt token message (p, err) =
      Returns tt (set_hadError true (set_panicMode true p),
                  err +:+ "[line " +:+ rest).
Proof.
  intros Hp.
  cbv [errorAt noexcept bind get ret modify cerr_write fst snd].
  rewrite Hp.
  destruct (TokenType.eqb (type token) TokenType.Eof);
    [|destruct (TokenType.eqb (type token) TokenType.Error)];
    cbv beta iota; rewrite !append_assoc; eexists; reflexivity.
Qed.

Lemma reportedP_errorAt token message :
  preserves reportedP (errorAt token message).
Proof.
  intros [p err].
  destruct (panicMode p) eqn:Hp.
  - rewrite errorAt_suppressed by exact Hp. reflexivity.
  - destruct (errorAt_reports p err token message Hp) as [rest ->].
    intros Hinv. cbn [fst snd set_hadError set_panicMode hadError panicMode].
    repeat split; auto. eexists. split; [reflexivity|].
    intros _. split; [discriminate|].
    intros H. apply append_eq_empty in H. discriminate.
Qed.

#[local] Hint Resolve reportedP_errorAt : pres.

Lemma reportedP_modify (f : Parser * ostream -> Parser * ostream) :
  (forall ps, hadError (fst (f ps)) = hadError (fst ps)
              /\ (panicMode (fst (f ps)) = true -> panicMode (fst ps) = true)
              /\ snd (f ps) = snd ps) ->
  preserves reportedP (modify f).
Proof.
  intros H. apply preserves_modify. intros ps.
  destruct (H ps) as (H1 & H2 & H3). now apply reportedP_same.
Qed.

Lemma reportedP_errorAtCurrent message :
  preserves reportedP (errorAtCurrent message).
Proof. unfold errorAtCurrent. pres. Qed.

Lemma reportedP_error message : preserves reportedP (error message).
Proof. unfold error. pres. Qed.
#[local] Hint Resolve reportedP_errorAtCurrent reportedP_error : pres.

Lemma reportedP_scan : preserves reportedP Parser_scan.
Proof.
  unfold Parser_scan. apply reportedP_modify. intros [p err]. cbn [fst snd].
  destruct (Scanner_scanToken (scanner p)). auto.
Qed.
#[local] Hint Resolve reportedP_scan : pres.

Lemma reportedP_advance_loop fuel :
  preserves reportedP (Parser_advance_loop fuel).
Proof. induction fuel as [|fuel IH]; cbn [Parser_advance_loop]; pres. Qed.
#[local] Hint Resolve reportedP_advance_loop : pres.

Lemma reportedP_advance : preserves reportedP Parser_advance.
Proof.
  unfold Parser_advance. pres. apply reportedP_modify. intros [p err]. auto.
Qed.
#[local] Hint Resolve reportedP_advance : pres.

Lemma reportedP_consume ty message :
  preserves reportedP (Parser_consume ty message).
Proof. unfold Parser_consume. pres. Qed.
#[local] Hint Resolve reportedP_consume : pres.

Lemma reported_on_parser {A} (m : P A) :
  preserves reportedP m -> preserves reported (on_parser m).
Proof.
  intros Hm. unfold on_parser. eapply preserves_zoom; [|exact Hm].
  intros [cu err] [p e] [p' e'] Hget HR. cbn [fst snd] in *.
  unfold reported. cbn [fst snd].
  destruct (parser cu) as [p0|]; [|discriminate].
  injection Hget as <- <-. exists p'. split; [reflexivity|]. exact HR.
Qed.

(** A change that leaves the parser and [std::cerr] alone. *)
Lemma reported_same s s' :
  parser (fst s') = parser (fst s) -> snd s' = snd s -> reported s s'.
Proof.
  intros Hp He. unfold reported. rewrite Hp, He.
  destruct (parser (fst s)) as [p|]; [|auto].
  exists p. split; [reflexivity|]. reflexivity.
Qed.

Lemma reported_modify_compiler f : preserves reported (modify_compiler f).
Proof.
  unfold modify_compiler. apply preserves_modify. intros s.
  now apply reported_same.
Qed.
#[local] Hint Resolve reported_modify_compiler : pres.

Lemma reported_set_currentChunk c : preserves reported (set_currentChunk c).
Proof.
  unfold set_currentChunk. apply preserves_modify. intros s.
  now apply reported_same.
Qed.

Lemma reported_the_parser : preserves reported the_parser.
Proof.
  unfold the_parser. apply reported_on_parser. pres.
Qed.

Lemma reported_unpanic :
  preserves reported
    (on_parser (modify (fun st => (set_panicMode false (fst st), snd st)))).
Proof.
  apply reported_on_parser. apply reportedP_modify. intros [p err].
  cbn. repeat split; auto. discriminate.
Qed.
#[local] Hint Resolve reported_set_currentChunk reported_the_parser
  reported_unpanic : pres.

Lemma reported_error message : preserves reported (on_parser (error message)).
Proof. apply reported_on_parser. pres. Qed.
#[local] Hint Resolve reported_error : pres.

Lemma reported_the_compiler : preserves reported the_compiler.
Proof. unfold the_compiler. pres. Qed.
#[local] Hint Resolve reported_the_compiler : pres.

Lemma reported_locals_at i : preserves reported (locals_at i).
Proof. unfold locals_at. pres. Qed.
#[local] Hint Resolve reported_locals_at : pres.

Lemma reported_addLocal nm : preserves reported (addLocal nm).
Proof. unfold addLocal. pres. Qed.

Lemma reported_markInitialized : preserves reported markInitialized.
Proof. unfold markInitialized. pres. Qed.

Lemma reported_beginScope : preserves reported beginScope.
Proof. unfold beginScope. pres. Qed.

Lemma reported_endScope :
  preserves reported (emitOp OpCode.POP) -> preserves reported endScope.
Proof.
  intros Hpop.
  assert (Hloop : forall fuel, preserves reported (endScope_loop fuel)).
  { induction fuel as [|fuel IH]; cbn [endScope_loop]; pres. }
  unfold endScope. pres.
Qed.

(** Every turn of the loop of [compile] keeps [reported]. *)
Lemma reported_compile_loop stod fuel :
  preserves reported (compile_loop stod fuel).
Proof.
  apply R_compile_loop; try exact _;
    auto using reported_set_currentChunk, reported_the_parser,
               reported_unpanic, reported_error, reported_addLocal,
               reported_markInitialized, reported_beginScope,
               reported_endScope.
  - apply reported_on_parser. pres.
  - intros. apply reported_on_parser. pres.
Qed.

Lemma bind_Returns_inv {S A B} (m : M S A) (k : A -> M S B) s b s' :
  bind m k s = Returns b s' ->
  exists a s1, m s = Returns a s1 /\ k a s1 = Returns b s'.
Proof.
  unfold bind. destruct (m s) as [a s1| | | |]; try discriminate. eauto.
Qed.

Lemma preserves_Returns {S A} (R : S -> S -> Prop) (m : M S A) s a s' :
  preserves R m -> m s = Returns a s' -> R s s'.
Proof. intros H E. specialize (H s). now rewrite E in H. Qed.

(** X12: [compile] returns [true] exactly when it has written no diagnostic:
    what it writes to [std::cerr] comes after what was there, and is empty
    if and only if the result is [true]. *)
Theorem compile_ok_iff_silent stod Scanner_new fuel code chunk cu err ok st :
  compile stod Scanner_new fuel code chunk (cu, err) = Returns ok st ->
  exists diagnostics,
    snd st = err +:+ diagnostics
    /\ (ok = true <-> diagnostics = "").
Proof.
  unfold compile. unfold bind at 1, modify at 1. cbn [fst snd].
  set (s0 := (set_compilingChunk (Some chunk)
                (set_parser (Some (Parser_new Scanner_new code)) cu), err)).
  intros H.
  apply bind_Returns_inv in H as ([] & s1 & H1 & H).
  apply bind_Returns_inv in H as ([] & s2 & H2 & H).
  apply bind_Returns_inv in H as ([] & s3 & H3 & H).
  assert (HR : reported s0 s3).
  { etrans; [|etrans].
    - eapply preserves_Returns; [|exact H1]. apply reported_on_parser. pres.
    - eapply preserves_Returns; [|exact H2]. apply reported_compile_loop.
    - eapply preserves_Returns; [|exact H3].
      apply R_endCompiler; try exact _; auto with pres. }
  unfold reported in HR.
  cbn [s0 fst snd parser set_compilingChunk set_parser] in HR.
  destruct HR as (p3 & Hp3 & HR).
  cbv [bind the_parser on_parser zoom get ret] in H. rewrite Hp3 in H.
  injection H as <- <-.
  destruct HR as (_ & _ & d & Hd & Hiff); [discriminate|].
  cbn [fst snd] in *. exists d. split; [exact Hd|].
  rewrite <- (Hiff eq_refl). destruct (hadError p3); cbn; split; congruence.
Qed.

(** ** The bounds of the locals table *)

Lemma preserves_weaken {S A} (R R' : S -> S -> Prop) (m : M S A) :
  preserves R m -> (forall s s', R s s' -> R' s s') -> preserves R' m.
Proof.
  intros H HR s. specialize (H s). destruct (m s); auto.
Qed.

Lemma preserves_anything {S A} (m : M S A) :
  preserves (fun _ _ => Logic.True) m.
Proof. intros s. destruct (m s); exact I. Qed.

Global Instance same_compiler_preorder : PreOrder same_compiler.
Proof.
  split; [intros s; reflexivity|].
  intros a b c H1 H2. unfold same_compiler in *. congruence.
Qed.

Global Instance keeps_locals_in_bounds_preorder :
  PreOrder keeps_locals_in_bounds.
Proof. split; [intros s H; exact H | intros a b c H1 H2 H; auto]. Qed.

Lemma same_compiler_on_parser {A} (m : P A) :
  preserves same_compiler (on_parser m).
Proof.
  unfold on_parser.
  eapply preserves_zoom; [|apply (preserves_anything m)].
  intros [cu err] ps ps' _ _. reflexivity.
Qed.

Lemma same_compiler_set_currentChunk c :
  preserves same_compiler (set_currentChunk c).
Proof. apply preserves_modify. intros s. reflexivity. Qed.

Lemma same_compiler_the_parser : preserves same_compiler the_parser.
Proof. apply same_compiler_on_parser. Qed.

(** Emitting code leaves the compiler's own state alone. *)
Lemma same_compiler_emitOp op : preserves same_compiler (emitOp op).
Proof.
  apply R_emitOp; try exact _;
    auto using same_compiler_set_currentChunk, same_compiler_the_parser.
Qed.

Lemma same_compiler_keeps s s' :
  same_compiler s s' -> keeps_locals_in_bounds s s'.
Proof. intros H Hb. unfold same_compiler in H. now rewrite H. Qed.

Lemma keeps_modify_compiler f :
  (forall cmp, locals_in_bounds cmp -> locals_in_bounds (f cmp)) ->
  preserves keeps_locals_in_bounds (modify_compiler f).
Proof.
  intros H. apply preserves_modify. intros [cu err] Hb. cbn. auto.
Qed.

Lemma keeps_on_parser {A} (m : P A) :
  preserves keeps_locals_in_bounds (on_parser m).
Proof.
  eapply preserves_weaken; [apply same_compiler_on_parser|].
  apply same_compiler_keeps.
Qed.
#[local] Hint Resolve keeps_on_parser : pres.

Lemma keeps_the_compiler : preserves keeps_locals_in_bounds the_compiler.
Proof. unfold the_compiler. pres. Qed.
#[local] Hint Resolve keeps_the_compiler : pres.

Lemma keeps_locals_at i : preserves keeps_locals_in_bounds (locals_at i).
Proof. unfold locals_at. pres. Qed.
#[local] Hint Resolve keeps_locals_at : pres.

Lemma locals_at_inv i s local s' :
  locals_at i s = Returns local s' -> s' = s.
Proof.
  cbv [locals_at bind the_compiler get ret undefined].
  destruct (i <? 0); [discriminate|].
  destruct (locals (compiler (fst s)) !! Z.to_nat i); [|discriminate].
  now intros [= _ <-].
Qed.

(** [addLocal] stops at [UINT8_COUNT] locals. *)
Lemma keeps_addLocal nm : preserves keeps_locals_in_bounds (addLocal nm).
Proof.
  intros [cu err]. unfold addLocal, bind at 1.
  change (the_compiler (cu, err)) with (Returns (compiler cu) (cu, err)).
  cbv beta iota.
  destruct (localCount (compiler cu) =? UINT8_COUNT) eqn:E.
  { apply (keeps_on_parser
             (error "Too many local variables declared in function.")). }
  apply Z.eqb_neq in E. unfold bind.
  destruct (locals_at (localCount (compiler cu)) (cu, err))
    as [local s1| | | |] eqn:El; try exact I.
  - apply locals_at_inv in El. subst s1.
    intros [Hc Hl]. unfold locals_in_bounds, UINT8_COUNT in *. cbn in *.
    split; [lia|]. now rewrite length_insert.
  - pose proof (keeps_locals_at (localCount (compiler cu)) (cu, err)) as H.
    now rewrite El in H.
  - pose proof (keeps_locals_at (localCount (compiler cu)) (cu, err)) as H.
    now rewrite El in H.
Qed.

Lemma keeps_markInitialized : preserves keeps_locals_in_bounds markInitialized.
Proof.
  unfold markInitialized. pres. apply keeps_modify_compiler.
  intros cmp [Hc Hl]. unfold locals_in_bounds, UINT8_COUNT in *. cbn in *.
  split; [lia|]. now rewrite length_insert.
Qed.

Lemma keeps_beginScope : preserves keeps_locals_in_bounds beginScope.
Proof.
  unfold beginScope. pres.
Qed.

(** The loop of [endScope] stops at an empty table. *)
Lemma keeps_endScope_loop fuel :
  preserves keeps_locals_in_bounds (endScope_loop fuel).
Proof.
  induction fuel as [|fuel IH]; [apply preserves_out_of_fuel|].
  intros [cu err]. cbn [endScope_loop]. unfold bind at 1.
  change (the_compiler (cu, err)) with (Returns (compiler cu) (cu, err)).
  cbv beta iota.
  destruct (localCount (compiler cu) >? 0) eqn:G; [|intros H; exact H].
  apply Z.gtb_lt in G. unfold bind at 1.
  destruct (locals_at (localCount (compiler cu) - 1) (cu, err))
    as [local s1| | | |] eqn:El; try exact I.
  2,3: pose proof (keeps_locals_at (localCount (compiler cu) - 1) (cu, err))
         as H; now rewrite El in H.
  apply locals_at_inv in El. subst s1.
  destruct (to_size_t (depth local) >? scopeDepth (compiler cu));
    [|intros H; exact H].
  unfold bind at 1.
  pose proof (same_compiler_emitOp OpCode.POP (cu, err)) as Hpop.
  destruct (emitOp OpCode.POP (cu, err)) as [[] [cu1 err1]| | | |];
    try exact I; try (now apply same_compiler_keeps).
  unfold same_compiler in Hpop. cbn [fst] in Hpop.
  unfold bind at 1, modify_compiler, modify. cbn [fst snd].
  specialize (IH (set_compiler
                    (mkCompiler (locals (compiler cu1))
                       (localCount (compiler cu1) - 1)
                       (scopeDepth (compiler cu1))) cu1, err1)).
  assert (Hstep : keeps_locals_in_bounds (cu, err)
            (set_compiler
               (mkCompiler (locals (compiler cu1))
                  (localCount (compiler cu1) - 1)
                  (scopeDepth (compiler cu1))) cu1, err1)).
  { intros [Hc Hl]. unfold locals_in_bounds, UINT8_COUNT in *. cbn in *.
    rewrite Hpop. split; [lia|assumption]. }
  destruct (endScope_loop fuel _); try exact I; etrans; eauto.
Qed.

Lemma keeps_endScope :
  preserves keeps_locals_in_bounds (emitOp OpCode.POP) ->
  preserves keeps_locals_in_bounds endScope.
Proof.
  intros _. unfold endScope. pres. apply keeps_endScope_loop.
Qed.

Lemma keeps_set_currentChunk c :
  preserves keeps_locals_in_bounds (set_currentChunk c).
Proof.
  eapply preserves_weaken; [apply same_compiler_set_currentChunk|].
  apply same_compiler_keeps.
Qed.

Lemma keeps_compile stod Scanner_new fuel code chunk :
  preserves keeps_locals_in_bounds (compile stod Scanner_new fuel code chunk).
Proof.
  assert (Hp : preserves keeps_locals_in_bounds the_parser)
    by apply keeps_on_parser.
  unfold compile. pres.
  - apply R_compile_loop; try exact _;
      auto using keeps_set_currentChunk, keeps_addLocal,
                 keeps_markInitialized, keeps_beginScope, keeps_endScope
           with pres.
  - apply R_endCompiler; try exact _;
      auto using keeps_set_currentChunk with pres.
Qed.

(** What a call of [interpret] does to the compiler it owns. *)
Lemma keeps_interpret stod Scanner_new fuel code :
  preserves
    (fun vm vm' =>
       locals_in_bounds (compiler (cu vm)) ->
       locals_in_bounds (compiler (cu vm')))
    (interpret stod Scanner_new fuel code).
Proof.
  set (K := fun vm vm' : VM =>
              locals_in_bounds (compiler (cu vm)) ->
              locals_in_bounds (compiler (cu vm'))).
  assert (HK : PreOrder K).
  { split; [intros s H; exact H | intros a b c H1 H2 H; auto]. }
  assert (Hsame : forall f : VM -> VM,
             (forall vm, cu (f vm) = cu vm) -> preserves K (modify f)).
  { intros f Hf. apply preserves_modify. intros vm H. now rewrite Hf. }
  unfold interpret. pres.
  - unfold on_cu. eapply preserves_zoom; [|apply keeps_compile].
    intros vm [c e] [c' e'] [= <- <-] H. exact H.
  - unfold interpret_chunk. pres; try (apply Hsame; reflexivity).
    eapply preserves_weaken; [apply VM_kept_run|].
    intros vm vm' [(_ & Hcu & _) _] H. now rewrite Hcu.
Qed.


(** ** The parser's primitives *)

(** X14: a second error is dropped: after [errorAt] has run once, panic mode
    is on and a further [errorAt] changes nothing. *)
Theorem errorAt_twice token1 message1 token2 message2 ps :
  (errorAt token1 message1 ;; errorAt token2 message2) ps
  = errorAt token1 message1 ps.
Proof.
  destruct ps as [p err]. unfold bind.
  destruct (panicMode p) eqn:Hp.
  - rewrite (errorAt_suppressed p err token1 message1 Hp).
    apply errorAt_suppressed. exact Hp.
  - destruct (errorAt_reports p err token1 message1 Hp) as [rest ->].
    apply errorAt_suppressed. reflexivity.
Qed.

(** What [errorAt] writes for an [Error] token. *)
Lemma errorAt_Error_token p err token message :
  type token = TokenType.Error ->
  panicMode p = false ->
  errorAt token message (p, err) =
    Returns tt
      (set_hadError true (set_panicMode true p),
       err +:+ "[line " +:+ show_int (line token) +:+ "] Error: "
       +:+ message +:+ endl).
Proof.
  intros Ht Hp.
  cbv [errorAt noexcept bind get ret modify cerr_write fst snd].
  rewrite Hp, Ht.
  change (TokenType.eqb TokenType.Error TokenType.Eof) with false.
  change (TokenType.eqb TokenType.Error TokenType.Error) with true.
  cbv beta iota. rewrite !append_assoc. reflexivity.
Qed.

Lemma Parser_advance_loop_skips rest errs :
  forall p err fuel,
    pending (scanner p) = errs ++ rest ->
    Forall (fun t => type t = TokenType.Error) errs ->
    type (next_token (scanner p) rest) <> TokenType.Error ->
    (length errs < fuel)%nat ->
    Parser_advance_loop fuel (p, err) = Returns tt (skipped p err errs rest).
Proof.
  induction errs as [|e errs IH]; intros p err fuel Hp Herrs Hnext Hfuel.
  - destruct fuel as [|fuel]; [cbn in Hfuel; lia|].
    cbn [Parser_advance_loop]. cbn [app] in Hp.
    destruct p as [cur prev [pd ae] he pm]. cbn in Hp, Hnext. subst pd.
    cbv [bind Parser_scan modify get ret Scanner_scanToken fst snd
         set_current set_scanner scanner pending atEnd current previous
         hadError panicMode].
    unfold skipped. cbn [scanner atEnd previous hadError panicMode].
    destruct rest as [|t rest]; cbn [next_token tl] in *.
    + reflexivity.
    + unfold TokenType.eqb. rewrite bool_decide_eq_false_2 by exact Hnext.
      reflexivity.
  - destruct fuel as [|fuel]; [cbn in Hfuel; lia|].
    cbn [Parser_advance_loop].
    apply Forall_cons in Herrs as [He Herrs].
    destruct p as [cur prev [pd ae] he pm]. cbn in Hp, Hnext. subst pd.
    unfold bind at 1, Parser_scan at 1, modify at 1.
    cbn [Scanner_scanToken scanner pending app fst snd atEnd set_scanner
         set_current current previous hadError panicMode].
    unfold bind at 1, get at 1. cbn [fst current].
    unfold TokenType.eqb at 1. rewrite bool_decide_eq_true_2 by exact He.
    cbn [negb]. unfold bind at 1, errorAtCurrent, noexcept.
    unfold bind at 1, get at 1. cbn [fst current].
    destruct pm.
    + rewrite errorAt_suppressed by reflexivity.
      rewrite (IH _ _ fuel); cbn; auto; [|cbn in Hfuel; lia].
      unfold skipped. cbn. rewrite orb_false_r.
      destruct errs; reflexivity.
    + rewrite errorAt_Error_token by (auto; reflexivity).
      rewrite (IH _ _ fuel); cbn; auto; [|cbn in Hfuel; lia].
      unfold skipped. cbn. rewrite orb_true_r.
      destruct errs; reflexivity.
Qed.

(** What [Parser::advance] does, by the tokens to come. *)
Lemma Parser_advance_skipped p err errs rest :
  pending (scanner p) = errs ++ rest ->
  Forall (fun t => type t = TokenType.Error) errs ->
  type (next_token (scanner p) rest) <> TokenType.Error ->
  Parser_advance (p, err)
  = Returns tt (skipped (set_previous (current p) p) err errs rest).
Proof.
  intros Hp Herrs Hnext.
  unfold Parser_advance, noexcept, bind at 1, modify at 1.
  cbn [fst snd]. unfold bind at 1, get at 1. cbn [fst].
  rewrite (Parser_advance_loop_skips rest errs); auto.
  cbn [set_previous scanner pending]. rewrite Hp, length_app. lia.
Qed.

(** Every token stream is a run of [Error] tokens followed by a rest that
    does not start with one. *)
Lemma pending_split (toks : list Token) :
  exists errs rest,
    toks = errs ++ rest
    /\ Forall (fun t => type t = TokenType.Error) errs
    /\ match rest with
       | t :: _ => type t <> TokenType.Error
       | [] => Logic.True
       end.
Proof.
  induction toks as [|t toks (errs & rest & -> & Herrs & Hrest)].
  - exists [], []. auto.
  - destruct (decide (type t = TokenType.Error)) as [E|E].
    + exists (t :: errs), rest. repeat split; auto.
    + exists [], (t :: errs ++ rest). repeat split; auto.
Qed.

(** [Parser::advance] always returns. *)
Lemma Parser_advance_total p err :
  exists p' err',
    Parser_advance (p, err) = Returns tt (p', err')
    /\ previous p' = current p
    /\ type (current p') <> TokenType.Error
    /\ ((length (pending (scanner p')) < length (pending (scanner p)))%nat
        \/ (pending (scanner p') = []
            /\ type (current p') = TokenType.Eof)).
Proof.
  destruct (pending_split (pending (scanner p)))
    as (errs & rest & Hp & Herrs & Hrest).
  assert (Hnext : type (next_token (scanner p) rest) <> TokenType.Error).
  { destruct rest; [discriminate | exact Hrest]. }
  eexists. eexists. split.
  { apply (Parser_advance_skipped p err errs rest); auto. }
  cbn. repeat split; auto.
  rewrite Hp, length_app. destruct rest as [|t rest]; cbn; [auto|].
  left. lia.
Qed.

(** X15: [Parser::advance] makes the current token the previous one and
    takes the next token that is no [Error] token from the scanner, [Eof]
    when none is left.  Of the [Error] tokens it skips only the first is
    reported, with its text as the message, and only outside panic mode. *)
Theorem Parser_advance_skips_errors p err errs rest :
  pending (scanner p) = errs ++ rest ->
  Forall (fun t => type t = TokenType.Error) errs ->
  type (next_token (scanner p) rest) <> TokenType.Error ->
  Parser_advance (p, err)
  = Returns tt (skipped (set_previous (current p) p) err errs rest).
Proof. apply Parser_advance_skipped. Qed.

(** X16: [Parser::advance] always returns, and the token it makes current is
    never an [Error] token; it takes at least one token off the scanner
    unless the scanner is at its end, where the current token becomes
    [Eof]. *)
Theorem Parser_advance_returns p err :
  exists p' err',
    Parser_advance (p, err) = Returns tt (p', err')
    /\ previous p' = current p
    /\ type (current p') <> TokenType.Error
    /\ ((length (pending (scanner p')) < length (pending (scanner p)))%nat
        \/ (pending (scanner p') = []
            /\ type (current p') = TokenType.Eof)).
Proof. apply Parser_advance_total. Qed.

Lemma the_parser_Returns cu err p :
  parser cu = Some p ->
  the_parser (cu, err) = Returns p (set_parser (Some p) cu, err).
Proof.
  intros H. cbv [the_parser on_parser zoom bind get ret fst snd].
  now rewrite H.
Qed.

Lemma on_parser_Returns {A} (m : P A) cu err p a p' err' :
  parser cu = Some p ->
  m (p, err) = Returns a (p', err') ->
  on_parser m (cu, err) = Returns a (set_parser (Some p') cu, err').
Proof.
  intros H Hm. cbv [on_parser zoom fst snd]. now rewrite H, Hm.
Qed.

Lemma synchronize_loop_returns fuel :
  forall cu err p,
    parser cu = Some p ->
    (length (pending (scanner p)) + 2 <= fuel)%nat
    \/ (type (current p) = TokenType.Eof /\ (1 <= fuel)%nat) ->
    exists p' err',
      synchronize_loop fuel (cu, err)
        = Returns tt (set_parser (Some p') cu, err')
      /\ statement_boundary p'.
Proof.
  induction fuel as [|fuel IH]; intros cu err p Hp Hfuel; [lia|].
  cbn [synchronize_loop].
  rewrite (bind_Returns _ _ _ _ _ (the_parser_Returns cu err p Hp)).
  unfold TokenType.eqb at 1.
  destruct (decide (type (current p) = TokenType.Eof)) as [Eeof|Eeof].
  { rewrite bool_decide_eq_true_2 by exact Eeof. cbn [negb].
    exists p, err. split; [reflexivity|]. now left. }
  rewrite bool_decide_eq_false_2 by exact Eeof. cbn [negb].
  unfold TokenType.eqb at 1.
  destruct (decide (type (previous p) = TokenType.Semicolon)) as [Esemi|Esemi].
  { rewrite bool_decide_eq_true_2 by exact Esemi.
    exists p, err. split; [reflexivity|]. right. now left. }
  rewrite bool_decide_eq_false_2 by exact Esemi.
  destruct Hfuel as [Hfuel|[Habs _]]; [|contradiction].
  destruct (Parser_advance_total p err) as (p1 & err1 & Hadv & _ & _ & Hless).
  assert (Hgo :
    exists p' err',
      (on_parser Parser_advance ;; synchronize_loop fuel)
        (set_parser (Some p) cu, err)
      = Returns tt (set_parser (Some p') cu, err')
      /\ statement_boundary p').
  { erewrite bind_Returns
      by (eapply on_parser_Returns; [reflexivity | exact Hadv]).
    destruct (IH (set_parser (Some p1) (set_parser (Some p) cu)) err1 p1
                eq_refl) as (p' & err' & Hloop & Hstop).
    { destruct Hless as [Hless|[Hnil Heof]].
      - left. lia.
      - right. split; [exact Heof | lia]. }
    exists p', err'. split; [exact Hloop | exact Hstop]. }
  destruct (type (current p)) eqn:E; try exact Hgo;
    exists p, err; (split; [reflexivity|]); right; right; rewrite E; cbn;
    auto 10.
Qed.

(** X17: [synchronize] always returns, touching nothing but the parser and
    [std::cerr], and it stops at a statement boundary: at the end of the
    input, after a [;], or before [class], [fun], [var], [for], [if],
    [while], [print] or [return]. *)
Theorem synchronize_returns cu err p :
  parser cu = Some p ->
  exists p' err',
    synchronize (cu, err) = Returns tt (set_parser (Some p') cu, err')
    /\ statement_boundary p'.
Proof.
  intros Hp. unfold synchronize.
  erewrite bind_Returns.
  2: { eapply on_parser_Returns; [exact Hp | reflexivity]. }
  cbn [fst snd].
  erewrite bind_Returns by (apply the_parser_Returns; reflexivity).
  destruct (synchronize_loop_returns
              (S (S (length (pending (scanner (set_panicMode false p))))))
              (set_parser (Some (set_panicMode false p))
                 (set_parser (Some (set_panicMode false p)) cu))
              err (set_panicMode false p) eq_refl)
    as (p' & err' & Hloop & Hstop).
  { left. lia. }
  exists p', err'. split; [exact Hloop | exact Hstop].
Qed.

(** ** Resolving locals *)

Lemma error_Returns message p err :
  exists p' err',
    error message (p, err) = Returns tt (p', err')
    /\ previous p' = previous p /\ current p' = current p
    /\ scanner p' = scanner p.
Proof.
  cbv [error noexcept bind get fst].
  destruct (panicMode p) eqn:Hp.
  - rewrite errorAt_suppressed by exact Hp. eauto 10.
  - destruct (errorAt_reports p err (previous p) message Hp) as [rest ->].
    eexists. eexists. split; [reflexivity|]. auto.
Qed.

Lemma the_compiler_Returns s : the_compiler s = Returns (compiler (fst s)) s.
Proof. reflexivity. Qed.

Lemma resolveLocal_from_newest k :
  forall cu err p,
    parser cu = Some p ->
    (k <= length (locals (compiler cu)))%nat ->
    exists i st,
      resolveLocal_from k (cu, err) = Returns i st
      /\ compiler (fst st) = compiler cu
      /\ compilingChunk (fst st) = compilingChunk cu
      /\ ((i = -1
           /\ forall j local,
                (j < k)%nat -> locals (compiler cu) !! j = Some local ->
                name local <> text (previous p))
          \/ (exists found local,
                i = Z.of_nat found /\ (found < k)%nat
                /\ locals (compiler cu) !! found = Some local
                /\ name local = text (previous p)
                /\ forall j local',
                     (found < j < k)%nat ->
                     locals (compiler cu) !! j = Some local' ->
                     name local' <> text (previous p))).
Proof.
  induction k as [|k IH]; intros cu err p Hp Hk.
  - exists (-1), (cu, err). repeat split. left. split; [reflexivity|].
    intros j local Hj. lia.
  - cbn [resolveLocal_from].
    rewrite (bind_Returns _ _ _ _ _ (the_compiler_Returns (cu, err))).
    cbn [fst]. destruct (lookup_lt_is_Some_2 (locals (compiler cu)) k)
      as [local Hl]; [lia|]. rewrite Hl.
    rewrite (bind_Returns _ _ _ _ _ (the_parser_Returns cu err p Hp)).
    unfold identifiersEqual.
    destruct (String.eqb (text (previous p)) (name local)) eqn:E.
    + apply String.eqb_eq in E.
      assert (Hfound : forall st : Compilation * ostream,
        compiler (fst st) = compiler cu ->
        compilingChunk (fst st) = compilingChunk cu ->
        exists i st',
          ret (Z.of_nat k) st = Returns i st'
          /\ compiler (fst st') = compiler cu
          /\ compilingChunk (fst st') = compilingChunk cu
          /\ ((i = -1
               /\ forall j local0, (j < S k)%nat ->
                    locals (compiler cu) !! j = Some local0 ->
                    name local0 <> text (previous p))
              \/ (exists found local0,
                    i = Z.of_nat found /\ (found < S k)%nat
                    /\ locals (compiler cu) !! found = Some local0
                    /\ name local0 = text (previous p)
                    /\ forall j local', (found < j < S k)%nat ->
                         locals (compiler cu) !! j = Some local' ->
                         name local' <> text (previous p)))).
      { intros st Hc Hch. exists (Z.of_nat k), st. repeat split; auto.
        right. exists k, local. repeat split; auto. intros j l' Hj. lia. }
      destruct (depth local =? -1).
      * destruct (error_Returns
                    "Can't read local variable in its own initializer."
                    p err) as (p' & err' & He & _).
        erewrite bind_Returns
          by (eapply on_parser_Returns; [reflexivity | exact He]).
        apply Hfound; reflexivity.
      * unfold bind at 1, ret at 1. apply Hfound; reflexivity.
    + apply String.eqb_neq in E.
      destruct (IH (set_parser (Some p) cu) err p eq_refl)
        as (i & st & Hr & Hc & Hch & Hspec); [cbn; lia|].
      exists i, st. split; [exact Hr|]. split; [exact Hc|].
      split; [exact Hch|]. cbn [compiler set_parser] in Hspec.
      destruct Hspec as [[-> Hnone]|(found & l0 & -> & Hf & Hl0 & Hn & Hnone)].
      * left. split; [reflexivity|]. intros j l' Hj Hj'.
        destruct (decide (j = k)) as [->|]; [congruence|].
        apply (Hnone j); [lia | exact Hj'].
      * right. exists found, l0. repeat split; auto.
        intros j l' Hj Hj'.
        destruct (decide (j = k)) as [->|]; [congruence|].
        apply (Hnone j); [lia | exact Hj'].
Qed.

(** X18: [resolveLocal] finds the newest local with the name of the previous
    token: it returns the greatest index below [localCount] whose local has
    that name, and -1 when no local has it; it changes neither the locals
    nor the chunk. *)
Theorem resolveLocal_newest cu err p :
  parser cu = Some p ->
  (Z.to_nat (localCount (compiler cu)) <= length (locals (compiler cu)))%nat ->
  exists i st,
    resolveLocal (cu, err) = Returns i st
    /\ compiler (fst st) = compiler cu
    /\ compilingChunk (fst st) = compilingChunk cu
    /\ ((i = -1
         /\ forall j local,
              (j < Z.to_nat (localCount (compiler cu)))%nat ->
              locals (compiler cu) !! j = Some local ->
              name local <> text (previous p))
        \/ (exists found local,
              i = Z.of_nat found
              /\ (found < Z.to_nat (localCount (compiler cu)))%nat
              /\ locals (compiler cu) !! found = Some local
              /\ name local = text (previous p)
              /\ forall j local',
                   (found < j < Z.to_nat (localCount (compiler cu)))%nat ->
                   locals (compiler cu) !! j = Some local' ->
                   name local' <> text (previous p))).
Proof.
  intros Hp Hk. unfold resolveLocal.
  rewrite (bind_Returns _ _ _ _ _ (the_compiler_Returns (cu, err))).
  cbn [fst]. now apply resolveLocal_from_newest.
Qed.

(** ** Emitting code *)

Lemma currentChunk_Returns cu err chunk :
  compilingChunk cu = Some chunk ->
  currentChunk (cu, err) = Returns chunk (cu, err).
Proof.
  intros H. cbv [currentChunk noexcept bind get ret fst]. now rewrite H.
Qed.

Lemma emitByte_Returns cu err chunk p byte :
  compilingChunk cu = Some chunk ->
  parser cu = Some p ->
  emitByte byte (cu, err) =
    Returns tt
      (mkCompilation (Some (Chunk_write byte (line (previous p)) chunk))
         (compiler cu) (Some p), err).
Proof.
  intros Hc Hp. unfold emitByte.
  rewrite (bind_Returns _ _ _ _ _ (currentChunk_Returns cu err chunk Hc)).
  rewrite (bind_Returns _ _ _ _ _ (the_parser_Returns cu err p Hp)).
  cbv [set_currentChunk modify fst snd set_compilingChunk set_parser
       compiler parser compilingChunk].
  reflexivity.
Qed.

(** X19: below 256 constants, the operand that [emitConstant] emits indexes
    the constant it has added, and the VM, run on the two bytes emitted,
    pushes that constant. *)
Theorem emitConstant_round_trip cu err chunk p value :
  compilingChunk cu = Some chunk ->
  parser cu = Some p ->
  (length (constants chunk) < 256)%nat ->
  exists chunk',
    emitConstant value (cu, err) =
      Returns tt (mkCompilation (Some chunk') (compiler cu) (Some p), err)
    /\ code chunk' =
         code chunk ++ [OpCode.to_byte OpCode.CONSTANT;
                        Z.of_nat (length (constants chunk))]
    /\ constants chunk' = constants chunk ++ [value]
    /\ forall vm,
         mChunk vm = Some chunk' ->
         pos vm = length (code chunk) ->
         (stackTop vm < STACK_MAX)%nat ->
         step vm =
           Returns None
             (set_stackTop (S (stackTop vm))
                (set_stack (<[stackTop vm := value]> (stack vm))
                   (set_pos (S (S (pos vm))) vm))).
Proof.
  intros Hc Hp Hlen.
  set (n := Z.of_nat (length (constants chunk))).
  set (l := line (previous p)).
  exists (mkChunk (code chunk ++ [0; n]) (lines chunk ++ [l; l])
            (constants chunk ++ [value])).
  split; [|split; [reflexivity|split; [reflexivity|]]].
  - unfold emitConstant, noexcept.
    erewrite bind_Returns by (apply makeConstant_no_error; exact Hc).
    replace (Z.of_nat (length (constants chunk)) mod 256) with n
      by (symmetry; apply Z.mod_small; subst n; lia).
    unfold emitBytes.
    erewrite bind_Returns by (eapply emitByte_Returns; [reflexivity|exact Hp]).
    erewrite emitByte_Returns by reflexivity.
    unfold Chunk_write. cbn [code lines constants].
    rewrite <- !app_assoc. reflexivity.
  - intros vm Hm Hpos Ht.
    rewrite (step_CONSTANT vm _ n Hm); cbn [code constants]; auto.
    + subst n. rewrite Nat2Z.id.
      rewrite lookup_app_r by lia. now rewrite Nat.sub_diag.
    + rewrite Hpos. rewrite lookup_app_r by lia. now rewrite Nat.sub_diag.
    + rewrite Hpos. rewrite lookup_app_r by lia.
      now replace (S (length (code chunk)) - length (code chunk))%nat
        with 1%nat by lia.
Qed.

(** X20: every chunk that [compile] returns ends with [RETURN]. *)
Theorem compile_ends_with_RETURN stod Scanner_new fuel code0 chunk s ok st :
  compile stod Scanner_new fuel code0 chunk s = Returns ok st ->
  exists chunk',
    compilingChunk (fst st) = Some chunk'
    /\ last (code chunk') = Some (OpCode.to_byte OpCode.RETURN).
Proof.
  unfold compile. intros H.
  apply bind_Returns_inv in H as ([] & s0 & _ & H).
  apply bind_Returns_inv in H as ([] & s1 & _ & H).
  apply bind_Returns_inv in H as ([] & s2 & _ & H).
  apply bind_Returns_inv in H as ([] & s3 & H3 & H).
  apply bind_Returns_inv in H as (p & s4 & H4 & H).
  injection H as _ <-.
  destruct s2 as [cu2 err2].
  unfold endCompiler, noexcept, emitReturn, emitOp, emitByte in H3.
  destruct (compilingChunk cu2) as [c|] eqn:Hc.
  2: { cbv [bind currentChunk noexcept get fst] in H3. rewrite Hc in H3.
       discriminate. }
  rewrite (bind_Returns _ _ _ _ _ (currentChunk_Returns cu2 err2 c Hc)) in H3.
  destruct (parser cu2) as [p2|] eqn:Hp.
  2: { cbv [bind the_parser on_parser zoom fst] in H3. rewrite Hp in H3.
       discriminate. }
  rewrite (bind_Returns _ _ _ _ _ (the_parser_Returns cu2 err2 p2 Hp)) in H3.
  injection H3 as <-.
  cbv [the_parser on_parser zoom bind get ret fst snd set_parser
       set_compilingChunk parser compilingChunk] in H4.
  injection H4 as <- <-.
  eexists. split; [reflexivity|].
  cbn [Chunk_write code]. apply last_snoc.
Qed.


(** ** Leaving a scope *)

Lemma locals_at_Returns cu err i local :
  0 <= i ->
  locals (compiler cu) !! Z.to_nat i = Some local ->
  locals_at i (cu, err) = Returns local (cu, err).
Proof.
  intros Hi Hl. cbv [locals_at bind the_compiler get ret fst].
  apply Z.ltb_ge in Hi. now rewrite Hi, Hl.
Qed.

(** What the loop of [endScope] does: it removes the [n] newest locals,
    which are all deeper than the scope, emits a [POP] for each, and stops
    at the first local that is not deeper, or at an empty table. *)
Lemma endScope_loop_pops fuel :
  forall cu err p chunk,
    parser cu = Some p ->
    compilingChunk cu = Some chunk ->
    0 <= localCount (compiler cu) ->
    (Z.to_nat (localCount (compiler cu))
     <= length (locals (compiler cu)))%nat ->
    (Z.to_nat (localCount (compiler cu)) < fuel)%nat ->
    exists (n : nat) st chunk',
      endScope_loop fuel (cu, err) = Returns tt st
      /\ snd st = err
      /\ parser (fst st) = Some p
      /\ compilingChunk (fst st) = Some chunk'
      /\ code chunk' = code chunk ++ replicate n (OpCode.to_byte OpCode.POP)
      /\ lines chunk' = lines chunk ++ replicate n (line (previous p))
      /\ constants chunk' = constants chunk
      /\ locals (compiler (fst st)) = locals (compiler cu)
      /\ scopeDepth (compiler (fst st)) = scopeDepth (compiler cu)
      /\ localCount (compiler (fst st))
         = localCount (compiler cu) - Z.of_nat n
      /\ 0 <= localCount (compiler (fst st))
      /\ (forall j local,
            localCount (compiler (fst st)) <= Z.of_nat j
              < localCount (compiler cu) ->
            locals (compiler cu) !! j = Some local ->
            scopeDepth (compiler cu) < to_size_t (depth local))
      /\ (localCount (compiler (fst st)) = 0
          \/ exists local,
               locals (compiler cu)
                 !! Z.to_nat (localCount (compiler (fst st)) - 1)
               = Some local
               /\ to_size_t (depth local) <= scopeDepth (compiler cu)).
Proof.
  induction fuel as [|fuel IH]; intros cu err p chunk Hp Hc H0 Hlen Hfuel;
    [lia|].
  cbn [endScope_loop].
  rewrite (bind_Returns _ _ _ _ _ (the_compiler_Returns (cu, err))).
  cbn [fst].
  destruct (localCount (compiler cu) >? 0) eqn:G.
  2: { rewrite Z.gtb_ltb in G. apply Z.ltb_ge in G.
       exists 0%nat, (cu, err), chunk. cbn [replicate fst snd].
       rewrite !app_nil_r, Z.sub_0_r.
       repeat split; auto; lia. }
  apply Z.gtb_lt in G.
  destruct (lookup_lt_is_Some_2 (locals (compiler cu))
              (Z.to_nat (localCount (compiler cu) - 1)))
    as [local Hl]; [lia|].
  assert (Hi : 0 <= localCount (compiler cu) - 1) by lia.
  rewrite (bind_Returns _ _ _ _ _ (locals_at_Returns cu err _ local Hi Hl)).
  destruct (to_size_t (depth local) >? scopeDepth (compiler cu)) eqn:D.
  2: { rewrite Z.gtb_ltb in D. apply Z.ltb_ge in D.
       exists 0%nat, (cu, err), chunk. cbn [replicate fst snd].
       rewrite !app_nil_r, Z.sub_0_r.
       repeat split; auto; try lia. right. exists local. auto. }
  apply Z.gtb_lt in D.
  unfold emitOp.
  rewrite (bind_Returns _ _ _ _ _
             (emitByte_Returns cu err chunk p _ Hc Hp)).
  unfold bind at 1, modify_compiler at 1, modify at 1.
  cbn [fst snd compiler set_compiler locals localCount scopeDepth
       compilingChunk parser].
  destruct (IH (mkCompilation
                  (Some (Chunk_write (OpCode.to_byte OpCode.POP)
                           (line (previous p)) chunk))
                  (mkCompiler (locals (compiler cu))
                     (localCount (compiler cu) - 1)
                     (scopeDepth (compiler cu)))
                  (Some p)) err p _ eq_refl eq_refl)
    as (n & st & chunk' & Hr & He & Hp' & Hc' & Hcode & Hlines & Hconst
        & Hloc & Hsd & Hlc & Hge & Hpopped & Hrest);
    cbn [compiler locals localCount scopeDepth] in *; try lia.
  exists (S n), st, chunk'.
  split; [exact Hr|]. split; [exact He|]. split; [exact Hp'|].
  split; [exact Hc'|].
  split.
  { rewrite Hcode. cbn [Chunk_write code replicate].
    now rewrite <- app_assoc. }
  split.
  { rewrite Hlines. cbn [Chunk_write lines replicate].
    now rewrite <- app_assoc. }
  split; [exact Hconst|]. split; [exact Hloc|]. split; [exact Hsd|].
  split; [lia|]. split; [exact Hge|]. split; [|exact Hrest].
  intros j l' Hj Hl'.
  destruct (decide (Z.of_nat j = localCount (compiler cu) - 1)) as [E|E].
  - replace j with (Z.to_nat (localCount (compiler cu) - 1)) in Hl' by lia.
    congruence.
  - apply (Hpopped j); [lia | exact Hl'].
Qed.

(** X22: [endScope] lowers [scopeDepth] by one and removes exactly the newest
    locals that are deeper than the scope it returns to, emitting one [POP]
    for each of them and nothing else; the local it stops at, if any, is
    not deeper. *)
Theorem endScope_pops cu err p chunk :
  parser cu = Some p ->
  compilingChunk cu = Some chunk ->
  0 <= localCount (compiler cu) ->
  (Z.to_nat (localCount (compiler cu)) <= length (locals (compiler cu)))%nat ->
  let outer := to_size_t (scopeDepth (compiler cu) - 1) in
  exists (n : nat) st chunk',
    endScope (cu, err) = Returns tt st
    /\ snd st = err
    /\ compilingChunk (fst st) = Some chunk'
    /\ code chunk' = code chunk ++ replicate n (OpCode.to_byte OpCode.POP)
    /\ locals (compiler (fst st)) = locals (compiler cu)
    /\ scopeDepth (compiler (fst st)) = outer
    /\ localCount (compiler (fst st)) = localCount (compiler cu) - Z.of_nat n
    /\ 0 <= localCount (compiler (fst st))
    /\ (forall j local,
          localCount (compiler (fst st)) <= Z.of_nat j
            < localCount (compiler cu) ->
          locals (compiler cu) !! j = Some local ->
          outer < to_size_t (depth local))
    /\ (localCount (compiler (fst st)) = 0
        \/ exists local,
             locals (compiler cu)
               !! Z.to_nat (localCount (compiler (fst st)) - 1)
             = Some local
             /\ to_size_t (depth local) <= outer).
Proof.
  intros Hp Hc H0 Hlen outer.
  set (cu1 := set_compiler
                (mkCompiler (locals (compiler cu))
                   (localCount (compiler cu)) outer) cu).
  assert (Heq : endScope (cu, err)
                = noexcept
                    (endScope_loop (S (Z.to_nat (localCount (compiler cu)))))
                    (cu1, err)) by reflexivity.
  destruct (endScope_loop_pops
              (S (Z.to_nat (localCount (compiler cu)))) cu1 err p chunk
              Hp Hc)
    as (n & st & chunk' & Hr & He & Hp' & Hc' & Hcode & Hlines & Hconst
        & Hloc & Hsd & Hlc & Hge & Hpopped & Hrest);
    cbn [cu1 compiler set_compiler locals localCount scopeDepth] in *;
    try lia.
  exists n, st, chunk'. rewrite Heq. unfold noexcept. rewrite Hr.
  repeat split; auto.
Qed.

(** ** What a call of [interpret] adds *)

Global Instance VM_grows_preorder : PreOrder VM_grows.
Proof.
  split.
  - intros vm. repeat split; try reflexivity.
    + exists []. now rewrite app_nil_r.
    + exists "". now rewrite append_empty_r.
  - intros a b c [H4 [[o1 H5] [e1 H6]]] [H4' [[o2 H5'] [e2 H6']]].
    repeat split.
    + etrans; eauto.
    + exists (o1 ++ o2). rewrite H5', H5. now rewrite app_assoc.
    + exists (e1 +:+ e2). rewrite H6', H6. now rewrite append_assoc.
Qed.

(** Whatever [compile] does, it only appends to [std::cerr]. *)
Lemma compile_cerr_grows stod Scanner_new fuel code chunk cu err :
  match compile stod Scanner_new fuel code chunk (cu, err) with
  | Returns _ st | Terminates st | Throws st =>
      exists diagnostics, snd st = err +:+ diagnostics
  | Undefined | OutOfFuel => Logic.True
  end.
Proof.
  unfold compile. unfold bind at 1, modify at 1. cbn [fst snd].
  set (s0 := (set_compilingChunk (Some chunk)
                (set_parser (Some (Parser_new Scanner_new code)) cu), err)).
  set (rest := (on_parser Parser_advance ;; compile_loop stod fuel ;;
                endCompiler ;; p <- the_parser ;; ret (negb (hadError p)))).
  assert (Hrest : preserves reported rest).
  { unfold rest. pres.
    - apply reported_on_parser. pres.
    - apply reported_compile_loop.
    - apply R_endCompiler; try exact _; auto with pres. }
  assert (Hgrow : forall s', reported s0 s' ->
                    exists diagnostics, snd s' = err +:+ diagnostics).
  { intros s' (p' & _ & HR). destruct HR as (_ & _ & d & Hd & _).
    - discriminate.
    - exists d. exact Hd. }
  specialize (Hrest s0). fold rest.
  destruct (rest s0); auto.
Qed.

(** X2: a call of [interpret] never removes a global and only appends to
    [std::cout] and [std::cerr], however it ends. *)
Theorem interpret_only_adds stod Scanner_new fuel code vm :
  match interpret stod Scanner_new fuel code vm with
  | Returns _ vm' | Terminates vm' | Throws vm' => VM_grows vm vm'
  | Undefined | OutOfFuel => Logic.True
  end.
Proof.
  assert (Hsame : forall f : VM -> VM,
             (forall vm, globals (f vm) = globals vm
                         /\ cout (f vm) = cout vm /\ cerr (f vm) = cerr vm) ->
             preserves VM_grows (modify f)).
  { intros f Hf. apply preserves_modify. intros v.
    destruct (Hf v) as (H1 & H2 & H3). repeat split.
    - now rewrite H1.
    - exists []. now rewrite app_nil_r.
    - exists "". now rewrite append_empty_r. }
  assert (H : preserves VM_grows (interpret stod Scanner_new fuel code)).
  { unfold interpret. pres.
    - intros v. unfold on_cu, zoom.
      pose proof (compile_cerr_grows stod Scanner_new fuel code Chunk_empty
                    (cu v) (cerr v)) as Hc.
      destruct (compile stod Scanner_new fuel code Chunk_empty (cu v, cerr v))
        as [ok st|st|st| |]; try exact I;
        (repeat split; cbn;
         [reflexivity | exists []; now rewrite app_nil_r | exact Hc]).
    - unfold interpret_chunk. pres; try (apply Hsame; intros; now cbn).
      eapply preserves_weaken; [apply VM_kept_run|].
      intros v v' [_ Hg]. exact Hg. }
  specialize (H vm). exact H.
Qed.

(** X23: an empty block is a round trip: when the newest local, if there is
    one, is not deeper than the current scope, [beginScope] followed by
    [endScope] emits nothing and leaves the locals, their count and the
    scope depth as they were. *)
Theorem empty_scope_round_trip cu err p chunk :
  parser cu = Some p ->
  compilingChunk cu = Some chunk ->
  0 <= localCount (compiler cu) ->
  (Z.to_nat (localCount (compiler cu)) <= length (locals (compiler cu)))%nat ->
  0 <= scopeDepth (compiler cu) < 2 ^ 64 - 1 ->
  (forall local,
     locals (compiler cu) !! Z.to_nat (localCount (compiler cu) - 1)
       = Some local ->
     0 < localCount (compiler cu) ->
     to_size_t (depth local) <= scopeDepth (compiler cu)) ->
  exists st,
    (beginScope ;; endScope) (cu, err) = Returns tt st
    /\ snd st = err
    /\ compilingChunk (fst st) = Some chunk
    /\ locals (compiler (fst st)) = locals (compiler cu)
    /\ localCount (compiler (fst st)) = localCount (compiler cu)
    /\ scopeDepth (compiler (fst st)) = scopeDepth (compiler cu).
Proof.
  intros Hp Hc H0 Hlen Hsd Htop.
  set (sd := scopeDepth (compiler cu)) in *.
  assert (Hup : to_size_t (sd + 1) = sd + 1)
    by (unfold to_size_t; apply Z.mod_small; lia).
  assert (Hdown : to_size_t (sd + 1 - 1) = sd)
    by (unfold to_size_t; replace (sd + 1 - 1) with sd by lia;
        apply Z.mod_small; lia).
  set (cu2 := set_compiler
                (mkCompiler (locals (compiler cu))
                   (localCount (compiler cu)) sd) cu).
  assert (Heq : (beginScope ;; endScope) (cu, err)
                = noexcept
                    (endScope_loop (S (Z.to_nat (localCount (compiler cu)))))
                    (cu2, err)).
  { cbv [beginScope endScope noexcept bind modify_compiler modify
         the_compiler get ret fst snd].
    cbn [compiler set_compiler locals localCount scopeDepth].
    fold sd. rewrite Hup, Hdown. reflexivity. }
  destruct (endScope_loop_pops
              (S (Z.to_nat (localCount (compiler cu)))) cu2 err p chunk
              Hp Hc)
    as (n & st & chunk' & Hr & He & Hp' & Hc' & Hcode & Hlines & Hconst
        & Hloc & Hsd' & Hlc & Hge & Hpopped & Hrest);
    cbn [cu2 compiler set_compiler locals localCount scopeDepth] in *;
    try lia.
  assert (Hn : n = 0%nat).
  { destruct n as [|n]; [reflexivity|exfalso].
    destruct (lookup_lt_is_Some_2 (locals (compiler cu))
                (Z.to_nat (localCount (compiler cu) - 1)))
      as [local Hl]; [lia|].
    pose proof (Hpopped (Z.to_nat (localCount (compiler cu) - 1)) local
                  ltac:(lia) Hl) as Hdeep.
    pose proof (Htop local Hl ltac:(lia)). lia. }
  subst n. cbn [replicate] in Hcode, Hlines.
  rewrite app_nil_r in Hcode, Hlines.
  exists st. rewrite Heq. unfold noexcept. rewrite Hr.
  repeat split; auto; try lia.
  rewrite Hc'. f_equal. destruct chunk, chunk'; cbn in *. congruence.
Qed.

(** ** Literals *)

Lemma substring_prefix (s t : string) :
  substring 0 (String.length s) (s +:+ t) = s.
Proof.
  induction s as [|c s IH].
  - destruct t; reflexivity.
  - change (String c (substring 0 (String.length s) (s +:+ t)) = String c s).
    now rewrite IH.
Qed.

Lemma length_append (s t : string) :
  String.length (s +:+ t) = (String.length s + String.length t)%nat.
Proof.
  induction s as [|c s IH]; [reflexivity|].
  change (S (String.length (s +:+ t))
          = S (String.length s + String.length t)).
  now rewrite IH.
Qed.

(** What [emitConstant] leaves in the chunk: the value at the end of the
    constant pool, and [CONSTANT] with the index of the value, cut to a
    byte. *)
Lemma emitConstant_emits value cu err chunk p :
  compilingChunk cu = Some chunk ->
  parser cu = Some p ->
  let l := line (previous p) in
  emitConstant value (cu, err)
  = Returns tt
      (mkCompilation
         (Some (mkChunk
                  (code chunk
                   ++ [OpCode.to_byte OpCode.CONSTANT;
                       Z.of_nat (length (constants chunk)) mod 256])
                  (lines chunk ++ [l; l])
                  (constants chunk ++ [value])))
         (compiler cu) (Some p), err).
Proof.
  intros Hc Hp l.
  unfold emitConstant, noexcept.
  erewrite bind_Returns by (apply makeConstant_no_error; exact Hc).
  unfold emitBytes.
  erewrite bind_Returns by (eapply emitByte_Returns; [reflexivity|exact Hp]).
  erewrite emitByte_Returns by reflexivity.
  unfold Chunk_write. cbn [code lines constants compiler set_compilingChunk].
  rewrite <- !app_assoc. reflexivity.
Qed.

(** X24: [string] adds to the constant pool the lexeme of the previous
    token without its first and its last character, the two quotes, and
    emits [CONSTANT] with the index of that constant, cut to a byte; it
    reports nothing. *)
Theorem string_strips_quotes cu err chunk p b first body last :
  compilingChunk cu = Some chunk ->
  parser cu = Some p ->
  text (previous p) = String first (body +:+ String last "") ->
  let l := line (previous p) in
  string_ b (cu, err)
  = Returns tt
      (mkCompilation
         (Some (mkChunk
                  (code chunk
                   ++ [OpCode.to_byte OpCode.CONSTANT;
                       Z.of_nat (length (constants chunk)) mod 256])
                  (lines chunk ++ [l; l])
                  (constants chunk ++ [VString body])))
         (compiler cu) (Some p), err).
Proof.
  intros Hc Hp Ht l. unfold string_.
  rewrite (bind_Returns _ _ _ _ _ (the_parser_Returns cu err p Hp)).
  rewrite Ht.
  change (String.length (String first (body +:+ String last "")))
    with (S (String.length (body +:+ String last ""))).
  rewrite length_append. cbn [String.length].
  replace (S (String.length body + 1) <? 2)%nat with false
    by (symmetry; apply Nat.ltb_ge; lia).
  replace (S (String.length body + 1) - 2)%nat with (String.length body)
    by lia.
  change (substring 1 (String.length body)
            (String first (body +:+ String last "")))
    with (substring 0 (String.length body) (body +:+ String last "")).
  rewrite substring_prefix.
  destruct cu as [ch cmp op]. cbn in Hc, Hp. subst ch op.
  apply (emitConstant_emits (VString body)
           (mkCompilation (Some chunk) cmp (Some p)) err chunk p);
    reflexivity.
Qed.

(** X25: a number literal that [std::stod] rejects ends the process:
    [number] is [noexcept], so the exception calls [std::terminate], with
    nothing emitted and nothing reported. *)
Theorem number_stod_throws stod cu err p b :
  parser cu = Some p ->
  stod (text (previous p)) = None ->
  number stod b (cu, err) = Terminates (set_parser (Some p) cu, err).
Proof.
  intros Hp Hs. unfold number, noexcept.
  rewrite (bind_Returns _ _ _ _ _ (the_parser_Returns cu err p Hp)).
  rewrite Hs. reflexivity.
Qed.

(** ** Declaring locals *)

Lemma in_scope_continue sd local :
  in_scope sd local ->
  negb (depth local =? -1) && (to_size_t (depth local) <? sd) = false.
Proof.
  intros [H|H].
  - rewrite H. reflexivity.
  - apply andb_false_iff. right. apply Z.ltb_ge. exact H.
Qed.

Lemma not_in_scope_break sd local :
  ~ in_scope sd local ->
  negb (depth local =? -1) && (to_size_t (depth local) <? sd) = true.
Proof.
  intros H. apply andb_true_iff. split.
  - apply negb_true_iff, Z.eqb_neq. intros E. apply H. now left.
  - apply Z.ltb_lt. destruct (Z.lt_ge_cases (to_size_t (depth local)) sd);
      [assumption|]. exfalso. apply H. now right.
Qed.

Lemma error_suppressed message p err :
  panicMode p = true -> error message (p, err) = Returns tt (p, err).
Proof.
  intros Hp. cbv [error noexcept bind get fst].
  now rewrite errorAt_suppressed.
Qed.

(** The scan of [declareVariable] is silent when no local of the current
    scope has the name, and in panic mode. *)
Lemma declareVariable_from_quiet nm (b : nat) ch cmp p err k :
  (b <= k <= length (locals cmp))%nat ->
  (forall j local, (b <= j < k)%nat -> locals cmp !! j = Some local ->
                   in_scope (scopeDepth cmp) local) ->
  (b = 0%nat
   \/ exists local, locals cmp !! (b - 1)%nat = Some local
                    /\ ~ in_scope (scopeDepth cmp) local) ->
  panicMode p = true
  \/ (forall j local, (b <= j < k)%nat -> locals cmp !! j = Some local ->
                      name local <> nm) ->
  declareVariable_from nm k (mkCompilation ch cmp (Some p), err)
  = Returns tt (mkCompilation ch cmp (Some p), err).
Proof.
  intros Hk Hscope Hb Hquiet. revert Hk Hscope Hquiet.
  induction k as [|k IH]; intros Hk Hscope Hquiet; [reflexivity|].
  cbn [declareVariable_from].
  destruct (lookup_lt_is_Some_2 (locals cmp) k) as [local Hl]; [lia|].
  erewrite bind_Returns.
  2: { apply locals_at_Returns; [lia|]. cbn [compiler].
       rewrite Nat2Z.id. exact Hl. }
  rewrite (bind_Returns _ _ _ _ _ (the_compiler_Returns _)).
  cbn [fst compiler].
  destruct (decide (b = S k)) as [Hbk|Hbk].
  - destruct Hb as [Hb|(l0 & Hl0 & Hout)]; [lia|].
    replace (b - 1)%nat with k in Hl0 by lia.
    assert (l0 = local) by congruence. subst l0.
    now rewrite not_in_scope_break.
  - rewrite in_scope_continue by (apply (Hscope k); [lia|exact Hl]).
    assert (Hrest : declareVariable_from nm k
                      (mkCompilation ch cmp (Some p), err)
                    = Returns tt (mkCompilation ch cmp (Some p), err)).
    { apply IH; [lia| |].
      - intros j l Hj. apply Hscope. lia.
      - destruct Hquiet as [Hq|Hq]; [now left|right].
        intros j l Hj. apply Hq. lia. }
    unfold identifiersEqual.
    destruct (String.eqb nm (name local)) eqn:E.
    + apply String.eqb_eq in E.
      destruct Hquiet as [Hq|Hq].
      2: { exfalso. apply (Hq k local); [lia|exact Hl|auto]. }
      erewrite bind_Returns.
      2: { eapply on_parser_Returns; [reflexivity|].
           apply error_suppressed. exact Hq. }
      exact Hrest.
    + unfold bind at 1, ret at 1. exact Hrest.
Qed.

(** Outside panic mode, the scan of [declareVariable] reports the first
    local of the current scope that has the name, and nothing more. *)
Lemma declareVariable_from_reports nm (b : nat) ch cmp p err k :
  (b <= k <= length (locals cmp))%nat ->
  (forall j local, (b <= j < k)%nat -> locals cmp !! j = Some local ->
                   in_scope (scopeDepth cmp) local) ->
  (b = 0%nat
   \/ exists local, locals cmp !! (b - 1)%nat = Some local
                    /\ ~ in_scope (scopeDepth cmp) local) ->
  panicMode p = false ->
  (exists j local, (b <= j < k)%nat /\ locals cmp !! j = Some local
                   /\ name local = nm) ->
  exists p' err',
    error "Re-definition of an existing variable in this scope." (p, err)
      = Returns tt (p', err')
    /\ hadError p' = true
    /\ previous p' = previous p
    /\ declareVariable_from nm k (mkCompilation ch cmp (Some p), err)
       = Returns tt (mkCompilation ch cmp (Some p'), err').
Proof.
  intros Hk Hscope Hb Hpanic Hdup. revert Hk Hscope Hdup.
  induction k as [|k IH]; intros Hk Hscope (j & local & Hj & Hl & Hn);
    [lia|].
  cbn [declareVariable_from].
  destruct (lookup_lt_is_Some_2 (locals cmp) k) as [lk Hlk]; [lia|].
  erewrite bind_Returns.
  2: { apply locals_at_Returns; [lia|]. cbn [compiler].
       rewrite Nat2Z.id. exact Hlk. }
  rewrite (bind_Returns _ _ _ _ _ (the_compiler_Returns _)).
  cbn [fst compiler].
  rewrite in_scope_continue by (apply (Hscope k); [lia|exact Hlk]).
  unfold identifiersEqual.
  destruct (String.eqb nm (name lk)) eqn:E.
  - destruct (errorAt_reports p err (previous p)
                "Re-definition of an existing variable in this scope."
                Hpanic) as [rest Hr].
    assert (He : error "Re-definition of an existing variable in this scope."
                   (p, err)
                 = Returns tt (set_hadError true (set_panicMode true p),
                               err +:+ "[line " +:+ rest)).
    { cbv [error noexcept bind get fst]. now rewrite Hr. }
    eexists. eexists. split; [exact He|]. split; [reflexivity|].
    split; [reflexivity|].
    erewrite bind_Returns
      by (eapply on_parser_Returns; [reflexivity | exact He]).
    apply (declareVariable_from_quiet nm b); auto; try lia.
    + intros j' l' Hj'. apply Hscope. lia.
  - apply String.eqb_neq in E. unfold bind at 1, ret at 1.
    apply IH; [lia| |].
    + intros j' l' Hj'. apply Hscope. lia.
    + exists j, local. repeat split; auto; try lia.
      destruct (decide (j = k)) as [->|]; [|lia].
      exfalso. apply E. congruence.
Qed.

(** What [addLocal] does below its capacity. *)
Lemma addLocal_Returns nm ch cmp op err :
  0 <= localCount cmp < UINT8_COUNT ->
  length (locals cmp) = Z.to_nat UINT8_COUNT ->
  addLocal nm (mkCompilation ch cmp op, err)
  = Returns tt
      (mkCompilation ch
         (mkCompiler
            (<[Z.to_nat (localCount cmp) := mkLocal nm (-1)]> (locals cmp))
            (localCount cmp + 1) (scopeDepth cmp)) op, err).
Proof.
  intros Hc Hl. unfold addLocal.
  rewrite (bind_Returns _ _ _ _ _ (the_compiler_Returns _)).
  cbn [fst compiler].
  replace (localCount cmp =? UINT8_COUNT) with false
    by (symmetry; apply Z.eqb_neq; lia).
  destruct (lookup_lt_is_Some_2 (locals cmp) (Z.to_nat (localCount cmp)))
    as [local Hlk]; [unfold UINT8_COUNT in *; lia|].
  erewrite bind_Returns by (apply locals_at_Returns; [lia | exact Hlk]).
  reflexivity.
Qed.

(** X30: in a block, [declareVariable] adds the name of the previous token as
    a local that is not yet initialized.  A local of the same name in an
    enclosing scope is shadowed without a diagnostic; a local of the same
    name in the current scope makes it report a re-definition, and the
    local is added all the same.  The current scope is the run of newest
    locals, from index [b] on, that are uninitialized or not shallower than
    [scopeDepth]. *)
Theorem declareVariable_shadowing ch cmp p err (b : nat) :
  panicMode p = false ->
  scopeDepth cmp <> 0 ->
  0 <= localCount cmp < UINT8_COUNT ->
  length (locals cmp) = Z.to_nat UINT8_COUNT ->
  (b <= Z.to_nat (localCount cmp))%nat ->
  (forall j local,
     (b <= j < Z.to_nat (localCount cmp))%nat ->
     locals cmp !! j = Some local -> in_scope (scopeDepth cmp) local) ->
  (b = 0%nat
   \/ exists local, locals cmp !! (b - 1)%nat = Some local
                    /\ ~ in_scope (scopeDepth cmp) local) ->
  let nm := text (previous p) in
  let added :=
    mkCompiler
      (<[Z.to_nat (localCount cmp) := mkLocal nm (-1)]> (locals cmp))
      (localCount cmp + 1) (scopeDepth cmp) in
  ((forall j local,
      (b <= j < Z.to_nat (localCount cmp))%nat ->
      locals cmp !! j = Some local -> name local <> nm) ->
   declareVariable (mkCompilation ch cmp (Some p), err)
   = Returns tt (mkCompilation ch added (Some p), err))
  /\ ((exists j local,
         (b <= j < Z.to_nat (localCount cmp))%nat
         /\ locals cmp !! j = Some local /\ name local = nm) ->
      exists p' err',
        error "Re-definition of an existing variable in this scope." (p, err)
          = Returns tt (p', err')
        /\ hadError p' = true
        /\ declareVariable (mkCompilation ch cmp (Some p), err)
           = Returns tt (mkCompilation ch added (Some p'), err')).
Proof.
  intros Hpanic Hsd Hc Hl Hb Hscope Hbar nm added.
  assert (Hstart : forall k : C unit,
    declareVariable (mkCompilation ch cmp (Some p), err)
    = (declareVariable_from nm (Z.to_nat (localCount cmp)) ;; addLocal nm)
        (mkCompilation ch cmp (Some p), err)).
  { intros _. unfold declareVariable.
    rewrite (bind_Returns _ _ _ _ _ (the_compiler_Returns _)).
    cbn [fst compiler].
    replace (scopeDepth cmp =? 0) with false
      by (symmetry; apply Z.eqb_neq; exact Hsd).
    erewrite bind_Returns by (apply the_parser_Returns; reflexivity).
    reflexivity. }
  rewrite (Hstart (ret tt)). split.
  - intros Hnone.
    erewrite bind_Returns.
    2: { apply (declareVariable_from_quiet nm b); auto.
         unfold UINT8_COUNT in *. lia. }
    now apply addLocal_Returns.
  - intros Hdup.
    destruct (declareVariable_from_reports nm b ch cmp p err
                (Z.to_nat (localCount cmp)))
      as (p' & err' & He & Hh & _ & Hr); auto.
    { unfold UINT8_COUNT in *. lia. }
    exists p', err'. split; [exact He|]. split; [exact Hh|].
    erewrite bind_Returns by exact Hr.
    now apply addLocal_Returns.
Qed.

(** ** Literals, globals and the stack bound *)

(** X26: the byte that [literal] emits for [false], [nil] or [true] makes
    the VM push that very value, and [literal] reports nothing. *)
Theorem literal_round_trip cu err chunk p b value :
  compilingChunk cu = Some chunk ->
  parser cu = Some p ->
  (type (previous p) = TokenType.False /\ value = VBool false)
  \/ (type (previous p) = TokenType.Nil /\ value = VNil)
  \/ (type (previous p) = TokenType.True /\ value = VBool true) ->
  exists byte,
    let chunk' := Chunk_write byte (line (previous p)) chunk in
    literal b (cu, err)
    = Returns tt (mkCompilation (Some chunk') (compiler cu) (Some p), err)
    /\ forall vm,
         mChunk vm = Some chunk' ->
         pos vm = length (code chunk) ->
         (stackTop vm < STACK_MAX)%nat ->
         step vm =
           Returns None
             (set_stackTop (S (stackTop vm))
                (set_stack (<[stackTop vm := value]> (stack vm))
                   (set_pos (S (pos vm)) vm))).
Proof.
  intros Hc Hp Hty.
  assert (Hstep : forall op v vm,
            execute (Some op) = (push v ;; ret None) ->
            mChunk vm
            = Some (Chunk_write (OpCode.to_byte op) (line (previous p)) chunk) ->
            pos vm = length (code chunk) ->
            (stackTop vm < STACK_MAX)%nat ->
            OpCode.of_byte (OpCode.to_byte op) = Some op ->
            step vm =
              Returns None
                (set_stackTop (S (stackTop vm))
                   (set_stack (<[stackTop vm := v]> (stack vm))
                      (set_pos (S (pos vm)) vm)))).
  { intros op v vm Hex Hm Hpos Ht Hop.
    rewrite (step_fetch vm _ (OpCode.to_byte op) Hm).
    - rewrite Hop, Hex.
      erewrite bind_Returns by (eapply push_Returns; cbn; eauto).
      reflexivity.
    - unfold Chunk_write. cbn [code]. rewrite Hpos.
      rewrite lookup_app_r by lia. now rewrite Nat.sub_diag. }
  destruct cu as [ch cmp op]. cbn in Hc, Hp. subst ch op. cbn [compiler].
  destruct Hty as [[Hty ->]|[[Hty ->]|[Hty ->]]].
  - exists (OpCode.to_byte OpCode.FALSE). split.
    + unfold literal.
      erewrite bind_Returns by (apply the_parser_Returns; reflexivity).
      rewrite Hty. apply emitByte_Returns; reflexivity.
    + intros vm Hm Hpos Ht. apply (Hstep OpCode.FALSE); auto.
  - exists (OpCode.to_byte OpCode.NIL). split.
    + unfold literal.
      erewrite bind_Returns by (apply the_parser_Returns; reflexivity).
      rewrite Hty. apply emitByte_Returns; reflexivity.
    + intros vm Hm Hpos Ht. apply (Hstep OpCode.NIL); auto.
  - exists (OpCode.to_byte OpCode.TRUE). split.
    + unfold literal.
      erewrite bind_Returns by (apply the_parser_Returns; reflexivity).
      rewrite Hty. apply emitByte_Returns; reflexivity.
    + intros vm Hm Hpos Ht. apply (Hstep OpCode.TRUE); auto.
Qed.

(** [resolveLocal]'s loop finds nothing when no local has the name. *)
Lemma resolveLocal_from_none ch cmp p err k :
  (k <= length (locals cmp))%nat ->
  (forall j local,
     (j < k)%nat -> locals cmp !! j = Some local ->
     name local <> text (previous p)) ->
  resolveLocal_from k (mkCompilation ch cmp (Some p), err)
  = Returns (-1) (mkCompilation ch cmp (Some p), err).
Proof.
  induction k as [|k IH]; intros Hk Hno; [reflexivity|].
  cbn [resolveLocal_from].
  rewrite (bind_Returns _ _ _ _ _ (the_compiler_Returns _)).
  cbn [fst compiler].
  destruct (lookup_lt_is_Some_2 (locals cmp) k ltac:(lia)) as [local Hl].
  rewrite Hl.
  erewrite bind_Returns by (apply the_parser_Returns; reflexivity).
  cbn [set_parser compilingChunk compiler].
  assert (Hne : identifiersEqual (text (previous p)) (name local) = false).
  { apply String.eqb_neq. intros Heq. apply (Hno k local); auto. }
  rewrite Hne. apply IH; [lia|].
  intros j l Hj. apply Hno. lia.
Qed.

(** X27: a name that no local has is read as a global: [namedVariable],
    when it is not the target of an assignment, adds the name to the
    constant pool and emits [GET_GLOBAL] with its index, reporting nothing;
    the VM run on the two bytes pushes the value of the global of that
    name. *)
Theorem namedVariable_reads_global stod fuel chunk cmp p err canAssign :
  (Z.to_nat (localCount cmp) <= length (locals cmp))%nat ->
  (forall j local,
     (j < Z.to_nat (localCount cmp))%nat -> locals cmp !! j = Some local ->
     name local <> text (previous p)) ->
  (length (constants chunk) < 256)%nat ->
  canAssign = false \/ type (current p) <> TokenType.Equal ->
  let nm := text (previous p) in
  let l := line (previous p) in
  let index := Z.of_nat (length (constants chunk)) in
  let chunk' :=
    mkChunk (code chunk ++ [OpCode.to_byte OpCode.GET_GLOBAL; index])
            (lines chunk ++ [l; l])
            (constants chunk ++ [VString nm]) in
  namedVariable stod (S fuel) canAssign
    (mkCompilation (Some chunk) cmp (Some p), err)
  = Returns tt (mkCompilation (Some chunk') cmp (Some p), err)
  /\ forall vm value,
       mChunk vm = Some chunk' ->
       pos vm = length (code chunk) ->
       globals vm !! nm = Some value ->
       (stackTop vm < STACK_MAX)%nat ->
       step vm =
         Returns None
           (set_stackTop (S (stackTop vm))
              (set_stack (<[stackTop vm := value]> (stack vm))
                 (set_pos (S (S (pos vm))) vm))).
Proof.
  intros Hk Hno Hlen Hassign nm l index chunk'. split.
  - cbn [namedVariable].
    assert (Hr : resolveLocal (mkCompilation (Some chunk) cmp (Some p), err)
                 = Returns (-1) (mkCompilation (Some chunk) cmp (Some p), err)).
    { unfold resolveLocal.
      rewrite (bind_Returns _ _ _ _ _ (the_compiler_Returns _)).
      apply resolveLocal_from_none; assumption. }
    rewrite (bind_Returns _ _ _ _ _ Hr).
    change (negb (-1 =? -1)) with false. cbv beta iota.
    assert (Hi : identifierConstant
                   (mkCompilation (Some chunk) cmp (Some p), err)
                 = Returns index
                     (mkCompilation
                        (Some (mkChunk (code chunk) (lines chunk)
                                 (constants chunk ++ [VString nm])))
                        cmp (Some p), err)).
    { unfold identifierConstant, noexcept.
      erewrite bind_Returns by (apply the_parser_Returns; reflexivity).
      cbn [set_parser compilingChunk compiler].
      erewrite makeConstant_no_error by reflexivity.
      cbn [set_compilingChunk parser compiler]. f_equal.
      apply Z.mod_small. lia. }
    erewrite bind_Returns
      by (erewrite bind_Returns by exact Hi; reflexivity).
    cbv beta iota.
    assert (Hm : (if canAssign then match_ TokenType.Equal else ret false)
                   (mkCompilation
                      (Some (mkChunk (code chunk) (lines chunk)
                               (constants chunk ++ [VString nm])))
                      cmp (Some p), err)
                 = Returns false
                     (mkCompilation
                        (Some (mkChunk (code chunk) (lines chunk)
                                 (constants chunk ++ [VString nm])))
                        cmp (Some p), err)).
    { destruct canAssign; [|reflexivity].
      destruct Hassign as [Hf|Hne]; [discriminate|].
      unfold match_, noexcept.
      erewrite bind_Returns by (apply the_parser_Returns; reflexivity).
      unfold Parser_check.
      destruct (TokenType.eqb (type (current p)) TokenType.Equal) eqn:E;
        [|reflexivity].
      exfalso. apply Hne. unfold TokenType.eqb in E.
      apply bool_decide_eq_true in E. exact E. }
    rewrite (bind_Returns _ _ _ _ _ Hm). cbv beta iota.
    unfold emitBytes.
    erewrite bind_Returns by (eapply emitByte_Returns; reflexivity).
    erewrite emitByte_Returns by reflexivity.
    unfold Chunk_write, chunk'. cbn [code lines constants compiler].
    rewrite <- !app_assoc. cbn [app].
    replace (to_uint8 index) with index; [reflexivity|].
    unfold to_uint8. symmetry. apply Z.mod_small. subst index. lia.
  - intros vm value Hm Hpos Hg Ht.
    apply (step_get_global vm chunk' index nm value); auto.
    + unfold chunk'. cbn [code]. rewrite Hpos.
      rewrite lookup_app_r by lia. now rewrite Nat.sub_diag.
    + unfold chunk'. cbn [code]. rewrite Hpos.
      rewrite lookup_app_r by lia.
      now replace (S (length (code chunk)) - length (code chunk))%nat
        with 1%nat by lia.
    + unfold chunk', index. cbn [constants]. rewrite Nat2Z.id.
      rewrite lookup_app_r by lia. now rewrite Nat.sub_diag.
Qed.

(** X28: the VM does not check the bound of its stack: an instruction that
    pushes when the stack holds [STACK_MAX] values writes past the end of
    the array, which is undefined behaviour. *)
Theorem step_push_full_stack vm chunk op :
  mChunk vm = Some chunk ->
  code chunk !! pos vm = Some (OpCode.to_byte op) ->
  op = OpCode.NIL \/ op = OpCode.TRUE \/ op = OpCode.FALSE
  \/ (op = OpCode.CONSTANT
      /\ exists index value,
           code chunk !! S (pos vm) = Some index
           /\ constants chunk !! Z.to_nat index = Some value) ->
  (STACK_MAX <= stackTop vm)%nat ->
  step vm = Undefined.
Proof.
  intros Hc Hb Hop Hfull.
  assert (Hpush : forall v vm', stackTop vm' = stackTop vm ->
                    push v vm' = Undefined).
  { intros v vm' Hs. unfold push, noexcept, bind, get.
    rewrite Hs.
    destruct (stackTop vm <? STACK_MAX)%nat eqn:E; [|reflexivity].
    apply Nat.ltb_lt in E. lia. }
  rewrite (step_fetch _ _ _ Hc Hb).
  destruct Hop as [->|[->|[->|[-> (index & value & Hi & Hv)]]]].
  - cbn [OpCode.of_byte OpCode.to_byte execute]. unfold bind at 1.
    now rewrite Hpush.
  - cbn [OpCode.of_byte OpCode.to_byte execute]. unfold bind at 1.
    now rewrite Hpush.
  - cbn [OpCode.of_byte OpCode.to_byte execute]. unfold bind at 1.
    now rewrite Hpush.
  - change (OpCode.of_byte (OpCode.to_byte OpCode.CONSTANT))
      with (Some OpCode.CONSTANT).
    cbn [execute].
    erewrite bind_Returns by (eapply readConstant_Returns; cbn; eauto).
    unfold bind at 1. now rewrite Hpush.
Qed.

(** X29: a local is not readable in its own initializer: between
    [addLocal] and [markInitialized] its depth is -1, and [resolveLocal]
    on its name reports that, still returning its index; once
    [markInitialized] has run, [resolveLocal] returns the index and reports
    nothing. *)
Theorem resolveLocal_own_initializer ch cmp p err :
  panicMode p = false ->
  0 <= localCount cmp < UINT8_COUNT ->
  length (locals cmp) = Z.to_nat UINT8_COUNT ->
  let nm := text (previous p) in
  let slot := Z.to_nat (localCount cmp) in
  let declared :=
    mkCompiler (<[slot := mkLocal nm (-1)]> (locals cmp))
               (localCount cmp + 1) (scopeDepth cmp) in
  let defined :=
    mkCompiler (<[slot := mkLocal nm (to_int (scopeDepth cmp))]> (locals cmp))
               (localCount cmp + 1) (scopeDepth cmp) in
  (exists p' err',
     error "Can't read local variable in its own initializer." (p, err)
     = Returns tt (p', err')
     /\ hadError p' = true
     /\ (addLocal nm ;; resolveLocal) (mkCompilation ch cmp (Some p), err)
        = Returns (localCount cmp) (mkCompilation ch declared (Some p'), err'))
  /\ (to_int (scopeDepth cmp) <> -1 ->
      (addLocal nm ;; markInitialized ;; resolveLocal)
        (mkCompilation ch cmp (Some p), err)
      = Returns (localCount cmp) (mkCompilation ch defined (Some p), err)).
Proof.
  intros Hpanic Hlc Hlen nm slot declared defined.
  assert (Hslot : (slot < length (locals cmp))%nat).
  { subst slot. rewrite Hlen. unfold UINT8_COUNT in *. lia. }
  assert (Hfind : forall (d : Z) (pp : Parser) e,
            previous pp = previous p ->
            d <> -1 ->
            resolveLocal
              (mkCompilation ch
                 (mkCompiler (<[slot := mkLocal nm d]> (locals cmp))
                    (localCount cmp + 1) (scopeDepth cmp)) (Some pp), e)
            = Returns (localCount cmp)
                (mkCompilation ch
                   (mkCompiler (<[slot := mkLocal nm d]> (locals cmp))
                      (localCount cmp + 1) (scopeDepth cmp)) (Some pp), e)).
  { intros d pp e Hprev Hd. unfold resolveLocal.
    rewrite (bind_Returns _ _ _ _ _ (the_compiler_Returns _)).
    cbn [fst compiler localCount].
    replace (Z.to_nat (localCount cmp + 1)) with (S slot) by (subst slot; lia).
    cbn [resolveLocal_from].
    rewrite (bind_Returns _ _ _ _ _ (the_compiler_Returns _)).
    cbn [fst compiler locals].
    rewrite list_lookup_insert_eq by exact Hslot.
    erewrite bind_Returns by (apply the_parser_Returns; reflexivity).
    cbn [set_parser compilingChunk compiler name depth].
    rewrite Hprev. fold nm. unfold identifiersEqual. rewrite String.eqb_refl.
    destruct (d =? -1) eqn:E; [apply Z.eqb_eq in E; contradiction|].
    cbn [bind ret]. unfold bind, ret. f_equal. subst slot. lia. }
  split.
  - destruct (errorAt_reports p err (previous p)
                "Can't read local variable in its own initializer." Hpanic)
      as [rest Hr].
    assert (Herr : error "Can't read local variable in its own initializer."
                     (p, err)
                   = Returns tt (set_hadError true (set_panicMode true p),
                                 err +:+ "[line " +:+ rest)).
    { cbv [error noexcept bind get fst]. now rewrite Hr. }
    exists (set_hadError true (set_panicMode true p)),
           (err +:+ "[line " +:+ rest).
    split; [exact Herr|]. split; [reflexivity|].
    erewrite bind_Returns by (apply addLocal_Returns; assumption).
    fold slot nm. unfold resolveLocal.
    rewrite (bind_Returns _ _ _ _ _ (the_compiler_Returns _)).
    cbn [fst compiler localCount].
    replace (Z.to_nat (localCount cmp + 1)) with (S slot) by (subst slot; lia).
    cbn [resolveLocal_from].
    rewrite (bind_Returns _ _ _ _ _ (the_compiler_Returns _)).
    cbn [fst compiler locals].
    rewrite list_lookup_insert_eq by exact Hslot.
    erewrite bind_Returns by (apply the_parser_Returns; reflexivity).
    cbn [set_parser compilingChunk compiler name depth].
    fold nm. unfold identifiersEqual. rewrite String.eqb_refl.
    change (-1 =? -1) with true. cbv iota.
    erewrite bind_Returns
      by (eapply on_parser_Returns; [reflexivity | exact Herr]).
    unfold ret, declared. cbn [set_parser compilingChunk compiler].
    f_equal. subst slot. lia.
  - intros Hd.
    erewrite bind_Returns by (apply addLocal_Returns; assumption).
    fold slot nm.
    assert (Hmark :
              markInitialized
                (mkCompilation ch
                   (mkCompiler (<[slot := mkLocal nm (-1)]> (locals cmp))
                      (localCount cmp + 1) (scopeDepth cmp)) (Some p), err)
              = Returns tt (mkCompilation ch defined (Some p), err)).
    { unfold markInitialized.
      rewrite (bind_Returns _ _ _ _ _ (the_compiler_Returns _)).
      cbn [fst compiler localCount].
      replace (localCount cmp + 1 - 1) with (localCount cmp) by lia.
      erewrite bind_Returns
        by (apply locals_at_Returns;
            [lia | cbn [compiler locals]; fold slot;
                   apply list_lookup_insert_eq; exact Hslot]).
      unfold modify_compiler, modify.
      cbn [fst snd compiler set_compiler locals localCount scopeDepth name].
      fold slot. rewrite list_insert_insert_eq. reflexivity. }
    rewrite (bind_Returns _ _ _ _ _ Hmark).
    apply Hfind; [reflexivity | exact Hd].
Qed.

(** [run_error_resets_stack] on [GET_GLOBAL] of an undefined [x], with two
    values on the stack. *)
Lemma run_error_resets_stack_witness :
  exists vm',
    run 5 (loaded get_x_chunk [VNil; VBool true])
      = Returns InterpretResult.RUNTIME_ERROR vm'
    /\ stackTop vm' = 0%nat.
Proof.
  eexists. split; [vm_compute; reflexivity|].
  eapply (run_error_resets_stack 5 (loaded get_x_chunk [VNil; VBool true])
            InterpretResult.RUNTIME_ERROR).
  - vm_compute. reflexivity.
  - discriminate.
Defined.

(** [run_OK_by_RETURN] on the chunk of [print 1;]-like code
    [NIL; PRINT; RETURN]. *)
Lemma run_OK_by_RETURN_witness :
  exists vm' chunk before,
    run 5 (loaded (mkChunk [1; 19; 20] [1; 1; 1] []) [])
      = Returns InterpretResult.OK vm'
    /\ mChunk vm' = Some chunk /\ pos vm' = S before
    /\ code chunk !! before = Some (OpCode.to_byte OpCode.RETURN).
Proof.
  eexists.
  destruct (run_OK_by_RETURN 5 (loaded (mkChunk [1; 19; 20] [1; 1; 1] []) [])
              _ ltac:(vm_compute; reflexivity))
    as (chunk & before & H).
  exists chunk, before. split; [vm_compute; reflexivity | exact H].
Defined.

(** [step_unknown_opcode_skipped] on the byte 200. *)
Lemma step_unknown_opcode_skipped_witness :
  step (loaded (mkChunk [200; 20] [1; 1] []) [VNil])
  = Returns None (set_pos 1 (loaded (mkChunk [200; 20] [1; 1] []) [VNil])).
Proof.
  exact (step_unknown_opcode_skipped
           (loaded (mkChunk [200; 20] [1; 1] []) [VNil])
           (mkChunk [200; 20] [1; 1] []) 200 eq_refl eq_refl
           (or_intror eq_refl)).
Defined.

(** [run_off_the_end] on the chunk [NIL] without [RETURN], after its only
    byte. *)
Lemma run_off_the_end_witness :
  run 3 (set_pos 1 (loaded (mkChunk [1] [1] []) [VNil]))
  = Terminates (set_pos 2 (set_pos 1 (loaded (mkChunk [1] [1] []) [VNil]))).
Proof.
  exact (run_off_the_end 2
           (set_pos 1 (loaded (mkChunk [1] [1] []) [VNil]))
           (mkChunk [1] [1] []) eq_refl (le_n 1)).
Defined.

(** ** The properties above at concrete inputs *)

(** [step_negate] on the number 1; on [true] with a line table that has
    no entry 17, where the look-up throws; and on [true] with a line table
    of 18 entries, where the error is returned. *)
Lemma step_negate_witness :
  step (loaded (mkChunk [17; 20] [1; 1] []) [VNumber one])
  = Returns None
      (set_stackTop 1
         (set_stack
            (<[0%nat := VNumber (SFopp one)]>
               (stack (loaded (mkChunk [17; 20] [1; 1] []) [VNumber one])))
            (set_stackTop 0
               (set_pos 1
                  (loaded (mkChunk [17; 20] [1; 1] []) [VNumber one])))))
  /\ step (loaded (mkChunk [17; 20] [1; 1] []) [VBool true])
     = Throws
         (set_cerr ("Operand must be a number." +:+ endl)
            (set_pos 1 (loaded (mkChunk [17; 20] [1; 1] []) [VBool true])))
  /\ step (loaded (mkChunk (17 :: replicate 17 20) (replicate 18 3) [])
             [VBool true])
     = Returns (Some InterpretResult.RUNTIME_ERROR)
         (set_stackTop 0
            (set_cerr ("Operand must be a number." +:+ endl
                       +:+ "[line 3] in script" +:+ endl)
               (set_pos 1
                  (loaded (mkChunk (17 :: replicate 17 20) (replicate 18 3) [])
                     [VBool true])))).
Proof.
  split; [|split].
  - exact (step_negate (loaded (mkChunk [17; 20] [1; 1] []) [VNumber one])
             (mkChunk [17; 20] [1; 1] []) 0 (VNumber one)
             eq_refl eq_refl eq_refl eq_refl eq_refl).
  - exact (step_negate (loaded (mkChunk [17; 20] [1; 1] []) [VBool true])
             (mkChunk [17; 20] [1; 1] []) 0 (VBool true)
             eq_refl eq_refl eq_refl eq_refl eq_refl).
  - exact (step_negate
             (loaded (mkChunk (17 :: replicate 17 20) (replicate 18 3) [])
                [VBool true])
             (mkChunk (17 :: replicate 17 20) (replicate 18 3) []) 0
             (VBool true)
             eq_refl eq_refl eq_refl eq_refl eq_refl).
Defined.


(** [step_undefined_global] on [GET_GLOBAL] of [x] with no globals: the
    operand 0 is an index of the line table, and the error is returned;
    and on [GET_GLOBAL] with operand 3 and a line table of three entries,
    where the look-up throws. *)
Lemma step_undefined_global_witness :
  step (loaded get_x_chunk [VNil; VNil])
  = Returns (Some InterpretResult.RUNTIME_ERROR)
      (set_stackTop 0
         (set_cerr ("Undefined variable 'x'." +:+ endl
                    +:+ "[line 1] in script" +:+ endl)
            (set_pos 2 (loaded get_x_chunk [VNil; VNil]))))
  /\ step (loaded (mkChunk [6; 3; 20] [1; 1; 1]
                     [VNil; VNil; VNil; VString "x"]) [VNil])
     = Throws
         (set_cerr ("Undefined variable 'x'." +:+ endl)
            (set_pos 2
               (loaded (mkChunk [6; 3; 20] [1; 1; 1]
                          [VNil; VNil; VNil; VString "x"]) [VNil]))).
Proof.
  split.
  - exact (proj1 (step_undefined_global (loaded get_x_chunk [VNil; VNil])
                    get_x_chunk OpCode.GET_GLOBAL 0 "x" eq_refl
                    (or_introl eq_refl) eq_refl eq_refl eq_refl eq_refl)).
  - exact (proj1 (step_undefined_global
                    (loaded (mkChunk [6; 3; 20] [1; 1; 1]
                               [VNil; VNil; VNil; VString "x"]) [VNil])
                    (mkChunk [6; 3; 20] [1; 1; 1]
                       [VNil; VNil; VNil; VString "x"])
                    OpCode.GET_GLOBAL 3 "x" eq_refl
                    (or_introl eq_refl) eq_refl eq_refl eq_refl eq_refl)).
Defined.

(** [step_set_global] on [x], defined as [nil], and the value [true]. *)
Lemma step_set_global_witness :
  step (set_globals (<["x" := VNil]> ∅) (loaded set_x_chunk [VBool true]))
  = Returns None
      (set_globals (<["x" := VBool true]> (<["x" := VNil]> ∅))
         (set_pos 2
            (set_globals (<["x" := VNil]> ∅)
               (loaded set_x_chunk [VBool true])))).
Proof.
  exact (step_set_global
           (set_globals (<["x" := VNil]> ∅) (loaded set_x_chunk [VBool true]))
           set_x_chunk 0 "x" VNil 0 (VBool true)
           eq_refl eq_refl eq_refl eq_refl eq_refl eq_refl eq_refl).
Defined.

(** [step_constant] on an operand outside the constant pool. *)
Lemma step_constant_witness :
  step (loaded (mkChunk [0; 7; 20] [1; 1; 1] [VNumber one]) [])
  = Terminates
      (set_pos 2 (loaded (mkChunk [0; 7; 20] [1; 1; 1] [VNumber one]) [])).
Proof.
  exact (step_constant
           (loaded (mkChunk [0; 7; 20] [1; 1; 1] [VNumber one]) [])
           (mkChunk [0; 7; 20] [1; 1; 1] [VNumber one]) 7
           eq_refl eq_refl eq_refl (le_n_S _ _ (Nat.le_0_l _))).
Defined.

(** [compile_ok_iff_silent] on [var a = ;], which fails with one
    diagnostic. *)
Lemma compile_ok_iff_silent_witness :
  exists diagnostics,
    snd no_initializer_compiled = "" +:+ diagnostics
    /\ (false = true <-> diagnostics = "").
Proof.
  apply (compile_ok_iff_silent stod_digits (scanned no_initializer_tokens 1)
           100 no_initializer_source Chunk_empty Compilation_new "" false
           no_initializer_compiled).
  vm_compute. reflexivity.
Defined.


(** [Parser_advance_skips_errors] on an [Error] token followed by [;]. *)
Lemma Parser_advance_skips_errors_witness :
  Parser_advance (error_parser, "")
  = Returns tt
      (mkParser (tok TokenType.Semicolon ";" 1) (tok TokenType.Print "print" 1)
         (mkScanner [] 1) true true,
       "[line 1] Error: Unexpected character." +:+ endl).
Proof.
  apply (Parser_advance_skips_errors error_parser ""
           [tok TokenType.Error "Unexpected character." 1]
           [tok TokenType.Semicolon ";" 1]).
  - reflexivity.
  - repeat constructor.
  - discriminate.
Defined.

(** [synchronize_returns] after the [;] of [var a = ;]. *)
Lemma synchronize_returns_witness :
  exists p' err',
    synchronize (set_parser (Some semicolon_parser) Compilation_new, "")
    = Returns tt
        (set_parser (Some p')
           (set_parser (Some semicolon_parser) Compilation_new), err')
    /\ statement_boundary p'.
Proof.
  apply (synchronize_returns
           (set_parser (Some semicolon_parser) Compilation_new) ""
           semicolon_parser).
  reflexivity.
Defined.

(** [resolveLocal_newest] on [a], declared at depth 1 and again at depth 2:
    the index is that of the newer local. *)
Lemma resolveLocal_newest_witness :
  exists i st,
    resolveLocal (nested_cu, "") = Returns i st
    /\ compiler (fst st) = compiler nested_cu.
Proof.
  destruct (resolveLocal_newest nested_cu "" identifier_parser eq_refl)
    as (i & st & Hr & Hc & _).
  - apply Nat.leb_le. reflexivity.
  - exists i, st. split; [exact Hr | exact Hc].
Defined.

(** [emitConstant_round_trip] on the first constant of a chunk. *)
Lemma emitConstant_round_trip_witness :
  exists chunk',
    emitConstant (VNumber one)
      (mkCompilation (Some Chunk_empty) Compiler_new (Some identifier_parser),
       "")
    = Returns tt
        (mkCompilation (Some chunk') Compiler_new (Some identifier_parser), "")
    /\ code chunk' = [OpCode.to_byte OpCode.CONSTANT; 0]
    /\ constants chunk' = [VNumber one].
Proof.
  destruct (emitConstant_round_trip
              (mkCompilation (Some Chunk_empty) Compiler_new
                 (Some identifier_parser))
              "" Chunk_empty identifier_parser (VNumber one)
              eq_refl eq_refl)
    as (chunk' & Hr & Hcode & Hconst & _).
  - apply Nat.ltb_lt. reflexivity.
  - exists chunk'. split; [exact Hr|]. split; [exact Hcode | exact Hconst].
Defined.

(** [compile_ends_with_RETURN] on [var a = ;]. *)
Lemma compile_ends_with_RETURN_witness :
  exists chunk',
    compilingChunk (fst no_initializer_compiled) = Some chunk'
    /\ last (code chunk') = Some (OpCode.to_byte OpCode.RETURN).
Proof.
  apply (compile_ends_with_RETURN stod_digits
           (scanned no_initializer_tokens 1) 100 no_initializer_source
           Chunk_empty (Compilation_new, "") false no_initializer_compiled).
  vm_compute. reflexivity.
Defined.


(** [endScope_pops] on the end of the scope of depth 2: the second [a] is
    removed, [b] is not. *)
Lemma endScope_pops_witness :
  exists (n : nat) st chunk',
    endScope (nested_cu, "") = Returns tt st
    /\ compilingChunk (fst st) = Some chunk'
    /\ code chunk' = replicate n (OpCode.to_byte OpCode.POP)
    /\ localCount (compiler (fst st)) = 3 - Z.of_nat n.
Proof.
  destruct (endScope_pops nested_cu "" identifier_parser Chunk_empty
              eq_refl eq_refl)
    as (n & st & chunk' & Hr & _ & Hc & Hcode & _ & _ & Hlc & _).
  - discriminate.
  - apply Nat.leb_le. reflexivity.
  - exists n, st, chunk'. auto.
Defined.

(** [empty_scope_round_trip] on an empty block inside the scope of depth
    2. *)
Lemma empty_scope_round_trip_witness :
  exists st,
    (beginScope ;; endScope) (nested_cu, "") = Returns tt st
    /\ compilingChunk (fst st) = Some Chunk_empty
    /\ localCount (compiler (fst st)) = 3.
Proof.
  destruct (empty_scope_round_trip nested_cu "" identifier_parser Chunk_empty
              eq_refl eq_refl)
    as (st & Hr & _ & Hc & _ & Hlc & _).
  - discriminate.
  - apply Nat.leb_le. reflexivity.
  - split; [discriminate | reflexivity].
  - intros local [= <-] _. discriminate.
  - exists st. auto.
Defined.

(** [string_strips_quotes] on the literal [hi], compiled into an empty
    chunk. *)
Lemma string_strips_quotes_witness :
  string_ true
    (mkCompilation (Some Chunk_empty) Compiler_new (Some quoted_parser), "")
  = Returns tt
      (mkCompilation
         (Some (mkChunk [OpCode.to_byte OpCode.CONSTANT; 0] [1; 1]
                  [VString "hi"]))
         Compiler_new (Some quoted_parser), "").
Proof.
  exact (string_strips_quotes
           (mkCompilation (Some Chunk_empty) Compiler_new (Some quoted_parser))
           "" Chunk_empty quoted_parser true "034"%char "hi" "034"%char
           eq_refl eq_refl eq_refl).
Defined.

(** [number_stod_throws] on a literal of 401 digits. *)
Lemma number_stod_throws_witness :
  number stod_digits true (set_parser (Some huge_parser) Compilation_new, "")
  = Terminates
      (set_parser (Some huge_parser)
         (set_parser (Some huge_parser) Compilation_new), "").
Proof.
  apply (number_stod_throws stod_digits
           (set_parser (Some huge_parser) Compilation_new) "" huge_parser
           true).
  - reflexivity.
  - vm_compute. reflexivity.
Defined.

(** [declareVariable_shadowing] on a second [a] declared in the scope of
    depth 2, where only [b] lives: the [a] of depth 1 is shadowed. *)
Lemma declareVariable_shadowing_witness :
  declareVariable
    (mkCompilation (Some Chunk_empty) shadow_locals (Some identifier_parser),
     "")
  = Returns tt
      (mkCompilation (Some Chunk_empty)
         (mkCompiler
            (<[2%nat := mkLocal "a" (-1)]> (locals shadow_locals)) 3 2)
         (Some identifier_parser), "").
Proof.
  refine (proj1 (declareVariable_shadowing (Some Chunk_empty) shadow_locals
                   identifier_parser "" 1 _ _ _ _ _ _ _) _).
  - reflexivity.
  - discriminate.
  - split; [discriminate | reflexivity].
  - reflexivity.
  - apply Nat.leb_le. reflexivity.
  - intros j local Hj Hl. assert (j = 1%nat) as -> by (cbn in Hj; lia).
    injection Hl as <-. right. discriminate.
  - right. exists (mkLocal "a" 1). split; [reflexivity|].
    intros [H|H]; [discriminate | revert H; vm_compute; congruence].
  - intros j local Hj Hl. assert (j = 1%nat) as -> by (cbn in Hj; lia).
    injection Hl as <-. discriminate.
Defined.

(** [literal_round_trip] on [true]. *)
Lemma literal_round_trip_witness :
  exists byte,
    literal true
      (mkCompilation (Some Chunk_empty) Compiler_new (Some true_parser), "")
    = Returns tt
        (mkCompilation (Some (Chunk_write byte 1 Chunk_empty)) Compiler_new
           (Some true_parser), "").
Proof.
  destruct (literal_round_trip
              (mkCompilation (Some Chunk_empty) Compiler_new
                 (Some true_parser))
              "" Chunk_empty true_parser true (VBool true)
              eq_refl eq_refl
              (or_intror (or_intror (conj eq_refl eq_refl))))
    as (byte & Hr & _).
  exists byte. exact Hr.
Defined.

(** [namedVariable_reads_global] on [a] with no local declared. *)
Lemma namedVariable_reads_global_witness :
  namedVariable stod_digits 1 false
    (mkCompilation (Some Chunk_empty) Compiler_new (Some identifier_parser),
     "")
  = Returns tt
      (mkCompilation
         (Some (mkChunk [OpCode.to_byte OpCode.GET_GLOBAL; 0] [1; 1]
                  [VString "a"]))
         Compiler_new (Some identifier_parser), "").
Proof.
  refine (proj1 (namedVariable_reads_global stod_digits 0 Chunk_empty
                   Compiler_new identifier_parser "" false _ _ _ _)).
  - apply Nat.leb_le. reflexivity.
  - intros j local Hj. cbn in Hj. lia.
  - apply Nat.ltb_lt. reflexivity.
  - left. reflexivity.
Defined.

(** [step_push_full_stack] on [NIL] with 256 values on the stack. *)
Lemma step_push_full_stack_witness :
  step (loaded (mkChunk [1; 20] [1; 1] []) (replicate STACK_MAX VNil))
  = Undefined.
Proof.
  apply (step_push_full_stack
           (loaded (mkChunk [1; 20] [1; 1] []) (replicate STACK_MAX VNil))
           (mkChunk [1; 20] [1; 1] []) OpCode.NIL).
  - reflexivity.
  - reflexivity.
  - left. reflexivity.
  - apply Nat.leb_le. reflexivity.
Defined.

(** [resolveLocal_own_initializer] on a third local [a], declared and
    defined at depth 2. *)
Lemma resolveLocal_own_initializer_witness :
  (addLocal "a" ;; markInitialized ;; resolveLocal)
    (mkCompilation (Some Chunk_empty) shadow_locals (Some identifier_parser),
     "")
  = Returns 2
      (mkCompilation (Some Chunk_empty)
         (mkCompiler (<[2%nat := mkLocal "a" 2]> (locals shadow_locals)) 3 2)
         (Some identifier_parser), "").
Proof.
  refine (proj2 (resolveLocal_own_initializer (Some Chunk_empty) shadow_locals
                   identifier_parser "" _ _ _) _).
  - reflexivity.
  - split; [discriminate | reflexivity].
  - reflexivity.
  - discriminate.
Defined.

